(** * Chitaliya Jewelry Branding Studio: the placement core of [src/App.tsx]

    A shallow embedding of the geometry resolver
    ([calculatePositionFromPreset]), of the three settings updaters
    ([updateLogoPosition], [updateLogoSize], [updateMargin]), of the upload,
    preview and export handlers, and of the event loop that React runs
    around them.

    Numbers.  A JavaScript [number] is modelled by [number] below: a finite
    value is an exact rational (kept in lowest terms), and the three special
    values [Infinity], [-Infinity] and [NaN] are kept apart, so that a
    division by zero is what it is in JavaScript and not a rational.  The
    sign of zero is abstracted: every divisor of the program is [100], [2]
    or a DOM [unsigned long], never [-0].

    Rounding.  The placement arithmetic (logo size, anchors, clamp) is kept
    exact: its results are compared and handed to [drawImage] as they are,
    and the rounding of binary64 changes their last places only.  The
    preview scaler is different: its results become canvas
    sizes, which are truncated to integers, so one unit in the last place
    can be one pixel.  There every operation is rounded to binary64
    ([JS.round64]: 53 bits, to nearest, ties to even).

    Renders.  React commits the state a handler leaves and runs the effects
    on it; when the position effect then stores a new rectangle, a second
    commit follows.  [commit] performs both, [firstCommit] is the state of
    the first one, and [displayed] collects every state the page commits,
    where [reachable] has those in which it waits for the next event. *)

From Stdlib Require Import ZArith NArith QArith Qround Qminmax Qpower Lqa Lia.
From Stdlib Require Import Bool String List DecimalString DecimalN.
Import ListNotations.

Local Open Scope Q_scope.

(* ================================================================= *)
(** ** JavaScript numbers *)

Module JS.

Inductive number : Type :=
| Fin (q : Q)
| PInf
| NInf
| NaN.

Definition ofZ (z : Z) : number := Fin (inject_Z z).
Definition ofN (n : N) : number := ofZ (Z.of_N n).

Definition add (a b : number) : number :=
  match a, b with
  | NaN, _ | _, NaN => NaN
  | Fin p, Fin q => Fin (Qred (p + q))
  | PInf, NInf | NInf, PInf => NaN
  | PInf, _ | _, PInf => PInf
  | NInf, _ | _, NInf => NInf
  end.

Definition sub (a b : number) : number :=
  match a, b with
  | NaN, _ | _, NaN => NaN
  | Fin p, Fin q => Fin (Qred (p - q))
  | PInf, PInf | NInf, NInf => NaN
  | PInf, _ | _, NInf => PInf
  | NInf, _ | _, PInf => NInf
  end.

(** The infinity with the sign of [c], where [c] compares the finite
    operand with zero; [Infinity * 0] is [NaN]. *)
Definition signedInf (c : comparison) (positive : bool) : number :=
  match c with
  | Eq => NaN
  | Gt => if positive then PInf else NInf
  | Lt => if positive then NInf else PInf
  end.

Definition mul (a b : number) : number :=
  match a, b with
  | NaN, _ | _, NaN => NaN
  | Fin p, Fin q => Fin (Qred (p * q))
  | PInf, Fin q | Fin q, PInf => signedInf (q ?= 0) true
  | NInf, Fin q | Fin q, NInf => signedInf (q ?= 0) false
  | PInf, PInf | NInf, NInf => PInf
  | PInf, NInf | NInf, PInf => NInf
  end.

(** [p / 0] is an infinity with the sign of [p], and [0 / 0] is [NaN]. *)
Definition div (a b : number) : number :=
  match a, b with
  | NaN, _ | _, NaN => NaN
  | Fin p, Fin q =>
      if Qeq_bool q 0 then signedInf (p ?= 0) true
      else Fin (Qred (p / q))
  | Fin _, (PInf | NInf) => Fin 0
  | (PInf | NInf), (PInf | NInf) => NaN
  | PInf, Fin q => if Qle_bool 0 q then PInf else NInf
  | NInf, Fin q => if Qle_bool 0 q then NInf else PInf
  end.

(** [Math.min] and [Math.max]: [NaN] as soon as an argument is [NaN]. *)
Definition min (a b : number) : number :=
  match a, b with
  | NaN, _ | _, NaN => NaN
  | NInf, _ | _, NInf => NInf
  | PInf, c | c, PInf => c
  | Fin p, Fin q => if Qle_bool p q then Fin p else Fin q
  end.

Definition max (a b : number) : number :=
  match a, b with
  | NaN, _ | _, NaN => NaN
  | PInf, _ | _, PInf => PInf
  | NInf, c | c, NInf => c
  | Fin p, Fin q => if Qle_bool p q then Fin q else Fin p
  end.

(** The comparison [a <= b] of JavaScript: false when an operand is [NaN]. *)
Definition le (a b : number) : Prop :=
  match a, b with
  | NaN, _ | _, NaN => False
  | NInf, _ | _, PInf => True
  | Fin p, Fin q => p <= q
  | _, _ => False
  end.

(** [Object.is] on numbers (the comparison React applies to the
    dependencies of a hook): [NaN] is the same value as [NaN]. *)
Definition sameValue (a b : number) : bool :=
  match a, b with
  | Fin p, Fin q => Qeq_bool p q
  | PInf, PInf | NInf, NInf | NaN, NaN => true
  | _, _ => false
  end.

Definition isFinite (a : number) : bool :=
  match a with Fin _ => true | _ => false end.

(** The integer part of a rational: truncation towards zero. *)
Definition integerPart (q : Q) : Z := Z.quot (Qnum q) (Z.pos (Qden q)).

(** The conversion of a number to a WebIDL [unsigned long], which the
    setters of [canvas.width] and [canvas.height] apply: the special values
    give [0], a finite value is truncated towards zero and taken modulo
    [2^32]. *)
Definition toUnsignedLong (a : number) : N :=
  match a with
  | Fin q => Z.to_N ((integerPart q) mod 2 ^ 32)
  | _ => 0%N
  end.

(** Binary64 rounding of a rational, for the operations whose results are
    truncated afterwards.  [exponent64 q] is the exponent [e] that puts
    [q / 2^e] in [[2^52, 2^53)]; the scaled value is rounded to the nearest
    integer, halves to the even one, and scaled back.  Overflow and
    subnormal numbers are left out: the preview scaler divides 400 by a
    side of a canvas and multiplies a side by the quotient, far from
    both. *)
Definition nearestEven (t : Q) : Z :=
  let f := Qfloor t in
  match Qcompare (t - inject_Z f) (1 # 2) with
  | Lt => f
  | Gt => (f + 1)%Z
  | Eq => if Z.even f then f else (f + 1)%Z
  end.

Definition exponent64 (q : Q) : Z :=
  let k := (Z.log2 (Qnum q) - Z.log2 (Z.pos (Qden q)))%Z in
  if Qle_bool (2 ^ k) q then (k - 52)%Z else (k - 53)%Z.

Definition round64 (q : Q) : Q :=
  match Qnum q with
  | Z0 => 0
  | Zpos _ =>
      let e := exponent64 q in
      Qred (inject_Z (nearestEven (q * 2 ^ (- e))) * 2 ^ e)
  | Zneg _ =>
      let e := exponent64 (- q) in
      Qred (- (inject_Z (nearestEven (- q * 2 ^ (- e))) * 2 ^ e))
  end.

(** The unit roundoff [2^-53]. *)
Definition ulp64 : Q := 1 # 9007199254740992.

(** A number as binary64 holds it. *)
Definition round (a : number) : number :=
  match a with
  | Fin q => Fin (round64 q)
  | _ => a
  end.

End JS.

Declare Scope js_scope.
Delimit Scope js_scope with js.
Bind Scope js_scope with JS.number.
Infix "+" := JS.add : js_scope.
Infix "-" := JS.sub : js_scope.
Infix "*" := JS.mul : js_scope.
Infix "/" := JS.div : js_scope.
Infix "<=" := JS.le : js_scope.

Coercion JS.ofZ : Z >-> JS.number.

Local Open Scope string_scope.

(* ================================================================= *)
(** ** Data model *)

(** The part of a DOM [File] the program reads: its MIME type. *)
Record File : Type := { name : string; type : string }.

Module ImageData.
(** [interface ImageData]; [width] and [height] are read from an
    [HTMLImageElement], where they are [unsigned long]. *)
Record t : Type := { file : File; url : string; width : N; height : N }.
End ImageData.

Module LogoSettings.
(** [interface LogoSettings]. *)
Record t : Type := {
  x : JS.number;
  y : JS.number;
  width : JS.number;
  height : JS.number;
  opacity : JS.number;
  sizePercentage : JS.number;
  margin : JS.number;
  position : string
}.
End LogoSettings.

(** [type PositionPreset], and the string each token is at run time. *)
Inductive PositionPreset : Type := TL | TC | TR | CL | C | CR | BL | BC | BR.

Definition key (p : PositionPreset) : string :=
  match p with
  | TL => "TL" | TC => "TC" | TR => "TR"
  | CL => "CL" | C => "C" | CR => "CR"
  | BL => "BL" | BC => "BC" | BR => "BR"
  end.

(** The nine buttons of the position grid, in the order of the source. *)
Definition positionPresets : list PositionPreset :=
  [TL; TC; TR; CL; C; CR; BL; BC; BR].

(** A [<canvas>] element, as far as its size goes. *)
Record Canvas : Type := { canvasWidth : N; canvasHeight : N }.

(** A canvas that was just created is 300 by 150. *)
Definition newCanvas : Canvas := {| canvasWidth := 300; canvasHeight := 150 |}.

(** The component state: the three [useState] cells of the placement, the
    busy flag and the two canvas refs. *)
Record App : Type := {
  jewelryImage : option ImageData.t;
  logoImage : option ImageData.t;
  logoSettings : LogoSettings.t;
  isProcessing : bool;
  canvasRef : option Canvas;
  previewCanvasRef : option Canvas
}.

(** What the component shows or hands to the browser. *)
Inductive Effect : Type :=
| Alert (message : string)
| SaveFile (timestamp : N).

(** The calls made on a 2D context. *)
Inductive CtxOp : Type :=
| SetGlobalAlpha (alpha : JS.number)
| DrawImage (source : string) (dx dy : JS.number)
| DrawImageScaled (source : string) (dx dy dw dh : JS.number).

Definition initialSettings : LogoSettings.t :=
  {| LogoSettings.x := 0%Z;
     LogoSettings.y := 0%Z;
     LogoSettings.width := 100%Z;
     LogoSettings.height := 100%Z;
     LogoSettings.opacity := 100%Z;
     LogoSettings.sizePercentage := 15%Z;
     LogoSettings.margin := 20%Z;
     LogoSettings.position := "TR" |}.

(** The state after the first render: no image, the hidden canvas mounted,
    the preview canvas not rendered. *)
Definition initialApp : App :=
  {| jewelryImage := None;
     logoImage := None;
     logoSettings := initialSettings;
     isProcessing := false;
     canvasRef := Some newCanvas;
     previewCanvasRef := None |}.

Definition bothImages (s : App) : bool :=
  match jewelryImage s, logoImage s with
  | Some _, Some _ => true
  | _, _ => false
  end.

(* ================================================================= *)
(** ** Geometry resolver *)

Section Geometry.
Local Open Scope js_scope.

(** The [switch] of [calculatePositionFromPreset]: [x] and [y] start at
    [0] and a string that is no preset token leaves them there. *)
Definition presetAnchor (preset : string)
    (jewelryWidth jewelryHeight logoWidth logoHeight margin : JS.number)
    : JS.number * JS.number :=
  if String.eqb preset "TL" then
    (margin, margin)
  else if String.eqb preset "TC" then
    ((jewelryWidth - logoWidth) / 2%Z, margin)
  else if String.eqb preset "TR" then
    (jewelryWidth - logoWidth - margin, margin)
  else if String.eqb preset "CL" then
    (margin, (jewelryHeight - logoHeight) / 2%Z)
  else if String.eqb preset "C" then
    ((jewelryWidth - logoWidth) / 2%Z, (jewelryHeight - logoHeight) / 2%Z)
  else if String.eqb preset "CR" then
    (jewelryWidth - logoWidth - margin, (jewelryHeight - logoHeight) / 2%Z)
  else if String.eqb preset "BL" then
    (margin, jewelryHeight - logoHeight - margin)
  else if String.eqb preset "BC" then
    ((jewelryWidth - logoWidth) / 2%Z, jewelryHeight - logoHeight - margin)
  else if String.eqb preset "BR" then
    (jewelryWidth - logoWidth - margin, jewelryHeight - logoHeight - margin)
  else
    (0%Z : JS.number, 0%Z : JS.number).

Definition calculatePositionFromPreset (preset : string)
    (jewelryWidth jewelryHeight logoWidth logoHeight margin : JS.number)
    : JS.number * JS.number :=
  let '(x, y) :=
    presetAnchor preset jewelryWidth jewelryHeight logoWidth logoHeight margin in
  (JS.max 0%Z (JS.min x (jewelryWidth - logoWidth)),
   JS.max 0%Z (JS.min y (jewelryHeight - logoHeight))).

End Geometry.

(* ================================================================= *)
(** ** Placement state controller *)

Section Controller.
Local Open Scope js_scope.

(** [setLogoSettings(prev => f prev)]. *)
Definition setLogoSettings (f : LogoSettings.t -> LogoSettings.t) (s : App) : App :=
  {| jewelryImage := jewelryImage s;
     logoImage := logoImage s;
     logoSettings := f (logoSettings s);
     isProcessing := isProcessing s;
     canvasRef := canvasRef s;
     previewCanvasRef := previewCanvasRef s |}.

Definition setIsProcessing (b : bool) (s : App) : App :=
  {| jewelryImage := jewelryImage s;
     logoImage := logoImage s;
     logoSettings := logoSettings s;
     isProcessing := b;
     canvasRef := canvasRef s;
     previewCanvasRef := previewCanvasRef s |}.

Definition setJewelryImage (i : ImageData.t) (s : App) : App :=
  {| jewelryImage := Some i;
     logoImage := logoImage s;
     logoSettings := logoSettings s;
     isProcessing := isProcessing s;
     canvasRef := canvasRef s;
     previewCanvasRef := previewCanvasRef s |}.

Definition setLogoImage (i : ImageData.t) (s : App) : App :=
  {| jewelryImage := jewelryImage s;
     logoImage := Some i;
     logoSettings := logoSettings s;
     isProcessing := isProcessing s;
     canvasRef := canvasRef s;
     previewCanvasRef := previewCanvasRef s |}.

(** [updateLogoPosition]: the size percentage and the margin are those of
    the state the callback was created in, which is the current one. *)
Definition updateLogoPosition (preset : string) (s : App) : App :=
  match jewelryImage s, logoImage s with
  | Some jewelry, Some logo =>
      let logoWidth :=
        (JS.ofN (ImageData.width jewelry)
           * LogoSettings.sizePercentage (logoSettings s)) / 100%Z in
      let logoHeight :=
        (JS.ofN (ImageData.height logo) * logoWidth)
          / JS.ofN (ImageData.width logo) in
      let '(x, y) :=
        calculatePositionFromPreset preset
          (JS.ofN (ImageData.width jewelry)) (JS.ofN (ImageData.height jewelry))
          logoWidth logoHeight (LogoSettings.margin (logoSettings s)) in
      setLogoSettings (fun prev =>
        {| LogoSettings.x := x;
           LogoSettings.y := y;
           LogoSettings.width := logoWidth;
           LogoSettings.height := logoHeight;
           LogoSettings.opacity := LogoSettings.opacity prev;
           LogoSettings.sizePercentage := LogoSettings.sizePercentage prev;
           LogoSettings.margin := LogoSettings.margin prev;
           LogoSettings.position := preset |}) s
  | _, _ => s
  end.

Definition updateLogoSize (percentage : JS.number) (s : App) : App :=
  match jewelryImage s, logoImage s with
  | Some jewelry, Some logo =>
      let logoWidth := (JS.ofN (ImageData.width jewelry) * percentage) / 100%Z in
      let logoHeight :=
        (JS.ofN (ImageData.height logo) * logoWidth)
          / JS.ofN (ImageData.width logo) in
      setLogoSettings (fun prev =>
        let '(x, y) :=
          calculatePositionFromPreset (LogoSettings.position prev)
            (JS.ofN (ImageData.width jewelry)) (JS.ofN (ImageData.height jewelry))
            logoWidth logoHeight (LogoSettings.margin prev) in
        {| LogoSettings.x := x;
           LogoSettings.y := y;
           LogoSettings.width := logoWidth;
           LogoSettings.height := logoHeight;
           LogoSettings.opacity := LogoSettings.opacity prev;
           LogoSettings.sizePercentage := percentage;
           LogoSettings.margin := LogoSettings.margin prev;
           LogoSettings.position := LogoSettings.position prev |}) s
  | _, _ => s
  end.

Definition updateMargin (margin : JS.number) (s : App) : App :=
  match jewelryImage s, logoImage s with
  | Some jewelry, Some logo =>
      setLogoSettings (fun prev =>
        let '(x, y) :=
          calculatePositionFromPreset (LogoSettings.position prev)
            (JS.ofN (ImageData.width jewelry)) (JS.ofN (ImageData.height jewelry))
            (LogoSettings.width prev) (LogoSettings.height prev) margin in
        {| LogoSettings.x := x;
           LogoSettings.y := y;
           LogoSettings.width := LogoSettings.width prev;
           LogoSettings.height := LogoSettings.height prev;
           LogoSettings.opacity := LogoSettings.opacity prev;
           LogoSettings.sizePercentage := LogoSettings.sizePercentage prev;
           LogoSettings.margin := margin;
           LogoSettings.position := LogoSettings.position prev |}) s
  | _, _ => s
  end.

(** The [onChange] of the opacity slider. *)
Definition changeOpacity (value : JS.number) (s : App) : App :=
  setLogoSettings (fun prev =>
    {| LogoSettings.x := LogoSettings.x prev;
       LogoSettings.y := LogoSettings.y prev;
       LogoSettings.width := LogoSettings.width prev;
       LogoSettings.height := LogoSettings.height prev;
       LogoSettings.opacity := value;
       LogoSettings.sizePercentage := LogoSettings.sizePercentage prev;
       LogoSettings.margin := LogoSettings.margin prev;
       LogoSettings.position := LogoSettings.position prev |}) s.

Definition resetPosition (s : App) : App := updateLogoPosition "TR" s.

(** The two upload slots. *)
Inductive ImageType : Type := jewelry | logo.

(** [handleFileUpload].  [decoded] is what the browser makes of the file:
    the data URL and the natural size when both [FileReader] and [Image]
    load it, [None] when one of them does not (no [onerror] is installed,
    so nothing happens then). *)
Definition handleFileUpload (f : File) (slot : ImageType)
    (decoded : option (string * N * N)) (s : App) : App * list Effect :=
  if negb (String.prefix "image/" (type f)) then
    (s, [Alert "Please upload a valid image file"])
  else
    match decoded with
    | None => (s, [])
    | Some (result, w, h) =>
        let imageData :=
          {| ImageData.file := f; ImageData.url := result;
             ImageData.width := w; ImageData.height := h |} in
        match slot with
        | jewelry => (setJewelryImage imageData s, [])
        | logo => (setLogoImage imageData s, [])
        end
    end.

(** An encoded image, as [toBlob] hands it to its callback. *)
Record Blob : Type := { size : N }.

(** [downloadImage], up to the call of [toBlob]. *)
Definition downloadImage (s : App) : App :=
  match canvasRef s with
  | None => s
  | Some _ => setIsProcessing true s
  end.

(** The callback given to [toBlob]; [now] is [Date.now()]. *)
Definition toBlobCallback (blob : option Blob) (now : N) (s : App)
    : App * list Effect :=
  match blob with
  | Some _ => (setIsProcessing false s, [SaveFile now])
  | None => (setIsProcessing false s, [])
  end.

End Controller.

(* ================================================================= *)
(** ** Rendering: compositor calls and preview scaler *)

Section Rendering.
Local Open Scope js_scope.

(** [updatePreviewCanvas]: the new size of the preview canvas and the
    draw call, or nothing when a ref is empty.  The two quotients and the
    two products are rounded to binary64, as the sizes of the canvas are
    their integer parts. *)
Definition updatePreviewCanvas (s : App) : option (Canvas * CtxOp) :=
  match canvasRef s, previewCanvasRef s with
  | Some sourceCanvas, Some _ =>
      let maxWidth : JS.number := 400%Z in
      let scale :=
        JS.min (JS.round (maxWidth / JS.ofN (canvasWidth sourceCanvas)))
               (JS.round (maxWidth / JS.ofN (canvasHeight sourceCanvas))) in
      let previewWidth := JS.round (JS.ofN (canvasWidth sourceCanvas) * scale) in
      let previewHeight := JS.round (JS.ofN (canvasHeight sourceCanvas) * scale) in
      Some ({| canvasWidth := JS.toUnsignedLong previewWidth;
               canvasHeight := JS.toUnsignedLong previewHeight |},
            DrawImageScaled "canvas" 0%Z 0%Z previewWidth previewHeight)
  | _, _ => None
  end.

Definition setCanvas (c : Canvas) (s : App) : App :=
  {| jewelryImage := jewelryImage s;
     logoImage := logoImage s;
     logoSettings := logoSettings s;
     isProcessing := isProcessing s;
     canvasRef := Some c;
     previewCanvasRef := previewCanvasRef s |}.

Definition setPreviewCanvas (c : option Canvas) (s : App) : App :=
  {| jewelryImage := jewelryImage s;
     logoImage := logoImage s;
     logoSettings := logoSettings s;
     isProcessing := isProcessing s;
     canvasRef := canvasRef s;
     previewCanvasRef := c |}.

(** [updateCanvas], with the two image loads it waits for taken as
    done: the state with both canvases resized, and the calls made on
    the context of the hidden canvas. *)
Definition updateCanvas (s : App) : App * list CtxOp :=
  match jewelryImage s, logoImage s, canvasRef s with
  | Some jewelryImg, Some logoImg, Some _ =>
      let s1 :=
        setCanvas {| canvasWidth := ImageData.width jewelryImg;
                     canvasHeight := ImageData.height jewelryImg |} s in
      let settings := logoSettings s in
      let ops :=
        [ DrawImage (ImageData.url jewelryImg) 0%Z 0%Z;
          SetGlobalAlpha (LogoSettings.opacity settings / 100%Z);
          DrawImageScaled (ImageData.url logoImg)
            (LogoSettings.x settings) (LogoSettings.y settings)
            (LogoSettings.width settings) (LogoSettings.height settings);
          SetGlobalAlpha 1%Z ] in
      match updatePreviewCanvas s1 with
      | Some (preview, _) => (setPreviewCanvas (Some preview) s1, ops)
      | None => (s1, ops)
      end
  | _, _, _ => (s, [])
  end.

End Rendering.

(* ================================================================= *)
(** ** The event loop *)

Section EventLoop.

(** What the user and the browser can do to the component.  The sliders
    hand over [parseInt(e.target.value)], an integer. *)
Inductive Event : Type :=
| FileChosen (f : File) (slot : ImageType) (decoded : option (string * N * N))
| PresetButton (preset : PositionPreset)
| SizeSlider (value : Z)
| OpacitySlider (value : Z)
| MarginSlider (value : Z)
| ResetButton
| DownloadButton
| BlobReady (blob : option Blob) (now : N).

Definition inRange (lo hi v : Z) : bool := (lo <=? v)%Z && (v <=? hi)%Z.

(** Which events the rendered page can produce: the settings panel and the
    download button exist only when both images are present, a range input
    stays between its [min] and [max], the download button is disabled
    while [isProcessing], and the callback of [toBlob] comes only after a
    download was started. *)
Definition enabled (e : Event) (s : App) : bool :=
  match e with
  | FileChosen _ _ _ => true
  | PresetButton _ => bothImages s
  | SizeSlider v => bothImages s && inRange 5 50 v
  | OpacitySlider v => bothImages s && inRange 10 100 v
  | MarginSlider v => bothImages s && inRange 0 100 v
  | ResetButton => bothImages s
  | DownloadButton => bothImages s && negb (isProcessing s)
  | BlobReady _ _ => isProcessing s
  end.

(** The handler the page attaches to each event. *)
Definition handle (e : Event) (s : App) : App * list Effect :=
  match e with
  | FileChosen f slot decoded => handleFileUpload f slot decoded s
  | PresetButton preset => (updateLogoPosition (key preset) s, [])
  | SizeSlider v => (updateLogoSize (JS.ofZ v) s, [])
  | OpacitySlider v => (changeOpacity (JS.ofZ v) s, [])
  | MarginSlider v => (updateMargin (JS.ofZ v) s, [])
  | ResetButton => (resetPosition s, [])
  | DownloadButton => (downloadImage s, [])
  | BlobReady blob now => toBlobCallback blob now s
  end.

(** An upload that went through stores a new [ImageData] object. *)
Definition imageReplaced (e : Event) : bool :=
  match e with
  | FileChosen f _ (Some _) => String.prefix "image/" (type f)
  | _ => false
  end.

(** The first [useEffect] runs again when one of its dependencies is a new
    value: an image, or [updateLogoPosition], which [useCallback] rebuilds
    when an image, [sizePercentage] or [margin] is. *)
Definition positionEffectDue (e : Event) (before after : App) : bool :=
  imageReplaced e
  || negb (JS.sameValue (LogoSettings.sizePercentage (logoSettings before))
                        (LogoSettings.sizePercentage (logoSettings after)))
  || negb (JS.sameValue (LogoSettings.margin (logoSettings before))
                        (LogoSettings.margin (logoSettings after))).

Definition positionEffect (s : App) : App :=
  if bothImages s then updateLogoPosition (LogoSettings.position (logoSettings s)) s
  else s.

(** The preview canvas is in the page exactly when both images are. *)
Definition mountPreview (s : App) : App :=
  if bothImages s then
    match previewCanvasRef s with
    | Some _ => s
    | None => setPreviewCanvas (Some newCanvas) s
    end
  else setPreviewCanvas None s.

(** One commit: the page is rendered from the state, which puts the
    preview canvas in or out of it, and the canvas effect draws from that
    state ([updateCanvas] with the image loads taken as done). *)
Definition render (s : App) : App := fst (updateCanvas (mountPreview s)).

(** The state React commits right after a handler.  The effects of this
    commit see it as it is: with a new image and the rectangle of before,
    when the handler was an upload. *)
Definition firstCommit (after : App) : App := render after.

(** What React does after a handler: it commits the state the handler
    left and runs the effects on it, the position effect first; when that
    effect is due it stores a new rectangle, and a second commit
    follows. *)
Definition commit (e : Event) (before after : App) : App :=
  let first := firstCommit after in
  if positionEffectDue e before after then render (positionEffect first)
  else first.

Definition step (e : Event) (s : App) : App * list Effect :=
  if enabled e s then
    let '(s', out) := handle e s in (commit e s s', out)
  else (s, []).

Fixpoint run (es : list Event) (s : App) : App * list Effect :=
  match es with
  | [] => (s, [])
  | e :: es' =>
      let '(s1, out1) := step e s in
      let '(s2, out2) := run es' s1 in
      (s2, (out1 ++ out2)%list)
  end.

(** The states the page can be in when it waits for the next event: the
    effects of the last event have run. *)
Inductive reachable : App -> Prop :=
| reachable_init : reachable initialApp
| reachable_step (e : Event) (s : App) :
    reachable s -> enabled e s = true -> reachable (fst (step e s)).

(** Every state the page commits: those it rests in, and the first commit
    after each handler. *)
Inductive displayed : App -> Prop :=
| displayed_rest (s : App) : reachable s -> displayed s
| displayed_first (e : Event) (s : App) :
    reachable s -> enabled e s = true -> displayed (firstCommit (fst (handle e s))).

(** Every event of the list is one the page can produce when its turn
    comes. *)
Fixpoint allEnabled (es : list Event) (s : App) : bool :=
  match es with
  | [] => true
  | e :: es' => enabled e s && allEnabled es' (fst (step e s))
  end.

End EventLoop.

(* ================================================================= *)
(** ** The anchor formulas, as the specification words them *)

Section SpecAnchors.
Local Open Scope js_scope.

Inductive Horizontal : Type := left | center | right.
Inductive Vertical : Type := top | middle | bottom.

(** A preset names its row first and its column second; ["C"] alone is the
    centre of both. *)
Definition verticalOf (p : PositionPreset) : Vertical :=
  match p with
  | TL | TC | TR => top
  | CL | C | CR => middle
  | BL | BC | BR => bottom
  end.

Definition horizontalOf (p : PositionPreset) : Horizontal :=
  match p with
  | TL | CL | BL => left
  | TC | C | BC => center
  | TR | CR | BR => right
  end.

Definition spec_anchorX (h : Horizontal) (baseW logoW margin : JS.number) : JS.number :=
  match h with
  | left => margin
  | center => (baseW - logoW) / 2%Z
  | right => baseW - logoW - margin
  end.

Definition spec_anchorY (v : Vertical) (baseH logoH margin : JS.number) : JS.number :=
  match v with
  | top => margin
  | middle => (baseH - logoH) / 2%Z
  | bottom => baseH - logoH - margin
  end.

(** [max(0, min(raw, upperBound))]. *)
Definition spec_clamp (raw upperBound : JS.number) : JS.number :=
  JS.max 0%Z (JS.min raw upperBound).

(** [Math.round] on a rational: the nearest integer, halves upwards. *)
Definition spec_round (q : Q) : Z := Qfloor (q + (1 # 2)).

End SpecAnchors.

(* ================================================================= *)
(** ** The documented scenario: images and uploads *)

Section Scenario.

Definition scenarioFile : File := {| name := "image.png"; type := "image/png" |}.

Definition scenarioUpload (slot : ImageType) (w h : N) : Event :=
  FileChosen scenarioFile slot (Some ("data:image/png;base64,", w, h)).

Definition scenarioImage (w h : N) : ImageData.t :=
  {| ImageData.file := scenarioFile;
     ImageData.url := "data:image/png;base64,";
     ImageData.width := w;
     ImageData.height := h |}.

Definition scenarioApp (base logoImg : ImageData.t) : App :=
  {| jewelryImage := Some base;
     logoImage := Some logoImg;
     logoSettings := initialSettings;
     isProcessing := false;
     canvasRef := Some newCanvas;
     previewCanvasRef := None |}.

End Scenario.

(* ================================================================= *)
(** ** Properties of a state *)

Section StateProperties.
Local Open Scope js_scope.

(** The stored position is one of the nine tokens. *)
Definition isPresetToken (position : string) : Prop :=
  In position (map key positionPresets).

(** The rectangle [{x, y, width, height}] lies in
    [[0, baseWidth] x [0, baseHeight]]. *)
Definition rectWithin (r : LogoSettings.t) (baseWidth baseHeight : N) : Prop :=
  0%Z <= LogoSettings.x r
  /\ 0%Z <= LogoSettings.y r
  /\ LogoSettings.x r + LogoSettings.width r <= JS.ofN baseWidth
  /\ LogoSettings.y r + LogoSettings.height r <= JS.ofN baseHeight.

(** The same, with the lower edge required only of a logo that is not
    taller than the base. *)
Definition rectWithinAcross (r : LogoSettings.t) (baseWidth baseHeight : N) : Prop :=
  0%Z <= LogoSettings.x r
  /\ 0%Z <= LogoSettings.y r
  /\ LogoSettings.x r + LogoSettings.width r <= JS.ofN baseWidth
  /\ (LogoSettings.height r <= JS.ofN baseHeight ->
      LogoSettings.y r + LogoSettings.height r <= JS.ofN baseHeight).

(** The size [updateLogoPosition] and [updateLogoSize] give the logo. *)
Definition logoWidthOf (base : ImageData.t) (percentage : JS.number) : JS.number :=
  JS.ofN (ImageData.width base) * percentage / 100%Z.

Definition logoHeightOf (logoImg : ImageData.t) (logoWidth : JS.number) : JS.number :=
  JS.ofN (ImageData.height logoImg) * logoWidth / JS.ofN (ImageData.width logoImg).

(** The resolver, at the size of the base image. *)
Definition resolveOn (base : ImageData.t) (preset : string)
    (logoWidth logoHeight margin : JS.number) : JS.number * JS.number :=
  calculatePositionFromPreset preset
    (JS.ofN (ImageData.width base)) (JS.ofN (ImageData.height base))
    logoWidth logoHeight margin.

(** The rectangle is the one the resolver gives for the stored
    parameters: resolving again changes nothing. *)
Definition settled (s : App) : Prop :=
  logoSettings (updateLogoPosition (LogoSettings.position (logoSettings s)) s)
  = logoSettings s.

(** The parameters are integers the sliders can produce. *)
Definition paramsInRange (r : LogoSettings.t) : Prop :=
  (exists v : Z, LogoSettings.sizePercentage r = JS.ofZ v /\ (5 <= v <= 50)%Z)
  /\ (exists v : Z, LogoSettings.margin r = JS.ofZ v /\ (0 <= v <= 100)%Z)
  /\ (exists v : Z, LogoSettings.opacity r = JS.ofZ v /\ (10 <= v <= 100)%Z).

(** What every state of the page satisfies. *)
Record Invariant (s : App) : Prop := {
  inv_params : paramsInRange (logoSettings s);
  inv_position : isPresetToken (LogoSettings.position (logoSettings s));
  inv_settled : settled s
}.

(** The arguments of the call that draws the logo. *)
Definition logoDrawRect (s : App) : JS.number * JS.number * JS.number * JS.number :=
  (LogoSettings.x (logoSettings s), LogoSettings.y (logoSettings s),
   LogoSettings.width (logoSettings s), LogoSettings.height (logoSettings s)).

(** The alpha the compositor blends the logo with. *)
Definition logoAlpha (s : App) : JS.number :=
  LogoSettings.opacity (logoSettings s) / 100%Z.

End StateProperties.

(* ================================================================= *)
(** ** The rest of the page: labels, buttons, drops, file names *)

Section PageHelpers.

(** The own properties of the object [labels] in [getPositionLabel]. *)
Definition labels : list (string * string) :=
  [ ("TL", "Top Left"); ("TC", "Top Center"); ("TR", "Top Right");
    ("CL", "Center Left"); ("C", "Center"); ("CR", "Center Right");
    ("BL", "Bottom Left"); ("BC", "Bottom Center"); ("BR", "Bottom Right") ].

Fixpoint ownProperty (k : string) (o : list (string * string)) : option string :=
  match o with
  | [] => None
  | (k', v) :: o' => if String.eqb k k' then Some v else ownProperty k o'
  end.

(** The names an object literal inherits from [Object.prototype]; each is
    a function or an object, hence truthy. *)
Definition objectPrototypeKeys : list string :=
  [ "constructor"; "hasOwnProperty"; "isPrototypeOf"; "propertyIsEnumerable";
    "toLocaleString"; "toString"; "valueOf"; "__proto__";
    "__defineGetter__"; "__defineSetter__"; "__lookupGetter__"; "__lookupSetter__" ].

(** What [labels[position] || 'Custom'] evaluates to: a label, or for an
    inherited name the inherited member itself. *)
Inductive LabelValue : Type :=
| Label (text : string)
| Inherited (property : string).

Definition getPositionLabel (position : string) : LabelValue :=
  match ownProperty position labels with
  | Some text => if String.eqb text "" then Label "Custom" else Label text
  | None =>
      if existsb (String.eqb position) objectPrototypeKeys then Inherited position
      else Label "Custom"
  end.

(** The test that gives a button of the position grid its highlight:
    [logoSettings.position === preset.key]. *)
Definition isHighlighted (s : App) (preset : PositionPreset) : bool :=
  String.eqb (LogoSettings.position (logoSettings s)) (key preset).

(** [handleDrop]: of the dropped files the first is uploaded; [decoded] is
    what the browser makes of that file. *)
Definition handleDrop (files : list File) (slot : ImageType)
    (decoded : option (string * N * N)) (s : App) : App * list Effect :=
  match files with
  | [] => (s, [])
  | f :: _ => handleFileUpload f slot decoded s
  end.

(** The name [downloadImage] gives the saved file; [now] is [Date.now()],
    an integer, written in decimal by the template literal. *)
Definition downloadFileName (now : N) : string :=
  "chitaliya-branded-jewelry-"
    ++ NilEmpty.string_of_uint (N.to_uint now) ++ ".png".

(** The canvases are what the last render left: the hidden canvas is
    there, with both images it has the size of the base image, and the
    preview canvas is in the page, scaled from it, exactly then. *)
Record CanvasInvariant (s : App) : Prop := {
  canvas_mounted : canvasRef s <> None;
  canvas_base :
    forall base, bothImages s = true -> jewelryImage s = Some base ->
      canvasRef s = Some {| canvasWidth := ImageData.width base;
                            canvasHeight := ImageData.height base |};
  canvas_preview_mounted :
    previewCanvasRef s <> None <-> bothImages s = true;
  canvas_preview_scaled :
    previewCanvasRef s = option_map fst (updatePreviewCanvas s)
}.

End PageHelpers.

(* ================================================================= *)
(** ** Numbers: basic facts *)

Section NumberFacts.

Lemma Qle_bool_false (a b : Q) : Qle_bool a b = false -> b < a.
Proof.
  intros H. destruct (Qlt_le_dec b a) as [Hlt | Hle]; [exact Hlt |].
  apply Qle_bool_iff in Hle. congruence.
Qed.

Lemma sub_fin (a b : Q) : JS.sub (JS.Fin a) (JS.Fin b) = JS.Fin (Qred (a - b)).
Proof. reflexivity. Qed.

Lemma mul_fin (a b : Q) : JS.mul (JS.Fin a) (JS.Fin b) = JS.Fin (Qred (a * b)).
Proof. reflexivity. Qed.

Lemma add_fin (a b : Q) : JS.add (JS.Fin a) (JS.Fin b) = JS.Fin (Qred (a + b)).
Proof. reflexivity. Qed.

Lemma div_fin (a b : Q) :
  ~ b == 0 -> JS.div (JS.Fin a) (JS.Fin b) = JS.Fin (Qred (a / b)).
Proof.
  intros Hb. unfold JS.div.
  destruct (Qeq_bool b 0) eqn:E; [| reflexivity].
  apply Qeq_bool_iff in E. contradiction.
Qed.

Lemma div_fin_pos (a : Q) (z : Z) :
  (0 < z)%Z -> JS.div (JS.Fin a) (JS.ofZ z) = JS.Fin (Qred (a / inject_Z z)).
Proof.
  intros Hz. apply div_fin. intros E.
  assert (H : inject_Z 0 < inject_Z z) by (rewrite <- Zlt_Qlt; exact Hz).
  change (inject_Z 0) with 0 in H.
  rewrite E in H. apply (Qlt_irrefl 0 H).
Qed.

(** The clamp of a finite value between [0] and a finite bound. *)
Lemma clamp_fin (v ub : Q) :
  exists r : Q,
    spec_clamp (JS.Fin v) (JS.Fin ub) = JS.Fin r
    /\ 0 <= r
    /\ (0 <= ub -> r <= ub)
    /\ (ub < 0 -> r = inject_Z 0)
    /\ (0 <= v -> v <= ub -> r = v).
Proof.
  unfold spec_clamp, JS.min, JS.max, JS.ofZ.
  destruct (Qle_bool v ub) eqn:E1.
  - apply Qle_bool_iff in E1.
    destruct (Qle_bool (inject_Z 0) v) eqn:E2.
    + apply Qle_bool_iff in E2. exists v. change (inject_Z 0) with 0 in E2.
      repeat split; try assumption; intros; try reflexivity; try lra; exfalso; lra.
    + apply Qle_bool_false in E2. exists (inject_Z 0).
      change (inject_Z 0) with 0 in *.
      repeat split; intros; try reflexivity; try lra; exfalso; lra.
  - apply Qle_bool_false in E1.
    destruct (Qle_bool (inject_Z 0) ub) eqn:E2.
    + apply Qle_bool_iff in E2. exists ub. change (inject_Z 0) with 0 in E2.
      repeat split; try assumption; intros; try reflexivity; try lra; exfalso; lra.
    + apply Qle_bool_false in E2. exists (inject_Z 0).
      change (inject_Z 0) with 0 in *.
      repeat split; intros; try reflexivity; try lra; exfalso; lra.
Qed.

End NumberFacts.

(* ================================================================= *)
(** ** Geometry resolver: anchors and clamp *)

Section GeometryFacts.

(** The nine cases of the [switch] are the product of the three
    horizontal and the three vertical formulas. *)
Lemma presetAnchor_key (p : PositionPreset) (jw jh lw lh m : JS.number) :
  presetAnchor (key p) jw jh lw lh m
  = (spec_anchorX (horizontalOf p) jw lw m, spec_anchorY (verticalOf p) jh lh m).
Proof. destruct p; reflexivity. Qed.

Lemma calculatePositionFromPreset_key (p : PositionPreset) (jw jh lw lh m : JS.number) :
  calculatePositionFromPreset (key p) jw jh lw lh m
  = (spec_clamp (spec_anchorX (horizontalOf p) jw lw m) (JS.sub jw lw),
     spec_clamp (spec_anchorY (verticalOf p) jh lh m) (JS.sub jh lh)).
Proof.
  unfold calculatePositionFromPreset. rewrite presetAnchor_key. reflexivity.
Qed.

(** A string that is no preset token leaves the anchor at the origin. *)
Lemma presetAnchor_cases (preset : string) (jw jh lw lh m : JS.number) :
  (exists p, preset = key p)
  \/ presetAnchor preset jw jh lw lh m = (JS.ofZ 0, JS.ofZ 0).
Proof.
  unfold presetAnchor.
  repeat match goal with
  | |- context [String.eqb preset ?t] =>
      destruct (String.eqb_spec preset t) as [-> | _]
  end;
  first
    [ right; reflexivity
    | left;
      first [ exists TL; reflexivity | exists TC; reflexivity | exists TR; reflexivity
            | exists CL; reflexivity | exists C; reflexivity | exists CR; reflexivity
            | exists BL; reflexivity | exists BC; reflexivity | exists BR; reflexivity ] ].
Qed.

Lemma spec_anchorX_fin (h : Horizontal) (bw lw m : Q) :
  exists a : Q, spec_anchorX h (JS.Fin bw) (JS.Fin lw) (JS.Fin m) = JS.Fin a.
Proof.
  destruct h; unfold spec_anchorX.
  - eexists; reflexivity.
  - rewrite sub_fin, div_fin_pos by lia. eexists; reflexivity.
  - rewrite !sub_fin. eexists; reflexivity.
Qed.

Lemma spec_anchorY_fin (v : Vertical) (bh lh m : Q) :
  exists a : Q, spec_anchorY v (JS.Fin bh) (JS.Fin lh) (JS.Fin m) = JS.Fin a.
Proof.
  destruct v; unfold spec_anchorY.
  - eexists; reflexivity.
  - rewrite sub_fin, div_fin_pos by lia. eexists; reflexivity.
  - rewrite !sub_fin. eexists; reflexivity.
Qed.

(** On finite arguments the resolver returns finite coordinates, clamped. *)
Lemma calculate_fin (preset : string) (bw bh lw lh m : Q) :
  exists x y : Q,
    calculatePositionFromPreset preset
      (JS.Fin bw) (JS.Fin bh) (JS.Fin lw) (JS.Fin lh) (JS.Fin m)
    = (JS.Fin x, JS.Fin y)
    /\ 0 <= x /\ 0 <= y
    /\ (lw <= bw -> x <= bw - lw)
    /\ (lh <= bh -> y <= bh - lh)
    /\ (bw < lw -> x = inject_Z 0)
    /\ (bh < lh -> y = inject_Z 0).
Proof.
  assert (Hxy : exists ax ay : Q,
             presetAnchor preset (JS.Fin bw) (JS.Fin bh) (JS.Fin lw) (JS.Fin lh) (JS.Fin m)
             = (JS.Fin ax, JS.Fin ay)).
  { destruct (presetAnchor_cases preset (JS.Fin bw) (JS.Fin bh)
                (JS.Fin lw) (JS.Fin lh) (JS.Fin m)) as [[p ->] | ->].
    - rewrite presetAnchor_key.
      destruct (spec_anchorX_fin (horizontalOf p) bw lw m) as [ax ->].
      destruct (spec_anchorY_fin (verticalOf p) bh lh m) as [ay ->].
      exists ax, ay; reflexivity.
    - exists (inject_Z 0), (inject_Z 0); reflexivity. }
  destruct Hxy as (ax & ay & Hxy).
  unfold calculatePositionFromPreset. rewrite Hxy, !sub_fin.
  destruct (clamp_fin ax (Qred (bw - lw))) as (x & Hx & Hx0 & Hxu & Hxz & _).
  destruct (clamp_fin ay (Qred (bh - lh))) as (y & Hy & Hy0 & Hyu & Hyz & _).
  unfold spec_clamp in Hx, Hy. rewrite Hx, Hy.
  rewrite Qred_correct in Hxu, Hxz, Hyu, Hyz.
  exists x, y. split; [reflexivity |].
  repeat split; try assumption; intros.
  - apply Hxu. lra.
  - apply Hyu. lra.
  - apply Hxz. lra.
  - apply Hyz. lra.
Qed.

End GeometryFacts.

(* ================================================================= *)
(** ** Logo size *)

Section LogoSize.

Lemma ofN_fin (n : N) : JS.ofN n = JS.Fin (inject_Z (Z.of_N n)).
Proof. reflexivity. Qed.

Lemma ofN_nonneg (n : N) : 0 <= inject_Z (Z.of_N n).
Proof.
  change 0 with (inject_Z 0). rewrite <- Zle_Qle. lia.
Qed.

Lemma ofN_pos (n : N) : (0 < n)%N -> 0 < inject_Z (Z.of_N n).
Proof.
  intros H. change 0 with (inject_Z 0). rewrite <- Zlt_Qlt. lia.
Qed.

(** [baseW * sizePercentage / 100]. *)
Lemma logoWidth_fin (bw : N) (pct : Q) :
  exists w : Q,
    JS.div (JS.mul (JS.ofN bw) (JS.Fin pct)) (JS.ofZ 100) = JS.Fin w
    /\ w == inject_Z (Z.of_N bw) * pct / 100.
Proof.
  rewrite ofN_fin, mul_fin, div_fin_pos by lia.
  eexists; split; [reflexivity |].
  rewrite !Qred_correct. reflexivity.
Qed.

(** [logoNaturalH * logoWidth / logoNaturalW], for a logo of positive
    natural width. *)
Lemma logoHeight_fin (lh lw : N) (w : Q) :
  (0 < lw)%N ->
  exists h : Q,
    JS.div (JS.mul (JS.ofN lh) (JS.Fin w)) (JS.ofN lw) = JS.Fin h
    /\ h == inject_Z (Z.of_N lh) * w / inject_Z (Z.of_N lw).
Proof.
  intros Hlw. pose proof (ofN_pos lw Hlw) as Hpos.
  rewrite !ofN_fin, mul_fin, div_fin.
  - eexists; split; [reflexivity |].
    rewrite !Qred_correct. reflexivity.
  - intros E. rewrite E in Hpos. apply (Qlt_irrefl 0 Hpos).
Qed.

(** With a logo of natural width zero the height is no finite number. *)
Lemma logoHeight_zero_width (lh : JS.number) (w : JS.number) :
  JS.isFinite (JS.div (JS.mul lh w) (JS.ofN 0)) = false.
Proof.
  rewrite ofN_fin. destruct (JS.mul lh w) as [q | | |]; try reflexivity.
  unfold JS.div. change (Qeq_bool (inject_Z (Z.of_N 0)) 0) with true.
  cbv iota. destruct (q ?= 0)%Q; reflexivity.
Qed.

End LogoSize.

(* ================================================================= *)
(** ** The updaters, unfolded *)

(** Reduce the projections of a state or of settings that was just built. *)
Ltac projections :=
  cbn [setLogoSettings setIsProcessing setJewelryImage setLogoImage
       setCanvas setPreviewCanvas
       jewelryImage logoImage logoSettings isProcessing canvasRef previewCanvasRef
       LogoSettings.x LogoSettings.y LogoSettings.width LogoSettings.height
       LogoSettings.opacity LogoSettings.sizePercentage LogoSettings.margin
       LogoSettings.position fst snd] in *.

Section UpdaterFacts.

Lemma updateLogoPosition_present (preset : string) (s : App) (base logoImg : ImageData.t) :
  jewelryImage s = Some base ->
  logoImage s = Some logoImg ->
  let r := logoSettings s in
  let w := logoWidthOf base (LogoSettings.sizePercentage r) in
  let h := logoHeightOf logoImg w in
  let xy := resolveOn base preset w h (LogoSettings.margin r) in
  updateLogoPosition preset s
  = setLogoSettings (fun _ =>
      {| LogoSettings.x := fst xy;
         LogoSettings.y := snd xy;
         LogoSettings.width := w;
         LogoSettings.height := h;
         LogoSettings.opacity := LogoSettings.opacity r;
         LogoSettings.sizePercentage := LogoSettings.sizePercentage r;
         LogoSettings.margin := LogoSettings.margin r;
         LogoSettings.position := preset |}) s.
Proof.
  intros Hj Hl r w h xy. unfold updateLogoPosition. rewrite Hj, Hl.
  subst xy. unfold resolveOn. fold r. fold w. fold h.
  destruct (calculatePositionFromPreset _ _ _ _ _ _) as [x y].
  reflexivity.
Qed.

Lemma updateLogoSize_present (percentage : JS.number) (s : App) (base logoImg : ImageData.t) :
  jewelryImage s = Some base ->
  logoImage s = Some logoImg ->
  let r := logoSettings s in
  let w := logoWidthOf base percentage in
  let h := logoHeightOf logoImg w in
  let xy := resolveOn base (LogoSettings.position r) w h (LogoSettings.margin r) in
  updateLogoSize percentage s
  = setLogoSettings (fun _ =>
      {| LogoSettings.x := fst xy;
         LogoSettings.y := snd xy;
         LogoSettings.width := w;
         LogoSettings.height := h;
         LogoSettings.opacity := LogoSettings.opacity r;
         LogoSettings.sizePercentage := percentage;
         LogoSettings.margin := LogoSettings.margin r;
         LogoSettings.position := LogoSettings.position r |}) s.
Proof.
  intros Hj Hl r w h xy. unfold updateLogoSize. rewrite Hj, Hl.
  subst xy. unfold resolveOn, setLogoSettings. cbv beta. fold r. fold w. fold h.
  destruct (calculatePositionFromPreset _ _ _ _ _ _) as [x y].
  reflexivity.
Qed.

Lemma updateMargin_present (margin : JS.number) (s : App) (base logoImg : ImageData.t) :
  jewelryImage s = Some base ->
  logoImage s = Some logoImg ->
  let r := logoSettings s in
  let xy :=
    resolveOn base (LogoSettings.position r)
      (LogoSettings.width r) (LogoSettings.height r) margin in
  updateMargin margin s
  = setLogoSettings (fun _ =>
      {| LogoSettings.x := fst xy;
         LogoSettings.y := snd xy;
         LogoSettings.width := LogoSettings.width r;
         LogoSettings.height := LogoSettings.height r;
         LogoSettings.opacity := LogoSettings.opacity r;
         LogoSettings.sizePercentage := LogoSettings.sizePercentage r;
         LogoSettings.margin := margin;
         LogoSettings.position := LogoSettings.position r |}) s.
Proof.
  intros Hj Hl r xy. unfold updateMargin. rewrite Hj, Hl.
  subst xy. unfold resolveOn, setLogoSettings. cbv beta. fold r.
  destruct (calculatePositionFromPreset _ _ _ _ _ _) as [x y].
  reflexivity.
Qed.

(** Without both images the three updaters return at once. *)
Lemma updaters_absent (s : App) :
  bothImages s = false ->
  (forall preset, updateLogoPosition preset s = s)
  /\ (forall percentage, updateLogoSize percentage s = s)
  /\ (forall margin, updateMargin margin s = s).
Proof.
  unfold bothImages, updateLogoPosition, updateLogoSize, updateMargin.
  destruct (jewelryImage s), (logoImage s); intros H; try discriminate H;
    repeat split; reflexivity.
Qed.

(** What a settled state stores, when both images are present. *)
Lemma settled_fields (s : App) (base logoImg : ImageData.t) :
  jewelryImage s = Some base ->
  logoImage s = Some logoImg ->
  settled s ->
  let r := logoSettings s in
  let w := logoWidthOf base (LogoSettings.sizePercentage r) in
  let h := logoHeightOf logoImg w in
  let xy := resolveOn base (LogoSettings.position r) w h (LogoSettings.margin r) in
  LogoSettings.width r = w
  /\ LogoSettings.height r = h
  /\ LogoSettings.x r = fst xy
  /\ LogoSettings.y r = snd xy.
Proof.
  intros Hj Hl Hs r w h xy. unfold settled in Hs.
  rewrite (updateLogoPosition_present _ s base logoImg Hj Hl) in Hs.
  projections. fold r in Hs. rewrite <- Hs. projections.
  repeat split; reflexivity.
Qed.

Lemma settled_absent (s : App) : bothImages s = false -> settled s.
Proof.
  intros H. unfold settled.
  rewrite (proj1 (updaters_absent s H)). reflexivity.
Qed.

Lemma settled_updateLogoPosition (preset : string) (s : App) :
  settled (updateLogoPosition preset s).
Proof.
  destruct (bothImages s) eqn:Hb.
  - unfold bothImages in Hb.
    destruct (jewelryImage s) as [j |] eqn:Hj; [| discriminate Hb].
    destruct (logoImage s) as [l |] eqn:Hl; [| discriminate Hb].
    rewrite (updateLogoPosition_present preset s j l Hj Hl).
    unfold settled.
    erewrite updateLogoPosition_present by (projections; eassumption).
    projections. reflexivity.
  - rewrite (proj1 (updaters_absent s Hb)). apply settled_absent, Hb.
Qed.

Lemma settled_updateLogoSize (percentage : JS.number) (s : App) :
  settled (updateLogoSize percentage s).
Proof.
  destruct (bothImages s) eqn:Hb.
  - unfold bothImages in Hb.
    destruct (jewelryImage s) as [j |] eqn:Hj; [| discriminate Hb].
    destruct (logoImage s) as [l |] eqn:Hl; [| discriminate Hb].
    rewrite (updateLogoSize_present percentage s j l Hj Hl).
    unfold settled.
    erewrite updateLogoPosition_present by (projections; eassumption).
    projections. reflexivity.
  - rewrite (proj1 (proj2 (updaters_absent s Hb))). apply settled_absent, Hb.
Qed.

Lemma settled_updateMargin (margin : JS.number) (s : App) :
  settled s -> settled (updateMargin margin s).
Proof.
  intros Hs. destruct (bothImages s) eqn:Hb.
  - unfold bothImages in Hb.
    destruct (jewelryImage s) as [j |] eqn:Hj; [| discriminate Hb].
    destruct (logoImage s) as [l |] eqn:Hl; [| discriminate Hb].
    destruct (settled_fields s j l Hj Hl Hs) as (Hw & Hh & _).
    rewrite (updateMargin_present margin s j l Hj Hl).
    unfold settled.
    erewrite updateLogoPosition_present by (projections; eassumption).
    projections. rewrite <- Hh, <- Hw. reflexivity.
  - rewrite (proj2 (proj2 (updaters_absent s Hb))). exact Hs.
Qed.

(** Whether a state is settled depends on the images and the settings
    only. *)
Lemma settled_same (s s' : App) :
  jewelryImage s' = jewelryImage s ->
  logoImage s' = logoImage s ->
  logoSettings s' = logoSettings s ->
  settled s -> settled s'.
Proof.
  intros Hj Hl Hr Hs. destruct (bothImages s) eqn:Hb.
  - unfold bothImages in Hb.
    destruct (jewelryImage s) as [j |] eqn:Ej; [| discriminate Hb].
    destruct (logoImage s) as [l |] eqn:El; [| discriminate Hb].
    unfold settled in *.
    rewrite (updateLogoPosition_present _ s j l Ej El) in Hs.
    rewrite (updateLogoPosition_present _ s' j l Hj Hl).
    projections. rewrite Hr. exact Hs.
  - apply settled_absent. unfold bothImages in *. rewrite Hj, Hl. exact Hb.
Qed.

Lemma settled_changeOpacity (value : JS.number) (s : App) :
  settled s -> settled (changeOpacity value s).
Proof.
  intros Hs. destruct (bothImages s) eqn:Hb.
  - unfold bothImages in Hb.
    destruct (jewelryImage s) as [j |] eqn:Hj; [| discriminate Hb].
    destruct (logoImage s) as [l |] eqn:Hl; [| discriminate Hb].
    destruct (settled_fields s j l Hj Hl Hs) as (Hw & Hh & Hx & Hy).
    unfold settled, changeOpacity.
    erewrite updateLogoPosition_present by (projections; eassumption).
    projections. rewrite <- Hx, <- Hy, <- Hh, <- Hw. reflexivity.
  - apply settled_absent. exact Hb.
Qed.

(** The fields each updater leaves as they are. *)
Lemma updateLogoPosition_frame (preset : string) (s : App) :
  let r := logoSettings s in
  let r' := logoSettings (updateLogoPosition preset s) in
  LogoSettings.opacity r' = LogoSettings.opacity r
  /\ LogoSettings.sizePercentage r' = LogoSettings.sizePercentage r
  /\ LogoSettings.margin r' = LogoSettings.margin r
  /\ LogoSettings.position r' = (if bothImages s then preset else LogoSettings.position r).
Proof.
  destruct (bothImages s) eqn:Hb.
  - unfold bothImages in Hb.
    destruct (jewelryImage s) as [j |] eqn:Hj; [| discriminate Hb].
    destruct (logoImage s) as [l |] eqn:Hl; [| discriminate Hb].
    rewrite (updateLogoPosition_present preset s j l Hj Hl).
    projections. repeat split; reflexivity.
  - rewrite (proj1 (updaters_absent s Hb)). repeat split; reflexivity.
Qed.

Lemma updateLogoSize_frame (percentage : JS.number) (s : App) :
  let r := logoSettings s in
  let r' := logoSettings (updateLogoSize percentage s) in
  LogoSettings.opacity r' = LogoSettings.opacity r
  /\ LogoSettings.sizePercentage r'
     = (if bothImages s then percentage else LogoSettings.sizePercentage r)
  /\ LogoSettings.margin r' = LogoSettings.margin r
  /\ LogoSettings.position r' = LogoSettings.position r.
Proof.
  destruct (bothImages s) eqn:Hb.
  - unfold bothImages in Hb.
    destruct (jewelryImage s) as [j |] eqn:Hj; [| discriminate Hb].
    destruct (logoImage s) as [l |] eqn:Hl; [| discriminate Hb].
    rewrite (updateLogoSize_present percentage s j l Hj Hl).
    projections. repeat split; reflexivity.
  - rewrite (proj1 (proj2 (updaters_absent s Hb))). repeat split; reflexivity.
Qed.

Lemma updateMargin_frame (margin : JS.number) (s : App) :
  let r := logoSettings s in
  let r' := logoSettings (updateMargin margin s) in
  LogoSettings.opacity r' = LogoSettings.opacity r
  /\ LogoSettings.sizePercentage r' = LogoSettings.sizePercentage r
  /\ LogoSettings.margin r' = (if bothImages s then margin else LogoSettings.margin r)
  /\ LogoSettings.position r' = LogoSettings.position r
  /\ LogoSettings.width r' = LogoSettings.width r
  /\ LogoSettings.height r' = LogoSettings.height r.
Proof.
  destruct (bothImages s) eqn:Hb.
  - unfold bothImages in Hb.
    destruct (jewelryImage s) as [j |] eqn:Hj; [| discriminate Hb].
    destruct (logoImage s) as [l |] eqn:Hl; [| discriminate Hb].
    rewrite (updateMargin_present margin s j l Hj Hl).
    projections. repeat split; reflexivity.
  - rewrite (proj2 (proj2 (updaters_absent s Hb))). repeat split; reflexivity.
Qed.

(** The images are touched by an upload only. *)
Lemma updaters_images (s : App) :
  (forall preset, jewelryImage (updateLogoPosition preset s) = jewelryImage s
                  /\ logoImage (updateLogoPosition preset s) = logoImage s)
  /\ (forall percentage, jewelryImage (updateLogoSize percentage s) = jewelryImage s
                  /\ logoImage (updateLogoSize percentage s) = logoImage s)
  /\ (forall margin, jewelryImage (updateMargin margin s) = jewelryImage s
                  /\ logoImage (updateMargin margin s) = logoImage s).
Proof.
  destruct (bothImages s) eqn:Hb.
  - unfold bothImages in Hb.
    destruct (jewelryImage s) as [j |] eqn:Hj; [| discriminate Hb].
    destruct (logoImage s) as [l |] eqn:Hl; [| discriminate Hb].
    repeat split;
      first [ rewrite (updateLogoPosition_present _ s j l Hj Hl)
            | rewrite (updateLogoSize_present _ s j l Hj Hl)
            | rewrite (updateMargin_present _ s j l Hj Hl) ];
      projections; assumption.
  - destruct (updaters_absent s Hb) as (Hp & Hz & Hm).
    repeat split; rewrite ?Hp, ?Hz, ?Hm; reflexivity.
Qed.

(** Rendering resizes the canvases and nothing else. *)
Lemma updateCanvas_same (s : App) :
  jewelryImage (fst (updateCanvas s)) = jewelryImage s
  /\ logoImage (fst (updateCanvas s)) = logoImage s
  /\ logoSettings (fst (updateCanvas s)) = logoSettings s
  /\ isProcessing (fst (updateCanvas s)) = isProcessing s.
Proof.
  unfold updateCanvas.
  destruct (jewelryImage s) as [j |] eqn:Hj, (logoImage s) as [l |] eqn:Hl,
           (canvasRef s) as [c |] eqn:Hc;
    try (cbn [fst]; rewrite ?Hj, ?Hl; repeat split; reflexivity).
  destruct (updatePreviewCanvas _) as [[preview op] |]; projections;
    rewrite ?Hj, ?Hl; repeat split; reflexivity.
Qed.

Lemma mountPreview_same (s : App) :
  jewelryImage (mountPreview s) = jewelryImage s
  /\ logoImage (mountPreview s) = logoImage s
  /\ logoSettings (mountPreview s) = logoSettings s
  /\ isProcessing (mountPreview s) = isProcessing s.
Proof.
  unfold mountPreview.
  destruct (bothImages s); [destruct (previewCanvasRef s) |];
    repeat split; reflexivity.
Qed.

Lemma render_same (s : App) :
  jewelryImage (render s) = jewelryImage s
  /\ logoImage (render s) = logoImage s
  /\ logoSettings (render s) = logoSettings s
  /\ isProcessing (render s) = isProcessing s.
Proof.
  unfold render.
  destruct (mountPreview_same s) as (Mj & Ml & Mr & Mp).
  destruct (updateCanvas_same (mountPreview s)) as (Cj & Cl & Cr & Cp).
  repeat split; congruence.
Qed.

End UpdaterFacts.

(* ================================================================= *)
(** ** The invariant of the event loop *)

Section InvariantFacts.

Lemma isPresetToken_key (p : PositionPreset) : isPresetToken (key p).
Proof. unfold isPresetToken. destruct p; cbn; tauto. Qed.

Lemma invariant_init : Invariant initialApp.
Proof.
  split.
  - split; [exists 15%Z | split; [exists 20%Z | exists 100%Z]];
      (split; [reflexivity | lia]).
  - exact (isPresetToken_key TR).
  - apply settled_absent. reflexivity.
Qed.

Lemma invariant_same (s s' : App) :
  jewelryImage s' = jewelryImage s ->
  logoImage s' = logoImage s ->
  logoSettings s' = logoSettings s ->
  Invariant s -> Invariant s'.
Proof.
  intros Hj Hl Hr [Hp Ht Hs]. split.
  - rewrite Hr. exact Hp.
  - rewrite Hr. exact Ht.
  - exact (settled_same s s' Hj Hl Hr Hs).
Qed.

Lemma invariant_positionEffect (s : App) :
  paramsInRange (logoSettings s) ->
  isPresetToken (LogoSettings.position (logoSettings s)) ->
  Invariant (positionEffect s).
Proof.
  intros Hp Ht. unfold positionEffect. destruct (bothImages s) eqn:Hb.
  - destruct (updateLogoPosition_frame (LogoSettings.position (logoSettings s)) s)
      as (Ho & Hz & Hm & Hpos).
    rewrite Hb in Hpos. split.
    + unfold paramsInRange. rewrite Ho, Hz, Hm. exact Hp.
    + rewrite Hpos. exact Ht.
    + apply settled_updateLogoPosition.
  - split; [exact Hp | exact Ht | apply settled_absent, Hb].
Qed.

Lemma invariant_commit (e : Event) (s s' : App) :
  paramsInRange (logoSettings s') ->
  isPresetToken (LogoSettings.position (logoSettings s')) ->
  (positionEffectDue e s s' = false -> settled s') ->
  Invariant (commit e s s').
Proof.
  intros Hp Ht Hs. unfold commit, firstCommit.
  destruct (render_same s') as (Fj & Fl & Fr & _).
  destruct (positionEffectDue e s s').
  - destruct (render_same (positionEffect (render s'))) as (Rj & Rl & Rr & _).
    apply (invariant_same (positionEffect (render s'))); [exact Rj | exact Rl | exact Rr |].
    apply invariant_positionEffect; rewrite Fr; assumption.
  - apply (invariant_same s'); [exact Fj | exact Fl | exact Fr |].
    split; [exact Hp | exact Ht | apply Hs; reflexivity].
Qed.

Lemma inRange_spec (lo hi v : Z) : inRange lo hi v = true -> (lo <= v <= hi)%Z.
Proof. unfold inRange. intros H. apply andb_prop in H. lia. Qed.

(** What a handler leaves of the invariant: everything, except that an
    upload may leave a rectangle that fits the previous image. *)
Lemma handle_invariant (e : Event) (s : App) :
  Invariant s ->
  enabled e s = true ->
  let s' := fst (handle e s) in
  paramsInRange (logoSettings s')
  /\ isPresetToken (LogoSettings.position (logoSettings s'))
  /\ (imageReplaced e = false -> settled s').
Proof.
  intros [Hp Ht Hs] He.
  destruct e as [f slot decoded | preset | v | v | v | | | blob now];
    cbn [handle enabled imageReplaced] in *.
  - unfold handleFileUpload.
    destruct (String.prefix "image/" (type f)) eqn:Hpre; cbn [negb fst].
    + destruct decoded as [[[result w] h] |]; cbn [fst].
      * destruct slot; projections;
          (split; [exact Hp | split; [exact Ht | intros; discriminate]]).
      * split; [exact Hp | split; [exact Ht | intros _; exact Hs]].
    + split; [exact Hp | split; [exact Ht | intros _; exact Hs]].
  - cbn [fst].
    destruct (updateLogoPosition_frame (key preset) s) as (Ho & Hz & Hm & Hpos).
    rewrite He in Hpos. split; [| split].
    + unfold paramsInRange. rewrite Ho, Hz, Hm. exact Hp.
    + rewrite Hpos. apply isPresetToken_key.
    + intros _. apply settled_updateLogoPosition.
  - cbn [fst]. apply andb_prop in He. destruct He as [Hb Hv].
    apply inRange_spec in Hv.
    destruct (updateLogoSize_frame (JS.ofZ v) s) as (Ho & Hz & Hm & Hpos).
    rewrite Hb in Hz. destruct Hp as (_ & Hpm & Hpo).
    split; [split; [| split] | split].
    + exists v. split; [exact Hz | exact Hv].
    + rewrite Hm. exact Hpm.
    + rewrite Ho. exact Hpo.
    + rewrite Hpos. exact Ht.
    + intros _. apply settled_updateLogoSize.
  - cbn [fst]. apply andb_prop in He. destruct He as [Hb Hv].
    apply inRange_spec in Hv. destruct Hp as (Hpz & Hpm & _).
    unfold changeOpacity at 1 2. projections.
    split; [split; [| split] | split].
    + exact Hpz.
    + exact Hpm.
    + exists v. split; [reflexivity | exact Hv].
    + exact Ht.
    + intros _. apply settled_changeOpacity. exact Hs.
  - cbn [fst]. apply andb_prop in He. destruct He as [Hb Hv].
    apply inRange_spec in Hv.
    destruct (updateMargin_frame (JS.ofZ v) s) as (Ho & Hz & Hm & Hpos & _).
    rewrite Hb in Hm. destruct Hp as (Hpz & _ & Hpo).
    split; [split; [| split] | split].
    + rewrite Hz. exact Hpz.
    + exists v. split; [exact Hm | exact Hv].
    + rewrite Ho. exact Hpo.
    + rewrite Hpos. exact Ht.
    + intros _. apply settled_updateMargin. exact Hs.
  - cbn [fst]. unfold resetPosition.
    destruct (updateLogoPosition_frame "TR" s) as (Ho & Hz & Hm & Hpos).
    rewrite He in Hpos. split; [| split].
    + unfold paramsInRange. rewrite Ho, Hz, Hm. exact Hp.
    + rewrite Hpos. exact (isPresetToken_key TR).
    + intros _. apply settled_updateLogoPosition.
  - cbn [fst]. unfold downloadImage.
    destruct (canvasRef s);
      (split; [exact Hp | split; [exact Ht |]]);
      intros _; (apply (settled_same s); [reflexivity .. | exact Hs]).
  - unfold toBlobCallback.
    destruct blob; cbn [fst];
      (split; [exact Hp | split; [exact Ht |]]);
      intros _; (apply (settled_same s); [reflexivity .. | exact Hs]).
Qed.

(** A handler that is not an upload leaves the position effect alone
    unless it changed the size percentage or the margin; after one of
    those the state is settled, whether the effect runs or not. *)
Lemma invariant_step (e : Event) (s : App) :
  Invariant s -> Invariant (fst (step e s)).
Proof.
  intros Hinv. unfold step. destruct (enabled e s) eqn:He; [| exact Hinv].
  destruct (handle e s) as [s' out] eqn:Hh. cbn [fst].
  destruct (handle_invariant e s Hinv He) as (Hp & Ht & Hs).
  rewrite Hh in Hp, Ht, Hs. cbn [fst] in Hp, Ht, Hs.
  apply invariant_commit; try assumption.
  intros Hdue. apply Hs. unfold positionEffectDue in Hdue.
  destruct (imageReplaced e); [discriminate Hdue | reflexivity].
Qed.

Lemma invariant_reachable (s : App) : reachable s -> Invariant s.
Proof.
  induction 1 as [| e s Hr IH He].
  - exact invariant_init.
  - apply invariant_step. exact IH.
Qed.

Lemma handleFileUpload_settings (f : File) (slot : ImageType)
    (decoded : option (string * N * N)) (s : App) :
  logoSettings (fst (handleFileUpload f slot decoded s)) = logoSettings s
  /\ isProcessing (fst (handleFileUpload f slot decoded s)) = isProcessing s.
Proof.
  unfold handleFileUpload.
  destruct (negb (String.prefix "image/" (type f))); [split; reflexivity |].
  destruct decoded as [[[result w] h] |]; [destruct slot |]; split; reflexivity.
Qed.

(** The states the page commits are those it rests in, which satisfy the
    invariant, and the first commit after a decoded upload, which holds
    the new image and the settings of before. *)
Lemma displayed_cases (s : App) :
  displayed s ->
  Invariant s
  \/ exists (f : File) (slot : ImageType) (decoded : option (string * N * N))
            (before : App),
       reachable before
       /\ imageReplaced (FileChosen f slot decoded) = true
       /\ s = firstCommit (fst (handle (FileChosen f slot decoded) before))
       /\ logoSettings s = logoSettings before.
Proof.
  intros [s0 Hr | e s0 Hr He].
  - left. exact (invariant_reachable s0 Hr).
  - unfold firstCommit.
    destruct (render_same (fst (handle e s0))) as (Fj & Fl & Fr & _).
    destruct (imageReplaced e) eqn:Hi.
    + right. destruct e as [f slot decoded | | | | | | |]; try discriminate Hi.
      exists f, slot, decoded, s0.
      split; [exact Hr |]. split; [exact Hi |]. split; [reflexivity |].
      rewrite Fr. cbn [handle]. apply handleFileUpload_settings.
    + left. destruct (handle_invariant e s0 (invariant_reachable s0 Hr) He)
        as (Hp & Ht & Hs).
      apply (invariant_same (fst (handle e s0))); [exact Fj | exact Fl | exact Fr |].
      split; [exact Hp | exact Ht | exact (Hs Hi)].
Qed.

End InvariantFacts.

(* ================================================================= *)
(** ** Claims on the geometry resolver *)

Section ResolverClaims.
Local Open Scope js_scope.

(** C1.  For a base image and a logo of positive natural width, and every
    finite size percentage, margin and preset, [updateLogoPosition] stores
    the width [baseW * sizePercentage / 100] and the height
    [logoNaturalH * logoWidth / logoNaturalW]; the coordinates the
    [switch] computes before the clamp are the horizontal formula of the
    preset's column ([margin], [(baseW - logoW) / 2],
    [baseW - logoW - margin]) and the vertical formula of its row, and the
    stored [x] and [y] are those anchors clamped. *)
Theorem resolver_size_and_anchor_formulas
    (s : App) (base logoImg : ImageData.t) (pct : Q) (p : PositionPreset) :
  jewelryImage s = Some base ->
  logoImage s = Some logoImg ->
  (0 < ImageData.width logoImg)%N ->
  LogoSettings.sizePercentage (logoSettings s) = JS.Fin pct ->
  let baseW := inject_Z (Z.of_N (ImageData.width base)) in
  let baseH := inject_Z (Z.of_N (ImageData.height base)) in
  let logoNaturalW := inject_Z (Z.of_N (ImageData.width logoImg)) in
  let logoNaturalH := inject_Z (Z.of_N (ImageData.height logoImg)) in
  let margin := LogoSettings.margin (logoSettings s) in
  let r := logoSettings (updateLogoPosition (key p) s) in
  exists logoW logoH : Q,
    LogoSettings.width r = JS.Fin logoW
    /\ (logoW == baseW * pct / 100)%Q
    /\ LogoSettings.height r = JS.Fin logoH
    /\ (logoH == logoNaturalH * logoW / logoNaturalW)%Q
    /\ presetAnchor (key p) (JS.Fin baseW) (JS.Fin baseH)
         (JS.Fin logoW) (JS.Fin logoH) margin
       = (spec_anchorX (horizontalOf p) (JS.Fin baseW) (JS.Fin logoW) margin,
          spec_anchorY (verticalOf p) (JS.Fin baseH) (JS.Fin logoH) margin)
    /\ LogoSettings.x r
       = spec_clamp (spec_anchorX (horizontalOf p) (JS.Fin baseW) (JS.Fin logoW) margin)
           (JS.Fin baseW - JS.Fin logoW)
    /\ LogoSettings.y r
       = spec_clamp (spec_anchorY (verticalOf p) (JS.Fin baseH) (JS.Fin logoH) margin)
           (JS.Fin baseH - JS.Fin logoH).
Proof.
  intros Hj Hl Hlw Hpct baseW baseH logoNaturalW logoNaturalH margin r.
  destruct (logoWidth_fin (ImageData.width base) pct) as (w & Hw & Hweq).
  destruct (logoHeight_fin (ImageData.height logoImg) (ImageData.width logoImg) w Hlw)
    as (h & Hh & Hheq).
  exists w, h. subst r. unfold updateLogoPosition.
  rewrite Hj, Hl, Hpct, Hw, Hh, calculatePositionFromPreset_key.
  cbn [setLogoSettings logoSettings LogoSettings.width LogoSettings.height
       LogoSettings.x LogoSettings.y].
  rewrite presetAnchor_key, !ofN_fin.
  repeat split; try reflexivity; assumption.
Qed.

(** C1, at the 1000 by 800 base and the 200 by 100 logo. *)
Lemma resolver_size_and_anchor_formulas_witness :
  exists logoW logoH : Q,
    JS.Fin 150 = JS.Fin logoW /\ (logoW == 1000 * 15 / 100)%Q
    /\ JS.Fin 75 = JS.Fin logoH /\ (logoH == 100 * logoW / 200)%Q.
Proof.
  destruct (resolver_size_and_anchor_formulas
              (scenarioApp (scenarioImage 1000 800) (scenarioImage 200 100))
              (scenarioImage 1000 800) (scenarioImage 200 100) 15 BR
              eq_refl eq_refl eq_refl eq_refl)
    as (w & h & Hw & Hweq & Hh & Hheq & _).
  exists w, h. repeat split; assumption.
Defined.

End ResolverClaims.

Section ClampClaims.
Local Open Scope js_scope.

(** C2.  For each of the nine presets and all finite [baseW], [baseH],
    [logoW], [logoH] and [margin]: when [logoW <= baseW] and
    [logoH <= baseH] the resolved [x] lies in [[0, baseW - logoW]] and the
    resolved [y] in [[0, baseH - logoH]]; when [logoW > baseW] the clamp
    gives [x = 0], and when [logoH > baseH] it gives [y = 0]. *)
Theorem resolved_position_clamped
    (p : PositionPreset) (baseW baseH logoW logoH margin : Q) :
  let xy :=
    calculatePositionFromPreset (key p)
      (JS.Fin baseW) (JS.Fin baseH) (JS.Fin logoW) (JS.Fin logoH) (JS.Fin margin) in
  ((logoW <= baseW)%Q -> (logoH <= baseH)%Q ->
     0%Z <= fst xy /\ fst xy <= JS.Fin baseW - JS.Fin logoW
     /\ 0%Z <= snd xy /\ snd xy <= JS.Fin baseH - JS.Fin logoH)
  /\ ((baseW < logoW)%Q -> fst xy = 0%Z)
  /\ ((baseH < logoH)%Q -> snd xy = 0%Z).
Proof.
  intros xy.
  destruct (calculate_fin (key p) baseW baseH logoW logoH margin)
    as (x & y & Hxy & Hx0 & Hy0 & Hxu & Hyu & Hxz & Hyz).
  subst xy. rewrite Hxy. cbn [fst snd]. rewrite !sub_fin.
  unfold JS.le, JS.ofZ. split; [| split].
  - intros Hw Hh. rewrite !Qred_correct.
    repeat split; [exact Hx0 | exact (Hxu Hw) | exact Hy0 | exact (Hyu Hh)].
  - intros Hw. rewrite (Hxz Hw). reflexivity.
  - intros Hh. rewrite (Hyz Hh). reflexivity.
Qed.

(** C2 at a logo that fits (150 by 75 in 1000 by 800, bottom right) and at
    one that does not (1200 by 900 in the same base). *)
Lemma resolved_position_clamped_witness :
  (0%Z <= JS.Fin 830 /\ JS.Fin 830 <= JS.Fin 1000 - JS.Fin 150
   /\ 0%Z <= JS.Fin 705 /\ JS.Fin 705 <= JS.Fin 800 - JS.Fin 75)
  /\ fst (calculatePositionFromPreset (key BR)
            (JS.Fin 1000) (JS.Fin 800) (JS.Fin 1200) (JS.Fin 900) (JS.Fin 20))
     = 0%Z
  /\ snd (calculatePositionFromPreset (key BR)
            (JS.Fin 1000) (JS.Fin 800) (JS.Fin 1200) (JS.Fin 900) (JS.Fin 20))
     = 0%Z.
Proof.
  split; [| split].
  - apply (proj1 (resolved_position_clamped BR 1000 800 150 75 20)).
    + vm_compute. discriminate.
    + vm_compute. discriminate.
  - apply (proj1 (proj2 (resolved_position_clamped BR 1000 800 1200 900 20))).
    reflexivity.
  - apply (proj2 (proj2 (resolved_position_clamped BR 1000 800 1200 900 20))).
    reflexivity.
Defined.

End ClampClaims.

Section ContainmentClaims.
Local Open Scope js_scope.

Lemma run_cons (e : Event) (es : list Event) (s : App) :
  fst (run (e :: es) s) = fst (run es (fst (step e s))).
Proof.
  cbn [run]. destruct (step e s) as [s1 out1]. cbn [fst].
  destruct (run es s1) as [s2 out2]. reflexivity.
Qed.

Lemma reachable_run (es : list Event) (s : App) :
  reachable s -> allEnabled es s = true -> reachable (fst (run es s)).
Proof.
  revert s. induction es as [| e es IH]; intros s Hr He.
  - exact Hr.
  - cbn [allEnabled] in He. apply andb_prop in He. destruct He as [He Hes].
    rewrite run_cons. apply IH; [| exact Hes].
    apply reachable_step; assumption.
Qed.

Lemma percent_le (b q : Q) : (0 <= b -> q <= 100 -> b * q / 100 <= b)%Q.
Proof.
  intros Hb Hq.
  assert (Hprod : (q * b <= 100 * b)%Q) by (apply Qmult_le_compat_r; assumption).
  unfold Qdiv. change (/ 100)%Q with (1 # 100)%Q. nra.
Qed.

(** The rectangle of a settled state whose parameters are in range. *)
Lemma settled_rect (s : App) (base logoImg : ImageData.t) :
  Invariant s ->
  jewelryImage s = Some base ->
  logoImage s = Some logoImg ->
  (0 < ImageData.width logoImg)%N ->
  exists x y w h : Q,
    LogoSettings.x (logoSettings s) = JS.Fin x
    /\ LogoSettings.y (logoSettings s) = JS.Fin y
    /\ LogoSettings.width (logoSettings s) = JS.Fin w
    /\ LogoSettings.height (logoSettings s) = JS.Fin h
    /\ (0 <= x)%Q /\ (0 <= y)%Q
    /\ (x + w <= inject_Z (Z.of_N (ImageData.width base)))%Q
    /\ ((h <= inject_Z (Z.of_N (ImageData.height base)))%Q ->
        (y + h <= inject_Z (Z.of_N (ImageData.height base)))%Q).
Proof.
  intros [Hp Ht Hs] Hj Hl Hlw.
  destruct (settled_fields s base logoImg Hj Hl Hs) as (Hw & Hh & Hx & Hy).
  destruct Hp as ((v & Hv & Hvr) & (m & Hm & _) & _).
  rewrite Hv, Hm in *. clear Hv Hm.
  unfold logoWidthOf, logoHeightOf, resolveOn in *.
  destruct (logoWidth_fin (ImageData.width base) (inject_Z v)) as (w & Ew & Hweq).
  change (JS.ofZ v) with (JS.Fin (inject_Z v)) in *.
  rewrite Ew in Hw, Hh, Hx, Hy.
  destruct (logoHeight_fin (ImageData.height logoImg) (ImageData.width logoImg) w Hlw)
    as (h & Eh & Hheq).
  rewrite Eh in Hh, Hx, Hy. rewrite !ofN_fin in Hx, Hy.
  destruct (calculate_fin (LogoSettings.position (logoSettings s))
              (inject_Z (Z.of_N (ImageData.width base)))
              (inject_Z (Z.of_N (ImageData.height base))) w h (inject_Z m))
    as (x & y & Exy & Hx0 & Hy0 & Hxu & Hyu & _).
  change (JS.ofZ m) with (JS.Fin (inject_Z m)) in *.
  rewrite Exy in Hx, Hy. cbn [fst snd] in Hx, Hy.
  exists x, y, w, h. repeat split; try assumption.
  - assert (Hwb : (w <= inject_Z (Z.of_N (ImageData.width base)))%Q).
    { pose proof (ofN_nonneg (ImageData.width base)) as Hb.
      assert (Hv5 : (inject_Z v <= 50)%Q)
        by (change 50%Q with (inject_Z 50); rewrite <- Zle_Qle; lia).
      rewrite Hweq. apply percent_le; [exact Hb | lra]. }
    specialize (Hxu Hwb). lra.
  - intros Hhb. specialize (Hyu Hhb). lra.
Qed.


(** C3, as the code has it.  In every state the page rests in, with a
    base image and a logo of positive natural width, the rectangle has
    [x >= 0], [y >= 0] and [x + width <= baseWidth]; it has
    [y + height <= baseHeight] when the scaled logo is not taller than the
    base ([height <= baseHeight]).  A state the page commits is one of
    these, where the rectangle is the one the resolver derives from the
    stored parameters, or it is the first commit after a decoded upload,
    which still holds the rectangle stored before the upload: that
    rectangle is not derived from the new image and no bound is claimed
    of it. *)
Theorem logo_rect_within_base (s : App) (base logoImg : ImageData.t) :
  displayed s ->
  jewelryImage s = Some base ->
  logoImage s = Some logoImg ->
  (0 < ImageData.width logoImg)%N ->
  (reachable s ->
   rectWithinAcross (logoSettings s) (ImageData.width base) (ImageData.height base))
  /\ ((settled s
       /\ rectWithinAcross (logoSettings s)
            (ImageData.width base) (ImageData.height base))
      \/ exists (f : File) (slot : ImageType) (decoded : option (string * N * N))
                (before : App),
           reachable before
           /\ imageReplaced (FileChosen f slot decoded) = true
           /\ s = firstCommit (fst (handle (FileChosen f slot decoded) before))
           /\ logoSettings s = logoSettings before).
Proof.
  intros Hd Hj Hl Hlw.
  assert (Hrect : Invariant s ->
                  rectWithinAcross (logoSettings s)
                    (ImageData.width base) (ImageData.height base)).
  { intros Hinv.
    destruct (settled_rect s base logoImg Hinv Hj Hl Hlw)
      as (x & y & w & h & Ex & Ey & Ew & Eh & Hx0 & Hy0 & Hxw & Hyh).
    unfold rectWithinAcross. rewrite Ex, Ey, Ew, Eh, !add_fin, !ofN_fin.
    unfold JS.le, JS.ofZ. rewrite !Qred_correct.
    change (inject_Z 0) with 0%Q. repeat split; assumption. }
  split.
  - intros Hr. apply Hrect. exact (invariant_reachable s Hr).
  - destruct (displayed_cases s Hd) as [Hinv | Hfirst].
    + left. split; [exact (inv_settled s Hinv) | exact (Hrect Hinv)].
    + right. exact Hfirst.
Qed.

(** C3 after the two uploads of the documented scenario. *)
Lemma logo_rect_within_base_witness :
  rectWithinAcross
    (logoSettings
       (fst (run [scenarioUpload jewelry 1000 800; scenarioUpload logo 200 100]
                 initialApp)))
    1000 800.
Proof.
  assert (Hr : reachable
                 (fst (run [scenarioUpload jewelry 1000 800; scenarioUpload logo 200 100]
                           initialApp)))
    by (apply reachable_run; [exact reachable_init | reflexivity]).
  exact (proj1 (logo_rect_within_base _ (scenarioImage 1000 800) (scenarioImage 200 100)
                  (displayed_rest _ Hr) eq_refl eq_refl eq_refl) Hr).
Defined.

(** C3 as it is stated fails three times.  A logo taller than wide on a
    base wider than tall: 100 by 1000 on 1000 by 100 at the default 15
    percent is drawn 150 by 1500 at [y = 0], below the lower edge.  A logo
    of natural width zero: the height is [NaN], and so is [y].  And the
    first commit after the upload of a 200 by 100 logo onto a 50 by 50
    base: the compositor draws the logo in the rectangle of the first
    render, 100 by 100 at the origin, before the position effect has
    resolved one. *)
Lemma logo_rect_overflows_base :
  (let s := fst (run [scenarioUpload jewelry 1000 100; scenarioUpload logo 100 1000]
                     initialApp) in
   reachable s
   /\ jewelryImage s = Some (scenarioImage 1000 100)
   /\ logoImage s = Some (scenarioImage 100 1000)
   /\ logoDrawRect s = (JS.Fin 830, JS.Fin 0, JS.Fin 150, JS.Fin 1500)
   /\ ~ rectWithin (logoSettings s) 1000 100)
  /\
  (let s := fst (run [scenarioUpload jewelry 1000 800; scenarioUpload logo 0 0]
                     initialApp) in
   reachable s
   /\ jewelryImage s = Some (scenarioImage 1000 800)
   /\ logoImage s = Some (scenarioImage 0 0)
   /\ logoDrawRect s = (JS.Fin 830, JS.NaN, JS.Fin 150, JS.NaN)
   /\ ~ rectWithin (logoSettings s) 1000 800)
  /\
  (let before := fst (step (scenarioUpload jewelry 50 50) initialApp) in
   let s := firstCommit (fst (handle (scenarioUpload logo 200 100) before)) in
   displayed s
   /\ jewelryImage s = Some (scenarioImage 50 50)
   /\ logoImage s = Some (scenarioImage 200 100)
   /\ logoDrawRect s = (JS.Fin 0, JS.Fin 0, JS.Fin 100, JS.Fin 100)
   /\ In (DrawImageScaled (ImageData.url (scenarioImage 200 100))
            (JS.Fin 0) (JS.Fin 0) (JS.Fin 100) (JS.Fin 100))
         (snd (updateCanvas
                 (mountPreview (fst (handle (scenarioUpload logo 200 100) before)))))
   /\ ~ rectWithin (logoSettings s) 50 50
   /\ ~ rectWithinAcross (logoSettings s) 50 50).
Proof.
  split; [| split]; cbv zeta.
  - split; [apply reachable_run; [exact reachable_init | reflexivity] |].
    split; [reflexivity |]. split; [reflexivity |]. split; [reflexivity |].
    intros (_ & _ & _ & H). vm_compute in H. apply H. reflexivity.
  - split; [apply reachable_run; [exact reachable_init | reflexivity] |].
    split; [reflexivity |]. split; [reflexivity |]. split; [reflexivity |].
    intros (_ & H & _). vm_compute in H. exact H.
  - split.
    { apply displayed_first; [| reflexivity].
      apply reachable_step; [exact reachable_init | reflexivity]. }
    split; [reflexivity |]. split; [reflexivity |]. split; [reflexivity |].
    split; [vm_compute; tauto |].
    split.
    + intros (_ & _ & H & _). vm_compute in H. apply H. reflexivity.
    + intros (_ & _ & H & _). vm_compute in H. apply H. reflexivity.
Qed.

End ContainmentClaims.

Section UploadClaims.
Local Open Scope js_scope.

(** C4, as the code has it.  A file of an image type that decodes to a logo
    of natural width zero is stored like any other logo, and nothing is
    reported; when a base image is present the position effect then
    evaluates [logoNaturalH * logoWidth / 0], and the height it stores is no
    finite number ([Infinity], [-Infinity] or [NaN]). *)
Theorem zero_width_logo_is_stored (s : App) (f : File) (result : string) (h : N) :
  String.prefix "image/" (type f) = true ->
  let img := {| ImageData.file := f; ImageData.url := result;
                ImageData.width := 0; ImageData.height := h |} in
  let s' := fst (step (FileChosen f logo (Some (result, 0%N, h))) s) in
  snd (step (FileChosen f logo (Some (result, 0%N, h))) s) = []
  /\ logoImage s' = Some img
  /\ (jewelryImage s <> None ->
      JS.isFinite (LogoSettings.height (logoSettings s')) = false).
Proof.
  intros Hf img s'. subst s'. unfold step.
  cbn [enabled handle]. unfold handleFileUpload. rewrite Hf. cbn [negb].
  fold img. cbn [fst snd]. split; [reflexivity |].
  unfold commit, firstCommit, positionEffectDue. cbn [imageReplaced]. rewrite Hf.
  cbn [orb].
  destruct (render_same (setLogoImage img s)) as (Fj & Fl & Fr & _).
  cbn [setLogoImage jewelryImage logoImage] in Fj, Fl.
  set (first := render (setLogoImage img s)) in *.
  destruct (render_same (positionEffect first)) as (_ & Rl & Rr & _).
  rewrite Rl, Rr. unfold positionEffect, bothImages. rewrite Fj, Fl.
  destruct (jewelryImage s) as [j |] eqn:Hj.
  - rewrite (updateLogoPosition_present _ first j img Fj Fl).
    projections. split; [exact Fl |]. intros _.
    unfold logoHeightOf. cbn [ImageData.width img]. apply logoHeight_zero_width.
  - split; [exact Fl |]. intros H. contradiction H. reflexivity.
Qed.

(** C4 at a 0 by 100 logo uploaded over the logo of the documented
    scenario. *)
Lemma zero_width_logo_is_stored_witness :
  let s := fst (run [scenarioUpload jewelry 1000 800; scenarioUpload logo 200 100]
                    initialApp) in
  let s' := fst (step (scenarioUpload logo 0 100) s) in
  snd (step (scenarioUpload logo 0 100) s) = []
  /\ logoImage s' = Some (scenarioImage 0 100)
  /\ JS.isFinite (LogoSettings.height (logoSettings s')) = false.
Proof.
  cbv zeta.
  destruct (zero_width_logo_is_stored
              (fst (run [scenarioUpload jewelry 1000 800; scenarioUpload logo 200 100]
                        initialApp))
              scenarioFile "data:image/png;base64," 100 eq_refl)
    as (Hout & Hlogo & Hheight).
  split; [exact Hout | split; [exact Hlogo |]].
  apply Hheight. vm_compute. discriminate.
Defined.

(** C4 as it is stated fails: over the documented scenario, the upload of a
    0 by 100 logo reports nothing, replaces the previous logo, and leaves
    the height [Infinity] that the division by the width gives. *)
Lemma zero_width_logo_not_rejected :
  let s := fst (run [scenarioUpload jewelry 1000 800; scenarioUpload logo 200 100]
                    initialApp) in
  let s' := fst (step (scenarioUpload logo 0 100) s) in
  snd (step (scenarioUpload logo 0 100) s) = []
  /\ logoImage s = Some (scenarioImage 200 100)
  /\ logoImage s' = Some (scenarioImage 0 100)
  /\ s' <> s
  /\ LogoSettings.height (logoSettings s') = JS.PInf.
Proof.
  cbv zeta. split; [reflexivity |]. split; [reflexivity |].
  split; [reflexivity |]. split; [| reflexivity].
  intros H. apply (f_equal logoImage) in H. vm_compute in H. discriminate H.
Qed.

End UploadClaims.

Section PreviewClaims.
Local Open Scope js_scope.

Lemma integerPart_floor (q : Q) : (0 <= q)%Q -> JS.integerPart q = Qfloor q.
Proof.
  intros Hq. unfold JS.integerPart, Qfloor. destruct q as [n d]. cbn [Qnum Qden].
  apply Z.quot_div_nonneg; [| lia].
  unfold Qle in Hq. cbn in Hq. lia.
Qed.

(** The size a canvas takes when it is given a number from 0 to below 401. *)
Lemma toUnsignedLong_small (q : Q) :
  (0 <= q)%Q -> (q < 401)%Q ->
  JS.toUnsignedLong (JS.Fin q) = Z.to_N (Qfloor q)
  /\ (0 <= Qfloor q <= 400)%Z.
Proof.
  intros H0 H401.
  assert (Hlo : (0 <= Qfloor q)%Z).
  { rewrite <- (Qfloor_Z 0). apply Qfloor_resp_le. exact H0. }
  assert (Hhi : (Qfloor q < 401)%Z).
  { rewrite Zlt_Qlt. apply (Qle_lt_trans _ q); [apply Qfloor_le | exact H401]. }
  split; [| lia].
  unfold JS.toUnsignedLong. rewrite (integerPart_floor q H0).
  rewrite Z.mod_small by lia. reflexivity.
Qed.

Lemma fit_eq (d sc : Q) : (0 < d)%Q -> (sc == 400 / d)%Q -> (d * sc == 400)%Q.
Proof.
  intros Hd Hsc. rewrite Hsc. apply Qmult_div_r.
  intros E. rewrite E in Hd. apply (Qlt_irrefl 0 Hd).
Qed.

(** *** Binary64 rounding *)

Lemma nearestEven_error (t : Q) :
  (t - (1 # 2) <= inject_Z (JS.nearestEven t))%Q
  /\ (inject_Z (JS.nearestEven t) <= t + (1 # 2))%Q.
Proof.
  unfold JS.nearestEven.
  pose proof (Qfloor_le t) as Hlo. pose proof (Qlt_floor t) as Hhi.
  rewrite inject_Z_plus in Hhi. change (inject_Z 1) with 1%Q in Hhi.
  destruct (Qcompare (t - inject_Z (Qfloor t)) (1 # 2)) eqn:E.
  - apply Qeq_alt in E.
    destruct (Z.even (Qfloor t)); [| rewrite inject_Z_plus; change (inject_Z 1) with 1%Q];
      split; lra.
  - apply Qlt_alt in E. split; lra.
  - apply Qgt_alt in E. rewrite inject_Z_plus. change (inject_Z 1) with 1%Q. split; lra.
Qed.

Lemma pow2_pos (e : Z) : (0 < 2 ^ e)%Q.
Proof. apply Qpower_0_lt. reflexivity. Qed.

Lemma pow2_add (a b : Z) : (2 ^ (a + b) == 2 ^ a * 2 ^ b)%Q.
Proof. apply Qpower_plus. discriminate. Qed.

Lemma pow2_cancel (e : Z) : (2 ^ (- e) * 2 ^ e == 1)%Q.
Proof. rewrite <- pow2_add. replace (- e + e)%Z with 0%Z by lia. reflexivity. Qed.

(** The exponent puts the scaled value in [[2^52, 2^53)]: the integer it
    is rounded to has 53 bits. *)
Lemma exponent64_spec (q : Q) :
  (0 < q)%Q ->
  (2 ^ 52 <= q * 2 ^ (- JS.exponent64 q))%Q
  /\ (q * 2 ^ (- JS.exponent64 q) < 2 ^ 53)%Q.
Proof.
  intros Hq. unfold JS.exponent64.
  set (n := Qnum q). set (d := Z.pos (Qden q)).
  set (k := (Z.log2 n - Z.log2 d)%Z).
  assert (Hn : (0 < n)%Z).
  { subst n. destruct q as [qn qd]. unfold Qlt in Hq. cbn in *. lia. }
  assert (Hd : (0 < d)%Z) by (subst d; lia).
  destruct (Z.log2_spec n Hn) as [Hn1 Hn2].
  destruct (Z.log2_spec d Hd) as [Hd1 Hd2].
  assert (Qn1 : (2 ^ Z.log2 n <= inject_Z n)%Q).
  { rewrite <- (Zpower_Qpower 2 (Z.log2 n)) by apply Z.log2_nonneg.
    rewrite <- Zle_Qle. exact Hn1. }
  assert (Qn2 : (inject_Z n < 2 ^ (Z.log2 n + 1))%Q).
  { rewrite <- (Zpower_Qpower 2 (Z.log2 n + 1)) by (pose proof (Z.log2_nonneg n); lia).
    rewrite <- Zlt_Qlt. replace (Z.log2 n + 1)%Z with (Z.succ (Z.log2 n)) by lia.
    exact Hn2. }
  assert (Qd1 : (2 ^ Z.log2 d <= inject_Z d)%Q).
  { rewrite <- (Zpower_Qpower 2 (Z.log2 d)) by apply Z.log2_nonneg.
    rewrite <- Zle_Qle. exact Hd1. }
  assert (Qd2 : (inject_Z d <= 2 ^ (Z.log2 d + 1))%Q).
  { rewrite <- (Zpower_Qpower 2 (Z.log2 d + 1)) by (pose proof (Z.log2_nonneg d); lia).
    rewrite <- Zle_Qle. replace (Z.log2 d + 1)%Z with (Z.succ (Z.log2 d)) by lia. lia. }
  assert (Hqd : (q * inject_Z d == inject_Z n)%Q).
  { subst n d. destruct q as [qn qd]. cbn [Qnum Qden].
    unfold Qeq, Qmult, inject_Z. cbn. lia. }
  assert (Hlo : (2 ^ (k - 1) <= q)%Q).
  { apply (Qmult_le_r _ _ (2 ^ (Z.log2 d + 1))); [apply pow2_pos |].
    rewrite <- pow2_add.
    replace (k - 1 + (Z.log2 d + 1))%Z with (Z.log2 n) by (subst k; lia).
    apply (Qle_trans _ (inject_Z n)); [exact Qn1 |].
    rewrite <- Hqd. apply Qmult_le_l; [exact Hq | exact Qd2]. }
  assert (Hhi : (q < 2 ^ (k + 1))%Q).
  { apply (Qmult_lt_r _ _ (2 ^ Z.log2 d)); [apply pow2_pos |].
    rewrite <- (pow2_add (k + 1) (Z.log2 d)).
    replace (k + 1 + Z.log2 d)%Z with (Z.log2 n + 1)%Z by (subst k; lia).
    apply (Qle_lt_trans _ (inject_Z n)); [| exact Qn2].
    rewrite <- Hqd. apply Qmult_le_l; [exact Hq | exact Qd1]. }
  destruct (Qle_bool (2 ^ k) q) eqn:E.
  - apply Qle_bool_iff in E. split.
    + replace 52%Z with (k + - (k - 52))%Z at 1 by lia. rewrite pow2_add.
      apply Qmult_le_compat_r; [exact E | apply Qlt_le_weak, pow2_pos].
    + replace 53%Z with ((k + 1) + - (k - 52))%Z at 1 by lia. rewrite pow2_add.
      apply Qmult_lt_r; [apply pow2_pos | exact Hhi].
  - apply Qle_bool_false in E. split.
    + replace 52%Z with ((k - 1) + - (k - 53))%Z at 1 by lia. rewrite pow2_add.
      apply Qmult_le_compat_r; [exact Hlo | apply Qlt_le_weak, pow2_pos].
    + assert (P : (2 ^ 53 == 2 ^ k * 2 ^ (- (k - 53)))%Q).
      { rewrite <- pow2_add. replace (k + - (k - 53))%Z with 53%Z by lia. reflexivity. }
      rewrite P. apply Qmult_lt_r; [apply pow2_pos | exact E].
Qed.

(** One rounding moves a positive number by at most [2^-53] of it. *)
Lemma round64_bounds (q : Q) :
  (0 < q)%Q ->
  (q * (1 - JS.ulp64) <= JS.round64 q)%Q /\ (JS.round64 q <= q * (1 + JS.ulp64))%Q.
Proof.
  intros Hq. unfold JS.round64.
  assert (Hn : exists p, Qnum q = Z.pos p).
  { destruct q as [[| p | p] qd]; unfold Qlt in Hq; cbn in Hq; try lia.
    exists p. reflexivity. }
  destruct Hn as [p ->].
  set (e := JS.exponent64 q). set (t := (q * 2 ^ (- e))%Q).
  destruct (exponent64_spec q Hq) as [Ht _]. fold e in Ht. fold t in Ht.
  destruct (nearestEven_error t) as [Hlo Hhi].
  set (m := inject_Z (JS.nearestEven t)) in *.
  rewrite Qred_correct.
  assert (Hq' : (q == t * 2 ^ e)%Q).
  { subst t. rewrite <- Qmult_assoc, pow2_cancel, Qmult_1_r. reflexivity. }
  pose proof (pow2_pos e) as He.
  change (2 ^ 52)%Q with (4503599627370496 # 1)%Q in Ht.
  assert (H1 : (t * (1 - JS.ulp64) <= m)%Q) by (unfold JS.ulp64; lra).
  assert (H2 : (m <= t * (1 + JS.ulp64))%Q) by (unfold JS.ulp64; lra).
  split.
  - rewrite Hq' at 1.
    rewrite <- (Qmult_assoc t (2 ^ e)), (Qmult_comm (2 ^ e)), Qmult_assoc.
    apply Qmult_le_compat_r; [exact H1 | apply Qlt_le_weak, He].
  - rewrite Hq' at 1.
    rewrite <- (Qmult_assoc t (2 ^ e)), (Qmult_comm (2 ^ e)), Qmult_assoc.
    apply Qmult_le_compat_r; [exact H2 | apply Qlt_le_weak, He].
Qed.

(** The same, for a number given in lowest terms. *)
Lemma round64_Qred (q : Q) :
  (0 < q)%Q ->
  (q * (1 - JS.ulp64) <= JS.round64 (Qred q))%Q
  /\ (JS.round64 (Qred q) <= q * (1 + JS.ulp64))%Q.
Proof.
  intros Hq. pose proof (Qred_correct q) as R.
  assert (Hr : (0 < Qred q)%Q) by (rewrite R; exact Hq).
  destruct (round64_bounds (Qred q) Hr) as [Hlo Hhi].
  set (x := JS.round64 (Qred q)) in *. rewrite R in Hlo, Hhi. split; assumption.
Qed.

(** What [updatePreviewCanvas] computes for a source canvas with positive
    sides, rounding by rounding. *)
Lemma preview_rounded (s : App) (source preview : Canvas) :
  canvasRef s = Some source ->
  previewCanvasRef s = Some preview ->
  (0 < canvasWidth source)%N ->
  (0 < canvasHeight source)%N ->
  let w := inject_Z (Z.of_N (canvasWidth source)) in
  let h := inject_Z (Z.of_N (canvasHeight source)) in
  exists scaleW scaleH scale previewWidth previewHeight : Q,
    JS.round (400%Z / JS.ofN (canvasWidth source)) = JS.Fin scaleW
    /\ JS.round (400%Z / JS.ofN (canvasHeight source)) = JS.Fin scaleH
    /\ (400 / w * (1 - JS.ulp64) <= scaleW <= 400 / w * (1 + JS.ulp64))%Q
    /\ (400 / h * (1 - JS.ulp64) <= scaleH <= 400 / h * (1 + JS.ulp64))%Q
    /\ (scale == Qmin scaleW scaleH)%Q
    /\ JS.round (JS.ofN (canvasWidth source) * JS.Fin scale) = JS.Fin previewWidth
    /\ JS.round (JS.ofN (canvasHeight source) * JS.Fin scale) = JS.Fin previewHeight
    /\ (w * scale * (1 - JS.ulp64) <= previewWidth <= w * scale * (1 + JS.ulp64))%Q
    /\ (h * scale * (1 - JS.ulp64) <= previewHeight <= h * scale * (1 + JS.ulp64))%Q
    /\ updatePreviewCanvas s
       = Some ({| canvasWidth := Z.to_N (Qfloor previewWidth);
                  canvasHeight := Z.to_N (Qfloor previewHeight) |},
               DrawImageScaled "canvas" 0%Z 0%Z
                 (JS.Fin previewWidth) (JS.Fin previewHeight))
    /\ (0 < scale)%Q
    /\ (0 < previewWidth)%Q /\ (previewWidth < 401)%Q
    /\ (0 < previewHeight)%Q /\ (previewHeight < 401)%Q
    /\ ((399 <= previewWidth)%Q \/ (399 <= previewHeight)%Q)
    /\ ((w < 400)%Q -> (h < 400)%Q -> (1 < scale)%Q).
Proof.
  intros Hc Hp Hw Hh w h.
  pose proof (ofN_pos _ Hw) as Hwpos. pose proof (ofN_pos _ Hh) as Hhpos.
  fold w in Hwpos. fold h in Hhpos.
  assert (Hwne : ~ (w == 0)%Q) by (intros E; rewrite E in Hwpos; apply (Qlt_irrefl 0 Hwpos)).
  assert (Hhne : ~ (h == 0)%Q) by (intros E; rewrite E in Hhpos; apply (Qlt_irrefl 0 Hhpos)).
  set (a := (400 / w)%Q). set (b := (400 / h)%Q).
  assert (Ha : (w * a == 400)%Q) by (apply fit_eq; [assumption | reflexivity]).
  assert (Hb : (h * b == 400)%Q) by (apply fit_eq; [assumption | reflexivity]).
  assert (Ha0 : (0 < a)%Q) by (apply Qlt_shift_div_l; [assumption | lra]).
  assert (Hb0 : (0 < b)%Q) by (apply Qlt_shift_div_l; [assumption | lra]).
  destruct (round64_Qred a Ha0) as [Alo Ahi].
  destruct (round64_Qred b Hb0) as [Blo Bhi].
  set (sw := JS.round64 (Qred a)) in *. set (sh := JS.round64 (Qred b)) in *.
  assert (Esw : JS.round (400%Z / JS.ofN (canvasWidth source)) = JS.Fin sw).
  { rewrite ofN_fin. fold w. unfold JS.ofZ. rewrite (div_fin _ w Hwne). reflexivity. }
  assert (Esh : JS.round (400%Z / JS.ofN (canvasHeight source)) = JS.Fin sh).
  { rewrite ofN_fin. fold h. unfold JS.ofZ. rewrite (div_fin _ h Hhne). reflexivity. }
  assert (Hscale : exists scale : Q,
    JS.min (JS.Fin sw) (JS.Fin sh) = JS.Fin scale
    /\ (scale == Qmin sw sh)%Q /\ (scale <= sw)%Q /\ (scale <= sh)%Q
    /\ (scale = sw \/ scale = sh)).
  { unfold JS.min. destruct (Qle_bool sw sh) eqn:E.
    - apply Qle_bool_iff in E. exists sw.
      split; [reflexivity |]. split; [symmetry; apply Q.min_l; exact E |].
      split; [apply Qle_refl |]. split; [exact E | left; reflexivity].
    - apply Qle_bool_false in E. exists sh.
      split; [reflexivity |].
      split; [symmetry; apply Q.min_r; apply Qlt_le_weak; exact E |].
      split; [apply Qlt_le_weak; exact E |].
      split; [apply Qle_refl | right; reflexivity]. }
  destruct Hscale as (scale & Escale & Hmin & Hsw & Hsh & Hlim).
  assert (Hsc0 : (0 < scale)%Q).
  { unfold JS.ulp64 in Alo, Blo. destruct Hlim as [-> | ->]; lra. }
  assert (Xw0 : (0 < w * scale)%Q) by (apply Qmult_lt_0_compat; assumption).
  assert (Xh0 : (0 < h * scale)%Q) by (apply Qmult_lt_0_compat; assumption).
  assert (Xwhi : (w * scale <= 400 * (1 + JS.ulp64))%Q).
  { rewrite <- Ha, <- Qmult_assoc. apply Qmult_le_l; [exact Hwpos |].
    apply (Qle_trans _ sw); assumption. }
  assert (Xhhi : (h * scale <= 400 * (1 + JS.ulp64))%Q).
  { rewrite <- Hb, <- Qmult_assoc. apply Qmult_le_l; [exact Hhpos |].
    apply (Qle_trans _ sh); assumption. }
  assert (Xlo : (400 * (1 - JS.ulp64) <= w * scale)%Q
                \/ (400 * (1 - JS.ulp64) <= h * scale)%Q).
  { destruct Hlim as [E | E]; [left; rewrite <- Ha | right; rewrite <- Hb];
      rewrite <- Qmult_assoc, E; (apply Qmult_le_l; assumption). }
  destruct (round64_Qred (w * scale) Xw0) as [Wlo Whi].
  destruct (round64_Qred (h * scale) Xh0) as [Hlo Hhi].
  set (pw := JS.round64 (Qred (w * scale))) in *.
  set (ph := JS.round64 (Qred (h * scale))) in *.
  assert (Epw : JS.round (JS.ofN (canvasWidth source) * JS.Fin scale) = JS.Fin pw)
    by reflexivity.
  assert (Eph : JS.round (JS.ofN (canvasHeight source) * JS.Fin scale) = JS.Fin ph)
    by reflexivity.
  set (Xw := (w * scale)%Q) in *. set (Xh := (h * scale)%Q) in *.
  assert (Bw : (0 < pw)%Q /\ (pw < 401)%Q) by (unfold JS.ulp64 in *; split; lra).
  assert (Bh : (0 < ph)%Q /\ (ph < 401)%Q) by (unfold JS.ulp64 in *; split; lra).
  assert (Blim : (399 <= pw)%Q \/ (399 <= ph)%Q).
  { unfold JS.ulp64 in *. destruct Xlo; [left | right]; lra. }
  destruct (toUnsignedLong_small pw (Qlt_le_weak _ _ (proj1 Bw)) (proj2 Bw)) as [Tw _].
  destruct (toUnsignedLong_small ph (Qlt_le_weak _ _ (proj1 Bh)) (proj2 Bh)) as [Th _].
  exists sw, sh, scale, pw, ph.
  split; [exact Esw |]. split; [exact Esh |].
  split; [split; assumption |]. split; [split; assumption |].
  split; [exact Hmin |]. split; [exact Epw |]. split; [exact Eph |].
  split; [split; assumption |]. split; [split; assumption |].
  split.
  { unfold updatePreviewCanvas. rewrite Hc, Hp, Esw, Esh, Escale, Epw, Eph, Tw, Th.
    reflexivity. }
  split; [exact Hsc0 |].
  split; [exact (proj1 Bw) |]. split; [exact (proj2 Bw) |].
  split; [exact (proj1 Bh) |]. split; [exact (proj2 Bh) |].
  split; [exact Blim |].
  intros Hw4 Hh4.
  assert (Iw : (w <= 399)%Q).
  { unfold w in *. change 400%Q with (inject_Z 400) in Hw4. rewrite <- Zlt_Qlt in Hw4.
    change 399%Q with (inject_Z 399). rewrite <- Zle_Qle. lia. }
  assert (Ih : (h <= 399)%Q).
  { unfold h in *. change 400%Q with (inject_Z 400) in Hh4. rewrite <- Zlt_Qlt in Hh4.
    change 399%Q with (inject_Z 399). rewrite <- Zle_Qle. lia. }
  assert (Ga : (400 <= 399 * a)%Q).
  { rewrite <- Ha, (Qmult_comm w a), (Qmult_comm 399 a).
    apply Qmult_le_l; assumption. }
  assert (Gb : (400 <= 399 * b)%Q).
  { rewrite <- Hb, (Qmult_comm h b), (Qmult_comm 399 b).
    apply Qmult_le_l; assumption. }
  unfold JS.ulp64 in Alo, Blo. destruct Hlim as [-> | ->]; lra.
Qed.

(** C6, as the code has it.  For a source canvas of positive width and
    height, [updatePreviewCanvas] takes for [scale] the smaller of the
    doubles [400 / width] and [400 / height], draws the source at the
    doubles [width * scale] by [height * scale], and gives the preview
    canvas the integer parts of these two numbers (the canvas setters
    truncate; nothing is rounded to the nearest integer).  Each of the four
    operations is within one binary64 rounding ([ulp64 = 2^-53], relative)
    of the exact result.  The larger side of the preview is 399 or 400,
    whatever the source size, and a source smaller than 400 in both
    dimensions is enlarged ([scale > 1]). *)
Theorem preview_fits_max_dimension (s : App) (source preview : Canvas) :
  canvasRef s = Some source ->
  previewCanvasRef s = Some preview ->
  (0 < canvasWidth source)%N ->
  (0 < canvasHeight source)%N ->
  let w := inject_Z (Z.of_N (canvasWidth source)) in
  let h := inject_Z (Z.of_N (canvasHeight source)) in
  exists scaleW scaleH scale previewWidth previewHeight : Q,
    JS.round (400%Z / JS.ofN (canvasWidth source)) = JS.Fin scaleW
    /\ JS.round (400%Z / JS.ofN (canvasHeight source)) = JS.Fin scaleH
    /\ (400 / w * (1 - JS.ulp64) <= scaleW <= 400 / w * (1 + JS.ulp64))%Q
    /\ (400 / h * (1 - JS.ulp64) <= scaleH <= 400 / h * (1 + JS.ulp64))%Q
    /\ (scale == Qmin scaleW scaleH)%Q
    /\ JS.round (JS.ofN (canvasWidth source) * JS.Fin scale) = JS.Fin previewWidth
    /\ JS.round (JS.ofN (canvasHeight source) * JS.Fin scale) = JS.Fin previewHeight
    /\ (w * scale * (1 - JS.ulp64) <= previewWidth <= w * scale * (1 + JS.ulp64))%Q
    /\ (h * scale * (1 - JS.ulp64) <= previewHeight <= h * scale * (1 + JS.ulp64))%Q
    /\ updatePreviewCanvas s
       = Some ({| canvasWidth := Z.to_N (Qfloor previewWidth);
                  canvasHeight := Z.to_N (Qfloor previewHeight) |},
               DrawImageScaled "canvas" 0%Z 0%Z
                 (JS.Fin previewWidth) (JS.Fin previewHeight))
    /\ (400 - 1 <= Z.max (Qfloor previewWidth) (Qfloor previewHeight) <= 400)%Z
    /\ ((w < 400)%Q -> (h < 400)%Q -> (1 < scale)%Q).
Proof.
  intros Hc Hp Hw Hh w h.
  destruct (preview_rounded s source preview Hc Hp Hw Hh)
    as (sw & sh & scale & pw & ph & Esw & Esh & Bsw & Bsh & Hmin & Epw & Eph
        & Bpw & Bph & Hcanvas & _ & Hpw0 & Hpw1 & Hph0 & Hph1 & Hlim & Hup).
  exists sw, sh, scale, pw, ph.
  repeat (split; [assumption |]).
  split; [| exact Hup].
  destruct (toUnsignedLong_small pw (Qlt_le_weak _ _ Hpw0) Hpw1) as [_ Fw].
  destruct (toUnsignedLong_small ph (Qlt_le_weak _ _ Hph0) Hph1) as [_ Fh].
  assert (Hone : (399 <= Qfloor pw)%Z \/ (399 <= Qfloor ph)%Z).
  { destruct Hlim as [L | L]; [left | right];
      rewrite <- (Qfloor_Z 399); apply Qfloor_resp_le; exact L. }
  lia.
Qed.

(** C6 at a 1552 by 873 source: the preview canvas is 399 by 224. *)
Lemma preview_fits_max_dimension_witness :
  exists previewWidth previewHeight : Q,
    updatePreviewCanvas
      (fst (run [scenarioUpload jewelry 1552 873; scenarioUpload logo 200 100]
                initialApp))
    = Some ({| canvasWidth := Z.to_N (Qfloor previewWidth);
               canvasHeight := Z.to_N (Qfloor previewHeight) |},
            DrawImageScaled "canvas" 0%Z 0%Z
              (JS.Fin previewWidth) (JS.Fin previewHeight))
    /\ (400 - 1 <= Z.max (Qfloor previewWidth) (Qfloor previewHeight) <= 400)%Z.
Proof.
  destruct (preview_fits_max_dimension
              (fst (run [scenarioUpload jewelry 1552 873; scenarioUpload logo 200 100]
                        initialApp))
              {| canvasWidth := 1552; canvasHeight := 873 |}
              {| canvasWidth := 399; canvasHeight := 224 |}
              eq_refl eq_refl eq_refl eq_refl)
    as (sw & sh & scale & pw & ph & _ & _ & _ & _ & _ & _ & _ & _ & _
        & Hcanvas & Hmax & _).
  exists pw, ph. split; [exact Hcanvas | exact Hmax].
Defined.

(** C6 as it is stated fails.  At a 300 by 200 base the scale is the double
    nearest to [4/3], the preview is drawn 400 by 266.66666666666663
    ([2345624805922133 / 2^43]), and the preview canvas is 400 by 266, where rounding gives 267.  At a 1552
    by 873 base the products are 399.99999999999994 and 224.99999999999997
    and the preview canvas is 399 by 224, where rounding gives 400 by
    225. *)
Lemma preview_size_not_rounded :
  let s := fst (run [scenarioUpload jewelry 300 200; scenarioUpload logo 200 100]
                    initialApp) in
  let t := fst (run [scenarioUpload jewelry 1552 873; scenarioUpload logo 200 100]
                    initialApp) in
  reachable s
  /\ canvasRef s = Some {| canvasWidth := 300; canvasHeight := 200 |}
  /\ updatePreviewCanvas s
     = Some ({| canvasWidth := 400; canvasHeight := 266 |},
             DrawImageScaled "canvas" 0%Z 0%Z (JS.Fin 400)
               (JS.Fin (2345624805922133 # 8796093022208)))
  /\ previewCanvasRef s = Some {| canvasWidth := 400; canvasHeight := 266 |}
  /\ spec_round (200 * Qmin (400 / 300) (400 / 200)) = 267%Z
  /\ reachable t
  /\ canvasRef t = Some {| canvasWidth := 1552; canvasHeight := 873 |}
  /\ updatePreviewCanvas t
     = Some ({| canvasWidth := 399; canvasHeight := 224 |},
             DrawImageScaled "canvas" 0%Z 0%Z
               (JS.Fin (7036874417766399 # 17592186044416))
               (JS.Fin (7916483719987199 # 35184372088832)))
  /\ previewCanvasRef t = Some {| canvasWidth := 399; canvasHeight := 224 |}
  /\ spec_round (1552 * Qmin (400 / 1552) (400 / 873)) = 400%Z
  /\ spec_round (873 * Qmin (400 / 1552) (400 / 873)) = 225%Z.
Proof.
  cbv zeta.
  split; [apply reachable_run; [exact reachable_init | reflexivity] |].
  split; [reflexivity |]. split; [vm_compute; reflexivity |].
  split; [vm_compute; reflexivity |]. split; [reflexivity |].
  split; [apply reachable_run; [exact reachable_init | reflexivity] |].
  split; [reflexivity |]. split; [vm_compute; reflexivity |].
  split; [vm_compute; reflexivity |]. split; reflexivity.
Qed.

End PreviewClaims.

Section ExportClaims.

Lemma commit_same (e : Event) (s s' : App) :
  jewelryImage (commit e s s') = jewelryImage s'
  /\ logoImage (commit e s s') = logoImage s'
  /\ isProcessing (commit e s s') = isProcessing s'.
Proof.
  unfold commit, firstCommit.
  destruct (render_same s') as (Fj & Fl & _ & Fp).
  destruct (positionEffectDue e s s'); [| repeat split; assumption].
  destruct (render_same (positionEffect (render s'))) as (Rj & Rl & _ & Rp).
  rewrite Rj, Rl, Rp. unfold positionEffect.
  destruct (bothImages (render s')) eqn:Hb; [| repeat split; assumption].
  destruct (proj1 (updaters_images (render s'))
              (LogoSettings.position (logoSettings (render s'))))
    as (Hj & Hl).
  rewrite Hj, Hl. split; [exact Fj | split; [exact Fl |]].
  unfold bothImages in Hb.
  destruct (jewelryImage (render s')) as [j |] eqn:Ej; [| discriminate Hb].
  destruct (logoImage (render s')) as [l |] eqn:El; [| discriminate Hb].
  rewrite (updateLogoPosition_present _ (render s') j l Ej El). exact Fp.
Qed.

(** C7, as the code has it.  While an export is in flight
    ([isProcessing]): when [toBlob] hands over no blob, nothing is shown
    or saved, the flag is cleared, and the download button works again
    (if both images are still there); and a press of the download button
    starts nothing. *)
Theorem export_failure_clears_busy_flag (s : App) (now : N) :
  isProcessing s = true ->
  let after := step (BlobReady None now) s in
  snd after = []
  /\ isProcessing (fst after) = false
  /\ enabled DownloadButton (fst after) = bothImages s
  /\ step DownloadButton s = (s, []).
Proof.
  intros Hbusy after. subst after. unfold step.
  cbn [enabled handle toBlobCallback]. rewrite Hbusy. cbn [negb andb fst snd].
  destruct (commit_same (BlobReady None now) s (setIsProcessing false s))
    as (Hj & Hl & Hp).
  split; [reflexivity |]. split; [rewrite Hp; reflexivity |].
  split; [| rewrite Bool.andb_false_r; reflexivity].
  rewrite Hp. cbn [setIsProcessing isProcessing negb]. rewrite Bool.andb_true_r.
  unfold bothImages. rewrite Hj, Hl. reflexivity.
Qed.

(** C7 after a press of the download button in the documented scenario. *)
Lemma export_failure_clears_busy_flag_witness :
  let s := fst (run [scenarioUpload jewelry 1000 800; scenarioUpload logo 200 100;
                     DownloadButton] initialApp) in
  snd (step (BlobReady None 0) s) = []
  /\ isProcessing (fst (step (BlobReady None 0) s)) = false
  /\ enabled DownloadButton (fst (step (BlobReady None 0) s)) = bothImages s
  /\ step DownloadButton s = (s, []).
Proof.
  exact (export_failure_clears_busy_flag
           (fst (run [scenarioUpload jewelry 1000 800; scenarioUpload logo 200 100;
                      DownloadButton] initialApp))
           0%N eq_refl).
Defined.

(** C7 as it is stated fails: in the documented scenario, with an export
    in flight, a [toBlob] that produces no blob leads to no alert, and to
    no other effect. *)
Lemma export_failure_not_reported :
  let s := fst (run [scenarioUpload jewelry 1000 800; scenarioUpload logo 200 100;
                     DownloadButton] initialApp) in
  reachable s
  /\ isProcessing s = true
  /\ snd (step (BlobReady None 0) s) = []
  /\ ~ (exists message, In (Alert message) (snd (step (BlobReady None 0) s))).
Proof.
  cbv zeta.
  split; [apply reachable_run; [exact reachable_init | reflexivity] |].
  split; [reflexivity |]. split; [reflexivity |].
  intros [message H]. vm_compute in H. exact H.
Qed.

End ExportClaims.

Section FrameClaims.
Local Open Scope js_scope.

(** The calls [updateCanvas] makes: the base at the origin, then the logo
    in [logoDrawRect] under the alpha [logoAlpha]. *)
Lemma updateCanvas_ops (s : App) (base logoImg : ImageData.t) (canvas : Canvas) :
  jewelryImage s = Some base ->
  logoImage s = Some logoImg ->
  canvasRef s = Some canvas ->
  snd (updateCanvas s)
  = [ DrawImage (ImageData.url base) 0%Z 0%Z;
      SetGlobalAlpha (logoAlpha s);
      DrawImageScaled (ImageData.url logoImg)
        (fst (fst (fst (logoDrawRect s)))) (snd (fst (fst (logoDrawRect s))))
        (snd (fst (logoDrawRect s))) (snd (logoDrawRect s));
      SetGlobalAlpha 1%Z ].
Proof.
  intros Hj Hl Hc. unfold updateCanvas. rewrite Hj, Hl, Hc.
  destruct (updatePreviewCanvas _) as [[preview op] |]; reflexivity.
Qed.

Lemma sameValue_refl (a : JS.number) : JS.sameValue a a = true.
Proof. destruct a; cbn; [apply Qeq_bool_refl | reflexivity ..]. Qed.

(** C8.  In a state with both images, a move of the opacity slider leaves
    [x], [y], [width], [height], [sizePercentage], [margin] and [position]
    as they are: the handler copies them, and the position effect is not
    due, so the rectangle is not resolved again.  The rectangle the
    compositor draws the logo in is the same, and the alpha it blends with
    is the new value over 100. *)
Theorem opacity_change_keeps_rect (s : App) (value : Z) :
  bothImages s = true ->
  let s' := fst (step (OpacitySlider value) s) in
  let r := logoSettings s in
  let r' := logoSettings s' in
  LogoSettings.x r' = LogoSettings.x r
  /\ LogoSettings.y r' = LogoSettings.y r
  /\ LogoSettings.width r' = LogoSettings.width r
  /\ LogoSettings.height r' = LogoSettings.height r
  /\ LogoSettings.sizePercentage r' = LogoSettings.sizePercentage r
  /\ LogoSettings.margin r' = LogoSettings.margin r
  /\ LogoSettings.position r' = LogoSettings.position r
  /\ positionEffectDue (OpacitySlider value) s (fst (handle (OpacitySlider value) s))
     = false
  /\ logoDrawRect s' = logoDrawRect s
  /\ (inRange 10 100 value = true ->
      LogoSettings.opacity r' = JS.ofZ value
      /\ logoAlpha s' = JS.ofZ value / 100%Z).
Proof.
  intros Hb s' r r'.
  assert (Hdue : positionEffectDue (OpacitySlider value) s
                   (fst (handle (OpacitySlider value) s)) = false).
  { unfold positionEffectDue. cbn [imageReplaced handle fst].
    unfold changeOpacity. projections. rewrite !sameValue_refl. reflexivity. }
  subst s' r r'. unfold step, logoDrawRect, logoAlpha. cbn [enabled]. rewrite Hb.
  cbn [andb]. destruct (inRange 10 100 value) eqn:Hv.
  - cbn [handle] in *. cbn [fst] in *. unfold commit, firstCommit. rewrite Hdue.
    destruct (render_same (changeOpacity (JS.ofZ value) s)) as (_ & _ & Rr & _).
    rewrite Rr. unfold changeOpacity. projections.
    repeat split; reflexivity.
  - cbn [fst]. repeat split; try reflexivity; try exact Hdue; discriminate.
Qed.

(** C8 at the documented scenario, the slider moved to 40. *)
Lemma opacity_change_keeps_rect_witness :
  let s := fst (run [scenarioUpload jewelry 1000 800; scenarioUpload logo 200 100]
                    initialApp) in
  let s' := fst (step (OpacitySlider 40) s) in
  logoDrawRect s' = logoDrawRect s
  /\ LogoSettings.opacity (logoSettings s') = JS.ofZ 40
  /\ logoAlpha s' = JS.ofZ 40 / 100%Z.
Proof.
  cbv zeta.
  destruct (opacity_change_keeps_rect
              (fst (run [scenarioUpload jewelry 1000 800; scenarioUpload logo 200 100]
                        initialApp))
              40 eq_refl)
    as (_ & _ & _ & _ & _ & _ & _ & _ & Hrect & Hopacity).
  destruct (Hopacity eq_refl) as (Ho & Ha).
  split; [exact Hrect | split; [exact Ho | exact Ha]].
Defined.

(** C10.  When the base image or the logo image is absent,
    [updateLogoPosition], [updateLogoSize] and [updateMargin] return the
    state they were given: no field of the settings changes. *)
Theorem updaters_without_images_are_noops (s : App) :
  jewelryImage s = None \/ logoImage s = None ->
  (forall preset : string, updateLogoPosition preset s = s)
  /\ (forall percentage : JS.number, updateLogoSize percentage s = s)
  /\ (forall margin : JS.number, updateMargin margin s = s).
Proof.
  intros H. apply updaters_absent. unfold bothImages.
  destruct H as [H | H]; rewrite H; [| destruct (jewelryImage s)]; reflexivity.
Qed.

(** C10 in the state of the first render and after the upload of a base
    image only. *)
Lemma updaters_without_images_are_noops_witness :
  (updateLogoPosition (key BR) initialApp = initialApp
   /\ updateLogoSize (JS.ofZ 50) initialApp = initialApp
   /\ updateMargin (JS.ofZ 0) initialApp = initialApp)
  /\ (let s := fst (step (scenarioUpload jewelry 1000 800) initialApp) in
      updateLogoPosition (key BR) s = s
      /\ updateLogoSize (JS.ofZ 50) s = s
      /\ updateMargin (JS.ofZ 0) s = s).
Proof.
  split.
  - destruct (updaters_without_images_are_noops initialApp (or_introl eq_refl))
      as (Hp & Hz & Hm).
    split; [apply Hp | split; [apply Hz | apply Hm]].
  - cbv zeta.
    destruct (updaters_without_images_are_noops
                (fst (step (scenarioUpload jewelry 1000 800) initialApp))
                (or_intror eq_refl))
      as (Hp & Hz & Hm).
    split; [apply Hp | split; [apply Hz | apply Hm]].
Defined.

End FrameClaims.

Section PositionClaims.

Lemma step_position (e : Event) (s : App) :
  let position' := LogoSettings.position (logoSettings (fst (step e s))) in
  position' = LogoSettings.position (logoSettings s) \/ isPresetToken position'.
Proof.
  cbv zeta. unfold step. destruct (enabled e s) eqn:He; [| left; reflexivity].
  destruct (handle e s) as [s' out] eqn:Hh. cbn [fst].
  assert (Hhandle : LogoSettings.position (logoSettings s')
                    = LogoSettings.position (logoSettings s)
                    \/ isPresetToken (LogoSettings.position (logoSettings s'))).
  { destruct e as [f slot decoded | preset | v | v | v | | | blob now];
      cbn [handle] in Hh.
    - unfold handleFileUpload in Hh.
      destruct (negb (String.prefix "image/" (type f)));
        [injection Hh as <- _; left; reflexivity |].
      destruct decoded as [[[result w] h] |];
        [destruct slot |]; injection Hh as <- _; left; reflexivity.
    - injection Hh as <- _.
      destruct (updateLogoPosition_frame (key preset) s) as (_ & _ & _ & Hpos).
      rewrite Hpos. destruct (bothImages s);
        [right; apply isPresetToken_key | left; reflexivity].
    - injection Hh as <- _.
      destruct (updateLogoSize_frame (JS.ofZ v) s) as (_ & _ & _ & Hpos).
      left; exact Hpos.
    - injection Hh as <- _. left; reflexivity.
    - injection Hh as <- _.
      destruct (updateMargin_frame (JS.ofZ v) s) as (_ & _ & _ & Hpos & _).
      left; exact Hpos.
    - injection Hh as <- _. unfold resetPosition.
      destruct (updateLogoPosition_frame "TR" s) as (_ & _ & _ & Hpos).
      rewrite Hpos. destruct (bothImages s);
        [right; exact (isPresetToken_key TR) | left; reflexivity].
    - injection Hh as <- _. unfold downloadImage.
      destruct (canvasRef s); left; reflexivity.
    - unfold toBlobCallback in Hh.
      destruct blob; injection Hh as <- _; left; reflexivity. }
  assert (Hcommit : LogoSettings.position (logoSettings (commit e s s'))
                    = LogoSettings.position (logoSettings s')).
  { unfold commit, firstCommit.
    destruct (render_same s') as (_ & _ & Fr & _).
    destruct (positionEffectDue e s s'); [| rewrite Fr; reflexivity].
    destruct (render_same (positionEffect (render s'))) as (_ & _ & Rr & _).
    rewrite Rr. unfold positionEffect.
    destruct (updateLogoPosition_frame
                (LogoSettings.position (logoSettings (render s'))) (render s'))
      as (_ & _ & _ & Hpos).
    destruct (bothImages (render s')); [| rewrite Fr; reflexivity].
    rewrite Hpos, Fr. reflexivity. }
  rewrite Hcommit. exact Hhandle.
Qed.

(** C9.  The stored position starts as ['TR']; every step of the page
    leaves it as it is or sets it to one of the nine tokens; so in every
    state the page can reach it is one of the nine tokens, and never
    ['custom']. *)
Theorem position_is_always_a_preset :
  LogoSettings.position (logoSettings initialApp) = "TR"
  /\ (forall (e : Event) (s : App),
        let position' := LogoSettings.position (logoSettings (fst (step e s))) in
        position' = LogoSettings.position (logoSettings s)
        \/ isPresetToken position')
  /\ (forall s : App,
        reachable s ->
        isPresetToken (LogoSettings.position (logoSettings s))
        /\ LogoSettings.position (logoSettings s) <> "custom").
Proof.
  split; [reflexivity |]. split; [exact step_position |].
  intros s Hr. pose proof (inv_position s (invariant_reachable s Hr)) as Ht.
  split; [exact Ht |].
  intros E. rewrite E in Ht. unfold isPresetToken in Ht. cbn in Ht.
  repeat (destruct Ht as [Ht | Ht]; [discriminate Ht |]). exact Ht.
Qed.

(** C9 after the bottom-left button and the size slider in the documented
    scenario. *)
Lemma position_is_always_a_preset_witness :
  let s := fst (run [scenarioUpload jewelry 1000 800; scenarioUpload logo 200 100;
                     PresetButton BL; SizeSlider 30] initialApp) in
  isPresetToken (LogoSettings.position (logoSettings s))
  /\ LogoSettings.position (logoSettings s) <> "custom".
Proof.
  cbv zeta. apply (proj2 (proj2 position_is_always_a_preset)).
  apply reachable_run; [exact reachable_init | reflexivity].
Defined.

End PositionClaims.

Section ScenarioClaims.

(** C5.  Base 1000 by 800, logo 200 by 100, [sizePercentage = 15],
    [margin = 20], preset ['TR']: the logo is 150 wide and 75 high, and its
    rectangle is anchored at [(830, 20)]; this is what [updateLogoPosition]
    stores, and what the page holds after the two uploads. *)
Theorem scenario_top_right :
  let s := scenarioApp (scenarioImage 1000 800) (scenarioImage 200 100) in
  let r := logoSettings (updateLogoPosition (key TR) s) in
  let loaded := fst (run [scenarioUpload jewelry 1000 800; scenarioUpload logo 200 100]
                         initialApp) in
  LogoSettings.sizePercentage (logoSettings s) = JS.ofZ 15
  /\ LogoSettings.margin (logoSettings s) = JS.ofZ 20
  /\ LogoSettings.width r = JS.ofZ 150
  /\ LogoSettings.height r = JS.ofZ 75
  /\ LogoSettings.x r = JS.ofZ 830
  /\ LogoSettings.y r = JS.ofZ 20
  /\ LogoSettings.position r = "TR"
  /\ logoSettings loaded = r.
Proof.
  cbv zeta. repeat split; vm_compute; reflexivity.
Qed.

End ScenarioClaims.

(* ================================================================= *)
(** ** Further properties of the geometry resolver *)

Section GeometryExtras.
Local Open Scope js_scope.

(** The clamp of a finite value, case by case. *)
Lemma clamp_fin_cases (v ub : Q) :
  exists r : Q,
    spec_clamp (JS.Fin v) (JS.Fin ub) = JS.Fin r
    /\ (((0 <= v)%Q /\ (v <= ub)%Q /\ r = v)
        \/ ((0 <= ub)%Q /\ (ub < v)%Q /\ r = ub)
        \/ ((v < 0)%Q /\ (v <= ub)%Q /\ r = inject_Z 0)
        \/ ((ub < 0)%Q /\ (ub < v)%Q /\ r = inject_Z 0)).
Proof.
  unfold spec_clamp, JS.min, JS.max, JS.ofZ.
  destruct (Qle_bool v ub) eqn:E1.
  - apply Qle_bool_iff in E1.
    destruct (Qle_bool (inject_Z 0) v) eqn:E2.
    + apply Qle_bool_iff in E2. change (inject_Z 0) with 0%Q in E2.
      exists v. split; [reflexivity |]. left. auto.
    + apply Qle_bool_false in E2. change (inject_Z 0) with 0%Q in E2.
      exists (inject_Z 0). split; [reflexivity |]. right; right; left. auto.
  - apply Qle_bool_false in E1.
    destruct (Qle_bool (inject_Z 0) ub) eqn:E2.
    + apply Qle_bool_iff in E2. change (inject_Z 0) with 0%Q in E2.
      exists ub. split; [reflexivity |]. right; left. auto.
    + apply Qle_bool_false in E2. change (inject_Z 0) with 0%Q in E2.
      exists (inject_Z 0). split; [reflexivity |]. right; right; right. auto.
Qed.

(** The value of each anchor formula on finite arguments. *)
Lemma spec_anchorX_value (h : Horizontal) (bw lw m : Q) :
  exists a : Q,
    spec_anchorX h (JS.Fin bw) (JS.Fin lw) (JS.Fin m) = JS.Fin a
    /\ (a == match h with
             | left => m
             | center => (bw - lw) * (1 # 2)
             | right => bw - lw - m
             end)%Q.
Proof.
  destruct h; unfold spec_anchorX.
  - exists m. split; reflexivity.
  - rewrite sub_fin, div_fin_pos by lia. eexists. split; [reflexivity |].
    rewrite !Qred_correct. reflexivity.
  - rewrite !sub_fin. eexists. split; [reflexivity |].
    rewrite !Qred_correct. reflexivity.
Qed.

Lemma spec_anchorY_value (v : Vertical) (bh lh m : Q) :
  exists a : Q,
    spec_anchorY v (JS.Fin bh) (JS.Fin lh) (JS.Fin m) = JS.Fin a
    /\ (a == match v with
             | top => m
             | middle => (bh - lh) * (1 # 2)
             | bottom => bh - lh - m
             end)%Q.
Proof.
  destruct v; unfold spec_anchorY.
  - exists m. split; reflexivity.
  - rewrite sub_fin, div_fin_pos by lia. eexists. split; [reflexivity |].
    rewrite !Qred_correct. reflexivity.
  - rewrite !sub_fin. eexists. split; [reflexivity |].
    rewrite !Qred_correct. reflexivity.
Qed.

(** One axis of the resolver on finite arguments: the anchor [a] of the
    formula, clamped to [[0, base - logo]]. *)
Lemma resolved_axis (a base logoSize : Q) :
  exists r : Q,
    spec_clamp (JS.Fin a) (JS.sub (JS.Fin base) (JS.Fin logoSize)) = JS.Fin r
    /\ (r == Qmax 0 (Qmin a (base - logoSize)))%Q.
Proof.
  rewrite sub_fin.
  destruct (clamp_fin_cases a (Qred (base - logoSize))) as (r & Hr & Hcases).
  exists r. split; [exact Hr |].
  pose proof (Qred_correct (base - logoSize)) as R.
  destruct (Q.min_spec a (base - logoSize)) as [[Hm1 Hm2] | [Hm1 Hm2]];
    destruct (Q.max_spec 0 (Qmin a (base - logoSize))) as [[Hx1 Hx2] | [Hx1 Hx2]];
    rewrite Hx2; rewrite Hm2 in *;
    destruct Hcases as [(H1 & H2 & ->) | [(H1 & H2 & ->) | [(H1 & H2 & ->) | (H1 & H2 & ->)]]];
    rewrite ?R in *; change (inject_Z 0) with 0%Q; lra.
Qed.

(** The resolver on a preset and finite arguments: both coordinates are
    finite, each the clamp of its anchor formula. *)
Lemma resolved_preset (p : PositionPreset) (bw bh lw lh m : Q) :
  exists x y : Q,
    calculatePositionFromPreset (key p)
      (JS.Fin bw) (JS.Fin bh) (JS.Fin lw) (JS.Fin lh) (JS.Fin m)
    = (JS.Fin x, JS.Fin y)
    /\ (x == Qmax 0 (Qmin (match horizontalOf p with
                           | left => m
                           | center => (bw - lw) * (1 # 2)
                           | right => bw - lw - m
                           end) (bw - lw)))%Q
    /\ (y == Qmax 0 (Qmin (match verticalOf p with
                           | top => m
                           | middle => (bh - lh) * (1 # 2)
                           | bottom => bh - lh - m
                           end) (bh - lh)))%Q.
Proof.
  rewrite calculatePositionFromPreset_key.
  destruct (spec_anchorX_value (horizontalOf p) bw lw m) as (a & -> & Ha).
  destruct (spec_anchorY_value (verticalOf p) bh lh m) as (b & -> & Hb).
  destruct (resolved_axis a bw lw) as (x & -> & Hx).
  destruct (resolved_axis b bh lh) as (y & -> & Hy).
  exists x, y. split; [reflexivity |].
  rewrite Ha in Hx. rewrite Hb in Hy. split; assumption.
Qed.


Lemma clamp_value (a ub r : Q) :
  (r == Qmax 0 (Qmin a ub))%Q ->
  ((0 <= a)%Q -> (a <= ub)%Q -> (r == a)%Q)
  /\ ((0 <= ub)%Q -> (ub <= a)%Q -> (r == ub)%Q)
  /\ ((a <= 0)%Q -> (r == 0)%Q)
  /\ ((ub <= 0)%Q -> (r == 0)%Q).
Proof.
  intros Hr.
  destruct (Q.min_spec a ub) as [[Hm1 Hm2] | [Hm1 Hm2]];
    destruct (Q.max_spec 0 (Qmin a ub)) as [[Hx1 Hx2] | [Hx1 Hx2]];
    rewrite Hx2 in Hr; rewrite Hm2 in *;
    repeat split; intros; lra.
Qed.

(** X1.  A position string that is none of the nine tokens takes no case
    of the [switch]: on finite arguments the resolver returns the origin
    [(0, 0)], whatever the sizes and the margin. *)
Theorem unknown_preset_resolves_to_origin
    (preset : string) (baseW baseH logoW logoH margin : Q) :
  ~ isPresetToken preset ->
  calculatePositionFromPreset preset
    (JS.Fin baseW) (JS.Fin baseH) (JS.Fin logoW) (JS.Fin logoH) (JS.Fin margin)
  = (JS.ofZ 0, JS.ofZ 0).
Proof.
  intros Hno.
  destruct (presetAnchor_cases preset (JS.Fin baseW) (JS.Fin baseH)
              (JS.Fin logoW) (JS.Fin logoH) (JS.Fin margin)) as [[p ->] | Ha].
  - contradiction Hno. apply isPresetToken_key.
  - unfold calculatePositionFromPreset. rewrite Ha, !sub_fin.
    unfold JS.min, JS.max, JS.ofZ.
    destruct (Qle_bool (inject_Z 0) (Qred (baseW - logoW))) eqn:E1;
      destruct (Qle_bool (inject_Z 0) (Qred (baseH - logoH))) eqn:E2;
      cbn [Qle_bool inject_Z Qnum Qden Z.leb Z.mul Z.compare Pos.mul];
      rewrite ?E1, ?E2; reflexivity.
Qed.

(** X1 at the string ['custom']. *)
Lemma unknown_preset_resolves_to_origin_witness :
  calculatePositionFromPreset "custom"
    (JS.Fin 1000) (JS.Fin 800) (JS.Fin 150) (JS.Fin 75) (JS.Fin 20)
  = (JS.ofZ 0, JS.ofZ 0).
Proof.
  apply unknown_preset_resolves_to_origin.
  unfold isPresetToken. cbn. intros H.
  repeat (destruct H as [H | H]; [discriminate H |]). exact H.
Defined.

(** X2.  The resolved [x] depends on the column of the preset only, and
    not on any height; the resolved [y] depends on its row only, and not
    on any width: two presets of one column give the same [x], two of one
    row the same [y]. *)
Theorem resolved_axes_are_independent
    (p q : PositionPreset) (jw jh lw lh jw' jh' lw' lh' m : JS.number) :
  (horizontalOf p = horizontalOf q ->
   fst (calculatePositionFromPreset (key p) jw jh lw lh m)
   = fst (calculatePositionFromPreset (key q) jw jh' lw lh' m))
  /\ (verticalOf p = verticalOf q ->
      snd (calculatePositionFromPreset (key p) jw jh lw lh m)
      = snd (calculatePositionFromPreset (key q) jw' jh lw' lh m)).
Proof.
  rewrite !calculatePositionFromPreset_key. cbn [fst snd].
  split; intros ->; reflexivity.
Qed.

(** X2 at the top-left and bottom-left presets, and at the top-left and
    top-right ones. *)
Lemma resolved_axes_are_independent_witness :
  fst (calculatePositionFromPreset (key TL)
         (JS.Fin 1000) (JS.Fin 800) (JS.Fin 150) (JS.Fin 75) (JS.Fin 20))
  = fst (calculatePositionFromPreset (key BL)
           (JS.Fin 1000) (JS.Fin 600) (JS.Fin 150) (JS.Fin 300) (JS.Fin 20))
  /\ snd (calculatePositionFromPreset (key TL)
            (JS.Fin 1000) (JS.Fin 800) (JS.Fin 150) (JS.Fin 75) (JS.Fin 20))
     = snd (calculatePositionFromPreset (key TR)
              (JS.Fin 500) (JS.Fin 800) (JS.Fin 90) (JS.Fin 75) (JS.Fin 20)).
Proof.
  split.
  - apply (proj1 (resolved_axes_are_independent TL BL
                    (JS.Fin 1000) (JS.Fin 800) (JS.Fin 150) (JS.Fin 75)
                    (JS.Fin 1000) (JS.Fin 600) (JS.Fin 150) (JS.Fin 300) (JS.Fin 20))).
    reflexivity.
  - apply (proj2 (resolved_axes_are_independent TL TR
                    (JS.Fin 1000) (JS.Fin 800) (JS.Fin 150) (JS.Fin 75)
                    (JS.Fin 500) (JS.Fin 800) (JS.Fin 90) (JS.Fin 75) (JS.Fin 20))).
    reflexivity.
Defined.

(** X3.  When the margin fits on both axes ([0 <= margin <= baseW - logoW]
    and [margin <= baseH - logoH]) the clamp changes nothing: a logo
    anchored left or top starts [margin] pixels from that edge, one
    anchored right or bottom ends [margin] pixels before that edge, and
    one anchored at the centre has equal space on both sides. *)
Theorem logo_sits_at_margin (p : PositionPreset) (baseW baseH logoW logoH margin : Q) :
  (0 <= margin)%Q ->
  (margin <= baseW - logoW)%Q ->
  (margin <= baseH - logoH)%Q ->
  exists x y : Q,
    calculatePositionFromPreset (key p)
      (JS.Fin baseW) (JS.Fin baseH) (JS.Fin logoW) (JS.Fin logoH) (JS.Fin margin)
    = (JS.Fin x, JS.Fin y)
    /\ match horizontalOf p with
       | left => (x == margin)%Q
       | center => (x == baseW - (x + logoW))%Q
       | right => (x + logoW + margin == baseW)%Q
       end
    /\ match verticalOf p with
       | top => (y == margin)%Q
       | middle => (y == baseH - (y + logoH))%Q
       | bottom => (y + logoH + margin == baseH)%Q
       end.
Proof.
  intros H0 Hw Hh.
  destruct (resolved_preset p baseW baseH logoW logoH margin) as (x & y & E & Hx & Hy).
  exists x, y. split; [exact E |].
  apply clamp_value in Hx. apply clamp_value in Hy.
  destruct Hx as (Hx & _). destruct Hy as (Hy & _).
  split.
  - destruct (horizontalOf p); rewrite Hx; lra.
  - destruct (verticalOf p); rewrite Hy; lra.
Qed.

(** X3 for the centre preset of the documented scenario. *)
Lemma logo_sits_at_margin_witness :
  exists x y : Q,
    calculatePositionFromPreset (key C)
      (JS.Fin 1000) (JS.Fin 800) (JS.Fin 150) (JS.Fin 75) (JS.Fin 20)
    = (JS.Fin x, JS.Fin y)
    /\ (x == 1000 - (x + 150))%Q
    /\ (y == 800 - (y + 75))%Q.
Proof.
  apply (logo_sits_at_margin C 1000 800 150 75 20); vm_compute; discriminate.
Defined.


(** X4.  Left and right are mirror images, and so are top and bottom: for
    a logo that fits the base and any margin, the space a left-anchored
    logo leaves on its left is the space the right-anchored one leaves on
    its right ([xLeft = baseW - (xRight + logoW)]), clamped or not; the
    same holds for the rows. *)
Theorem opposite_presets_mirror
    (p q : PositionPreset) (baseW baseH logoW logoH margin : Q) :
  let at_p := calculatePositionFromPreset (key p)
                (JS.Fin baseW) (JS.Fin baseH) (JS.Fin logoW) (JS.Fin logoH)
                (JS.Fin margin) in
  let at_q := calculatePositionFromPreset (key q)
                (JS.Fin baseW) (JS.Fin baseH) (JS.Fin logoW) (JS.Fin logoH)
                (JS.Fin margin) in
  exists xp yp xq yq : Q,
    at_p = (JS.Fin xp, JS.Fin yp)
    /\ at_q = (JS.Fin xq, JS.Fin yq)
    /\ ((logoW <= baseW)%Q -> horizontalOf p = left -> horizontalOf q = right ->
        (xp == baseW - (xq + logoW))%Q)
    /\ ((logoH <= baseH)%Q -> verticalOf p = top -> verticalOf q = bottom ->
        (yp == baseH - (yq + logoH))%Q).
Proof.
  intros at_p at_q. subst at_p at_q.
  destruct (resolved_preset p baseW baseH logoW logoH margin) as (xp & yp & Ep & Hxp & Hyp).
  destruct (resolved_preset q baseW baseH logoW logoH margin) as (xq & yq & Eq & Hxq & Hyq).
  exists xp, yp, xq, yq. split; [exact Ep |]. split; [exact Eq |].
  split.
  - intros Hfit Hp Hq. rewrite Hp in Hxp. rewrite Hq in Hxq.
    apply clamp_value in Hxp. apply clamp_value in Hxq.
    destruct Hxp as (P1 & P2 & P3 & _). destruct Hxq as (Q1 & Q2 & Q3 & _).
    destruct (Qlt_le_dec margin 0) as [Hneg | Hpos].
    + rewrite P3, Q2; lra.
    + destruct (Qlt_le_dec (baseW - logoW) margin) as [Hbig | Hsmall].
      * rewrite P2, Q3; lra.
      * rewrite P1, Q1; lra.
  - intros Hfit Hp Hq. rewrite Hp in Hyp. rewrite Hq in Hyq.
    apply clamp_value in Hyp. apply clamp_value in Hyq.
    destruct Hyp as (P1 & P2 & P3 & _). destruct Hyq as (Q1 & Q2 & Q3 & _).
    destruct (Qlt_le_dec margin 0) as [Hneg | Hpos].
    + rewrite P3, Q2; lra.
    + destruct (Qlt_le_dec (baseH - logoH) margin) as [Hbig | Hsmall].
      * rewrite P2, Q3; lra.
      * rewrite P1, Q1; lra.
Qed.

(** X4 at the top-left and bottom-right presets of the documented
    scenario. *)
Lemma opposite_presets_mirror_witness :
  exists xp yp xq yq : Q,
    calculatePositionFromPreset (key TL)
      (JS.Fin 1000) (JS.Fin 800) (JS.Fin 150) (JS.Fin 75) (JS.Fin 20)
    = (JS.Fin xp, JS.Fin yp)
    /\ calculatePositionFromPreset (key BR)
         (JS.Fin 1000) (JS.Fin 800) (JS.Fin 150) (JS.Fin 75) (JS.Fin 20)
       = (JS.Fin xq, JS.Fin yq)
    /\ (xp == 1000 - (xq + 150))%Q
    /\ (yp == 800 - (yq + 75))%Q.
Proof.
  destruct (opposite_presets_mirror TL BR 1000 800 150 75 20)
    as (xp & yp & xq & yq & Ep & Eq & Hx & Hy).
  exists xp, yp, xq, yq.
  split; [exact Ep |]. split; [exact Eq |]. split.
  - apply Hx; [vm_compute; discriminate | reflexivity | reflexivity].
  - apply Hy; [vm_compute; discriminate | reflexivity | reflexivity].
Defined.

(** X5.  A margin larger than the free space pushes the logo to the far
    side: with [0 <= baseW - logoW < margin] a left-anchored logo ends at
    the right edge ([x = baseW - logoW]) and a right-anchored one starts at
    the left edge ([x = 0]); with [0 <= baseH - logoH < margin] a
    top-anchored logo ends at the lower edge and a bottom-anchored one
    starts at the upper edge.  The centre presets ignore the margin. *)
Theorem oversized_margin_swaps_sides
    (p : PositionPreset) (baseW baseH logoW logoH margin : Q) :
  exists x y : Q,
    calculatePositionFromPreset (key p)
      (JS.Fin baseW) (JS.Fin baseH) (JS.Fin logoW) (JS.Fin logoH) (JS.Fin margin)
    = (JS.Fin x, JS.Fin y)
    /\ ((0 <= baseW - logoW)%Q -> (baseW - logoW < margin)%Q ->
        match horizontalOf p with
        | left => (x == baseW - logoW)%Q
        | center => (x == (baseW - logoW) * (1 # 2))%Q
        | right => (x == 0)%Q
        end)
    /\ ((0 <= baseH - logoH)%Q -> (baseH - logoH < margin)%Q ->
        match verticalOf p with
        | top => (y == baseH - logoH)%Q
        | middle => (y == (baseH - logoH) * (1 # 2))%Q
        | bottom => (y == 0)%Q
        end).
Proof.
  destruct (resolved_preset p baseW baseH logoW logoH margin) as (x & y & E & Hx & Hy).
  exists x, y. split; [exact E |].
  apply clamp_value in Hx. apply clamp_value in Hy.
  destruct Hx as (X1 & X2 & X3 & _). destruct Hy as (Y1 & Y2 & Y3 & _).
  split; intros Hfit Hbig.
  - destruct (horizontalOf p); [rewrite X2 | rewrite X1 | rewrite X3]; lra.
  - destruct (verticalOf p); [rewrite Y2 | rewrite Y1 | rewrite Y3]; lra.
Qed.

(** X5 at a 100 by 100 base, a 60 by 60 logo and a margin of 100, top
    left: the logo is drawn at [(40, 40)], in the bottom right corner. *)
Lemma oversized_margin_swaps_sides_witness :
  exists x y : Q,
    calculatePositionFromPreset (key TL)
      (JS.Fin 100) (JS.Fin 100) (JS.Fin 60) (JS.Fin 60) (JS.Fin 100)
    = (JS.Fin x, JS.Fin y)
    /\ (x == 100 - 60)%Q
    /\ (y == 100 - 60)%Q.
Proof.
  destruct (oversized_margin_swaps_sides TL 100 100 60 60 100)
    as (x & y & E & Hx & Hy).
  exists x, y. split; [exact E |]. split.
  - apply Hx; vm_compute; [discriminate | reflexivity].
  - apply Hy; vm_compute; [discriminate | reflexivity].
Defined.

End GeometryExtras.

(* ================================================================= *)
(** ** Further properties of the settings *)

Section SettingsExtras.
Local Open Scope js_scope.

(** X6.  In every state the page can reach the three parameters are
    integers within the bounds of their sliders: the size percentage
    between 5 and 50, the margin between 0 and 100, the opacity between 10
    and 100. *)
Theorem parameters_stay_in_slider_ranges (s : App) :
  reachable s ->
  exists size margin opacity : Z,
    LogoSettings.sizePercentage (logoSettings s) = JS.ofZ size
    /\ (5 <= size <= 50)%Z
    /\ LogoSettings.margin (logoSettings s) = JS.ofZ margin
    /\ (0 <= margin <= 100)%Z
    /\ LogoSettings.opacity (logoSettings s) = JS.ofZ opacity
    /\ (10 <= opacity <= 100)%Z.
Proof.
  intros Hr.
  destruct (inv_params s (invariant_reachable s Hr))
    as ((size & Hs & Hsr) & (margin & Hm & Hmr) & (opacity & Ho & Hor)).
  exists size, margin, opacity. repeat split; try assumption; lia.
Qed.

(** X6 after three moves of the sliders in the documented scenario. *)
Lemma parameters_stay_in_slider_ranges_witness :
  exists size margin opacity : Z,
    LogoSettings.sizePercentage
      (logoSettings
         (fst (run [scenarioUpload jewelry 1000 800; scenarioUpload logo 200 100;
                    SizeSlider 50; MarginSlider 0; OpacitySlider 10] initialApp)))
    = JS.ofZ size
    /\ (5 <= size <= 50)%Z
    /\ LogoSettings.margin
         (logoSettings
            (fst (run [scenarioUpload jewelry 1000 800; scenarioUpload logo 200 100;
                       SizeSlider 50; MarginSlider 0; OpacitySlider 10] initialApp)))
       = JS.ofZ margin
    /\ (0 <= margin <= 100)%Z
    /\ LogoSettings.opacity
         (logoSettings
            (fst (run [scenarioUpload jewelry 1000 800; scenarioUpload logo 200 100;
                       SizeSlider 50; MarginSlider 0; OpacitySlider 10] initialApp)))
       = JS.ofZ opacity
    /\ (10 <= opacity <= 100)%Z.
Proof.
  apply parameters_stay_in_slider_ranges.
  apply reachable_run; [exact reachable_init | reflexivity].
Defined.

(** X7.  With both images present the rectangle of a settled state is a
    function of the images and of the three parameters it is resolved
    from: two settled states that agree on the images, the size
    percentage, the margin and the position hold the same [x], [y],
    [width] and [height].  Every state the page rests in is settled, so
    two of them that agree on these draw the logo in the same rectangle,
    however they were reached.  A state the page commits is settled, or
    it is the first commit after a decoded upload, which holds the
    rectangle stored before the upload. *)
Theorem rect_is_function_of_parameters (s1 s2 : App) :
  displayed s1 ->
  displayed s2 ->
  bothImages s1 = true ->
  jewelryImage s1 = jewelryImage s2 ->
  logoImage s1 = logoImage s2 ->
  LogoSettings.sizePercentage (logoSettings s1)
  = LogoSettings.sizePercentage (logoSettings s2) ->
  LogoSettings.margin (logoSettings s1) = LogoSettings.margin (logoSettings s2) ->
  LogoSettings.position (logoSettings s1) = LogoSettings.position (logoSettings s2) ->
  (settled s1 -> settled s2 -> logoDrawRect s1 = logoDrawRect s2)
  /\ (reachable s1 -> reachable s2 -> logoDrawRect s1 = logoDrawRect s2)
  /\ (settled s1
      \/ exists (f : File) (slot : ImageType) (decoded : option (string * N * N))
                (before : App),
           reachable before
           /\ imageReplaced (FileChosen f slot decoded) = true
           /\ s1 = firstCommit (fst (handle (FileChosen f slot decoded) before))
           /\ logoSettings s1 = logoSettings before).
Proof.
  intros Hd1 Hd2 Hb Hj Hl Hz Hm Hp. unfold bothImages in Hb.
  destruct (jewelryImage s1) as [j |] eqn:Ej; [| discriminate Hb].
  destruct (logoImage s1) as [l |] eqn:El; [| discriminate Hb].
  assert (Hsame : settled s1 -> settled s2 -> logoDrawRect s1 = logoDrawRect s2).
  { intros Hs1 Hs2.
    destruct (settled_fields s1 j l Ej El Hs1) as (W1 & H1 & X1 & Y1).
    destruct (settled_fields s2 j l (eq_sym Hj) (eq_sym Hl) Hs2) as (W2 & H2 & X2 & Y2).
    unfold logoDrawRect. rewrite W1, H1, X1, Y1, W2, H2, X2, Y2, Hz, Hm, Hp.
    reflexivity. }
  split; [exact Hsame |]. split.
  - intros Hr1 Hr2.
    exact (Hsame (inv_settled s1 (invariant_reachable s1 Hr1))
                 (inv_settled s2 (invariant_reachable s2 Hr2))).
  - destruct (displayed_cases s1 Hd1) as [Hinv | Hfirst].
    + left. exact (inv_settled s1 Hinv).
    + right. exact Hfirst.
Qed.

(** X7 at two orders of the same changes: size then margin after the
    bottom-left button, and margin then size before it, the images
    uploaded in the other order. *)
Lemma rect_is_function_of_parameters_witness :
  logoDrawRect
    (fst (run [scenarioUpload jewelry 1000 800; scenarioUpload logo 200 100;
               PresetButton BL; SizeSlider 30; MarginSlider 50] initialApp))
  = logoDrawRect
      (fst (run [scenarioUpload logo 200 100; scenarioUpload jewelry 1000 800;
                 MarginSlider 50; SizeSlider 30; OpacitySlider 40;
                 PresetButton BL] initialApp)).
Proof.
  assert (Hr1 : reachable
                  (fst (run [scenarioUpload jewelry 1000 800; scenarioUpload logo 200 100;
                             PresetButton BL; SizeSlider 30; MarginSlider 50] initialApp)))
    by (apply reachable_run; [exact reachable_init | reflexivity]).
  assert (Hr2 : reachable
                  (fst (run [scenarioUpload logo 200 100; scenarioUpload jewelry 1000 800;
                             MarginSlider 50; SizeSlider 30; OpacitySlider 40;
                             PresetButton BL] initialApp)))
    by (apply reachable_run; [exact reachable_init | reflexivity]).
  exact (proj1 (proj2 (rect_is_function_of_parameters _ _
                         (displayed_rest _ Hr1) (displayed_rest _ Hr2)
                         eq_refl eq_refl eq_refl eq_refl eq_refl eq_refl))
               Hr1 Hr2).
Defined.

(** X8.  In every state the page rests in, with both images, the stored
    width is the stored percentage of the base width
    ([jewelryImage.width * sizePercentage / 100]), the stored height is
    that width scaled by the natural size of the logo
    ([logoImage.height * width / logoImage.width]), and the width is
    between zero and half the base width.  A state the page commits holds
    this size, or it is the first commit after a decoded upload, which
    holds the size stored before the upload (100 by 100 after the first
    pair of uploads), whatever the images. *)
Theorem logo_size_is_percentage_of_base (s : App) (base logoImg : ImageData.t) :
  displayed s ->
  jewelryImage s = Some base ->
  logoImage s = Some logoImg ->
  let r := logoSettings s in
  (reachable s ->
   LogoSettings.width r = logoWidthOf base (LogoSettings.sizePercentage r)
   /\ LogoSettings.height r = logoHeightOf logoImg (LogoSettings.width r)
   /\ JS.le 0%Z (LogoSettings.width r)
   /\ JS.le (LogoSettings.width r) (JS.div (JS.ofN (ImageData.width base)) 2%Z))
  /\ ((LogoSettings.width r = logoWidthOf base (LogoSettings.sizePercentage r)
       /\ LogoSettings.height r = logoHeightOf logoImg (LogoSettings.width r))
      \/ exists (f : File) (slot : ImageType) (decoded : option (string * N * N))
                (before : App),
           reachable before
           /\ imageReplaced (FileChosen f slot decoded) = true
           /\ s = firstCommit (fst (handle (FileChosen f slot decoded) before))
           /\ logoSettings s = logoSettings before).
Proof.
  intros Hd Hj Hl r.
  assert (Hsize : Invariant s ->
            LogoSettings.width r = logoWidthOf base (LogoSettings.sizePercentage r)
            /\ LogoSettings.height r = logoHeightOf logoImg (LogoSettings.width r)
            /\ JS.le 0%Z (LogoSettings.width r)
            /\ JS.le (LogoSettings.width r) (JS.div (JS.ofN (ImageData.width base)) 2%Z)).
  { intros [Hp Ht Hs].
    destruct (settled_fields s base logoImg Hj Hl Hs) as (Hw & Hh & _).
    fold r in Hw, Hh.
    split; [exact Hw |]. split; [rewrite Hh, <- Hw; reflexivity |].
    destruct Hp as ((size & Hsize & Hrange) & _). fold r in Hsize.
    rewrite Hw, Hsize. unfold logoWidthOf.
    change (JS.ofZ size) with (JS.Fin (inject_Z size)).
    destruct (logoWidth_fin (ImageData.width base) (inject_Z size)) as (w & Ew & Hweq).
    rewrite Ew. rewrite ofN_fin. rewrite (div_fin_pos _ 2) by lia.
    unfold JS.le, JS.ofZ. rewrite Qred_correct.
    pose proof (ofN_nonneg (ImageData.width base)) as Hb.
    set (bw := inject_Z (Z.of_N (ImageData.width base))) in *.
    assert (H5 : (5 <= inject_Z size)%Q)
      by (change 5%Q with (inject_Z 5); rewrite <- Zle_Qle; lia).
    assert (H50 : (inject_Z size <= 50)%Q)
      by (change 50%Q with (inject_Z 50); rewrite <- Zle_Qle; lia).
    assert (Hlo : (0 * bw <= inject_Z size * bw)%Q)
      by (apply Qmult_le_compat_r; [lra | exact Hb]).
    assert (Hhi : (inject_Z size * bw <= 50 * bw)%Q)
      by (apply Qmult_le_compat_r; assumption).
    assert (Hw100 : (w * 100 == inject_Z size * bw)%Q) by (rewrite Hweq; field).
    change (inject_Z 0) with 0%Q. change (inject_Z 2) with 2%Q.
    unfold Qdiv. change (/ 2)%Q with (1 # 2)%Q.
    split; lra. }
  split.
  - intros Hr. exact (Hsize (invariant_reachable s Hr)).
  - destruct (displayed_cases s Hd) as [Hinv | Hfirst].
    + left. destruct (Hsize Hinv) as (Hw & Hh & _). split; assumption.
    + right. exact Hfirst.
Qed.

(** X8 at the documented scenario with the size slider at 30: the logo is
    300 by 150. *)
Lemma logo_size_is_percentage_of_base_witness :
  let s := fst (run [scenarioUpload jewelry 1000 800; scenarioUpload logo 200 100;
                     SizeSlider 30] initialApp) in
  LogoSettings.width (logoSettings s) = JS.Fin 300
  /\ LogoSettings.height (logoSettings s) = JS.Fin 150
  /\ LogoSettings.width (logoSettings s)
     = logoWidthOf (scenarioImage 1000 800)
         (LogoSettings.sizePercentage (logoSettings s))
  /\ LogoSettings.height (logoSettings s)
     = logoHeightOf (scenarioImage 200 100) (LogoSettings.width (logoSettings s)).
Proof.
  cbv zeta.
  assert (Hr : reachable
                 (fst (run [scenarioUpload jewelry 1000 800; scenarioUpload logo 200 100;
                            SizeSlider 30] initialApp)))
    by (apply reachable_run; [exact reachable_init | reflexivity]).
  destruct (proj1 (logo_size_is_percentage_of_base _
                     (scenarioImage 1000 800) (scenarioImage 200 100)
                     (displayed_rest _ Hr) eq_refl eq_refl) Hr)
    as (Hw & Hh & _).
  split; [reflexivity |]. split; [reflexivity |]. split; [exact Hw | exact Hh].
Defined.

End SettingsExtras.

(* ================================================================= *)
(** ** How the updaters compose *)

Section ComposeExtras.

Ltac with_images s j l Hj Hl Hb :=
  destruct (bothImages s) eqn:Hb;
  [ unfold bothImages in Hb;
    destruct (jewelryImage s) as [j |] eqn:Hj; [| discriminate Hb];
    destruct (logoImage s) as [l |] eqn:Hl; [| discriminate Hb]
  | ].

Ltac absent_case s Hb :=
  destruct (updaters_absent s Hb) as (?Hp & ?Hz & ?Hm);
  rewrite ?Hp, ?Hz, ?Hm; rewrite ?Hp, ?Hz, ?Hm; reflexivity.

Ltac unfold_updaters s j l Hj Hl :=
  rewrite ?(updateLogoPosition_present _ s j l Hj Hl),
          ?(updateLogoSize_present _ s j l Hj Hl),
          ?(updateMargin_present _ s j l Hj Hl);
  repeat first
    [ erewrite updateLogoPosition_present by (projections; eassumption)
    | erewrite updateLogoSize_present by (projections; eassumption)
    | erewrite updateMargin_present by (projections; eassumption) ];
  projections.

(** X9.  The last write wins: a second call of one updater makes the
    first call of the same updater without effect, for every state and
    all arguments. *)
Theorem updaters_overwrite (s : App) :
  (forall p q : string,
      updateLogoPosition p (updateLogoPosition q s) = updateLogoPosition p s)
  /\ (forall a b : JS.number,
        updateLogoSize a (updateLogoSize b s) = updateLogoSize a s)
  /\ (forall a b : JS.number,
        updateMargin a (updateMargin b s) = updateMargin a s).
Proof.
  with_images s j l Hj Hl Hb.
  - split; [| split]; intros a b; unfold_updaters s j l Hj Hl; reflexivity.
  - split; [| split]; intros a b; absent_case s Hb.
Qed.

(** X10.  The three updaters commute: a new size, a new margin and a new
    preset can be applied in any order, for every state and all
    arguments. *)
Theorem updaters_commute (s : App) (preset : string) (percentage margin : JS.number) :
  updateLogoSize percentage (updateMargin margin s)
  = updateMargin margin (updateLogoSize percentage s)
  /\ updateLogoPosition preset (updateMargin margin s)
     = updateMargin margin (updateLogoPosition preset s)
  /\ updateLogoPosition preset (updateLogoSize percentage s)
     = updateLogoSize percentage (updateLogoPosition preset s).
Proof.
  with_images s j l Hj Hl Hb.
  - split; [| split]; unfold_updaters s j l Hj Hl; reflexivity.
  - split; [| split]; absent_case s Hb.
Qed.

End ComposeExtras.

(* ================================================================= *)
(** ** The canvases *)

Section CanvasFacts.

Lemma updatePreviewCanvas_refs (s : App) (source preview : Canvas) :
  canvasRef s = Some source ->
  previewCanvasRef s = Some preview ->
  exists scaled op,
    updatePreviewCanvas s = Some (scaled, op)
    /\ forall s' preview',
         canvasRef s' = Some source ->
         previewCanvasRef s' = Some preview' ->
         updatePreviewCanvas s' = Some (scaled, op).
Proof.
  intros Hc Hp. unfold updatePreviewCanvas. rewrite Hc, Hp.
  eexists. eexists. split; [reflexivity |].
  intros s' preview' Hc' Hp'. rewrite Hc', Hp'. reflexivity.
Qed.

(** What a render leaves in the two refs. *)
Lemma render_canvases (s : App) (canvas : Canvas) :
  canvasRef s = Some canvas ->
  CanvasInvariant (render s).
Proof.
  intros Hc. unfold render.
  destruct (mountPreview_same s) as (Mj & Ml & _ & _).
  assert (Mc : canvasRef (mountPreview s) = Some canvas).
  { unfold mountPreview. destruct (bothImages s); [destruct (previewCanvasRef s) |];
      exact Hc. }
  assert (Mp : if bothImages s then exists p, previewCanvasRef (mountPreview s) = Some p
               else previewCanvasRef (mountPreview s) = None).
  { unfold mountPreview. destruct (bothImages s).
    - destruct (previewCanvasRef s) eqn:E; [exists c; exact E | eexists; reflexivity].
    - reflexivity. }
  set (m := mountPreview s) in *.
  unfold updateCanvas. rewrite Mj, Ml, Mc.
  unfold bothImages in Mp.
  destruct (jewelryImage s) as [j |] eqn:Hj; [destruct (logoImage s) as [l |] eqn:Hl |].
  - destruct Mp as [p Mp].
    set (sized := setCanvas {| canvasWidth := ImageData.width j;
                               canvasHeight := ImageData.height j |} m).
    destruct (updatePreviewCanvas_refs sized
                {| canvasWidth := ImageData.width j; canvasHeight := ImageData.height j |}
                p eq_refl Mp) as (scaled & op & Eprev & Hsame).
    rewrite Eprev. cbn [fst].
    split.
    + discriminate.
    + intros base _ Hb. cbn [setPreviewCanvas setCanvas jewelryImage canvasRef sized] in *.
      rewrite Mj in Hb. injection Hb as <-. reflexivity.
    + unfold bothImages. cbn [setPreviewCanvas setCanvas sized jewelryImage logoImage
                              previewCanvasRef].
      rewrite Mj, Ml. split; [reflexivity | discriminate].
    + rewrite (Hsame (setPreviewCanvas (Some scaled) sized) scaled eq_refl eq_refl).
      reflexivity.
  - cbn [fst]. split.
    + rewrite Mc. discriminate.
    + intros base Hb. unfold bothImages in Hb. rewrite Mj, Ml in Hb. discriminate Hb.
    + unfold bothImages. rewrite Mj, Ml, Mp. split; [intros H; contradiction H; reflexivity | discriminate].
    + unfold updatePreviewCanvas. rewrite Mc, Mp. reflexivity.
  - cbn [fst]. split.
    + rewrite Mc. discriminate.
    + intros base Hb. unfold bothImages in Hb. rewrite Mj in Hb. discriminate Hb.
    + unfold bothImages. rewrite Mj, Mp. split; [intros H; contradiction H; reflexivity | discriminate].
    + unfold updatePreviewCanvas. rewrite Mc, Mp. reflexivity.
Qed.


(** The two refs are written by a render only. *)
Lemma updaters_refs (s : App) :
  (forall preset, canvasRef (updateLogoPosition preset s) = canvasRef s
                  /\ previewCanvasRef (updateLogoPosition preset s) = previewCanvasRef s
                  /\ isProcessing (updateLogoPosition preset s) = isProcessing s)
  /\ (forall percentage, canvasRef (updateLogoSize percentage s) = canvasRef s
                  /\ previewCanvasRef (updateLogoSize percentage s) = previewCanvasRef s
                  /\ isProcessing (updateLogoSize percentage s) = isProcessing s)
  /\ (forall margin, canvasRef (updateMargin margin s) = canvasRef s
                  /\ previewCanvasRef (updateMargin margin s) = previewCanvasRef s
                  /\ isProcessing (updateMargin margin s) = isProcessing s).
Proof.
  destruct (bothImages s) eqn:Hb.
  - unfold bothImages in Hb.
    destruct (jewelryImage s) as [j |] eqn:Hj; [| discriminate Hb].
    destruct (logoImage s) as [l |] eqn:Hl; [| discriminate Hb].
    repeat split;
      first [ rewrite (updateLogoPosition_present _ s j l Hj Hl)
            | rewrite (updateLogoSize_present _ s j l Hj Hl)
            | rewrite (updateMargin_present _ s j l Hj Hl) ];
      reflexivity.
  - destruct (updaters_absent s Hb) as (Hp & Hz & Hm).
    repeat split; rewrite ?Hp, ?Hz, ?Hm; reflexivity.
Qed.

Lemma handle_canvasRef (e : Event) (s : App) :
  canvasRef (fst (handle e s)) = canvasRef s.
Proof.
  destruct (updaters_refs s) as (Hp & Hz & Hm).
  destruct e as [f slot decoded | preset | v | v | v | | | blob now]; cbn [handle fst].
  - unfold handleFileUpload.
    destruct (negb (String.prefix "image/" (type f))); [reflexivity |].
    destruct decoded as [[[result w] h] |]; [destruct slot |]; reflexivity.
  - apply Hp.
  - apply Hz.
  - reflexivity.
  - apply Hm.
  - apply Hp.
  - unfold downloadImage. destruct (canvasRef s) eqn:E; [| exact E]. exact E.
  - unfold toBlobCallback. destruct blob; reflexivity.
Qed.

Lemma positionEffect_canvasRef (s : App) :
  canvasRef (positionEffect s) = canvasRef s.
Proof.
  unfold positionEffect. destruct (bothImages s); [| reflexivity].
  apply (proj1 (updaters_refs s)).
Qed.

Lemma canvas_invariant_init : CanvasInvariant initialApp.
Proof.
  split.
  - discriminate.
  - intros base Hb. discriminate Hb.
  - split; [intros H; contradiction H; reflexivity | discriminate].
  - reflexivity.
Qed.

Lemma canvas_invariant_step (e : Event) (s : App) :
  CanvasInvariant s -> CanvasInvariant (fst (step e s)).
Proof.
  intros Hinv. unfold step. destruct (enabled e s); [| exact Hinv].
  destruct (handle e s) as [s' out] eqn:Hh. cbn [fst]. unfold commit, firstCommit.
  pose proof (handle_canvasRef e s) as Hc. rewrite Hh in Hc. cbn [fst] in Hc.
  destruct (canvasRef s) as [canvas |] eqn:Ec;
    [| contradiction (canvas_mounted s Hinv); exact Ec].
  pose proof (render_canvases s' canvas Hc) as Hfirst.
  destruct (positionEffectDue e s s'); [| exact Hfirst].
  destruct (canvasRef (render s')) as [first |] eqn:Ef;
    [| contradiction (canvas_mounted _ Hfirst); exact Ef].
  apply (render_canvases _ first). rewrite positionEffect_canvasRef. exact Ef.
Qed.

Lemma canvas_invariant_reachable (s : App) : reachable s -> CanvasInvariant s.
Proof.
  induction 1 as [| e s Hr IH He].
  - exact canvas_invariant_init.
  - apply canvas_invariant_step. exact IH.
Qed.

(** A render of a state that was rendered already changes nothing. *)
Lemma render_fixed (s : App) :
  CanvasInvariant s -> render s = s.
Proof.
  intros [Hm Hb Hp Hs]. unfold render.
  assert (Em : mountPreview s = s).
  { unfold mountPreview. destruct (bothImages s) eqn:Eb.
    - destruct (previewCanvasRef s) eqn:E; [reflexivity |].
      exfalso. apply (proj2 Hp); reflexivity.
    - destruct (previewCanvasRef s) eqn:E.
      + exfalso. assert (H : false = true) by (apply (proj1 Hp); discriminate).
        discriminate H.
      + destruct s. cbn in *. rewrite E. reflexivity. }
  rewrite Em. unfold updateCanvas.
  destruct (jewelryImage s) as [j |] eqn:Hj; [| reflexivity].
  destruct (logoImage s) as [l |] eqn:Hl; [| reflexivity].
  destruct (canvasRef s) as [c |] eqn:Hc; [| reflexivity].
  assert (Eb : bothImages s = true) by (unfold bothImages; rewrite Hj, Hl; reflexivity).
  specialize (Hb j Eb eq_refl). injection Hb as ->.
  assert (Es : setCanvas {| canvasWidth := ImageData.width j;
                            canvasHeight := ImageData.height j |} s = s).
  { destruct s. cbn in *. rewrite Hc. reflexivity. }
  rewrite Es.
  destruct (updatePreviewCanvas s) as [[preview op] |] eqn:Eprev; [| reflexivity].
  cbn [fst]. cbn [option_map fst] in Hs.
  destruct s. cbn in *. rewrite Hs. reflexivity.
Qed.

End CanvasFacts.

(* ================================================================= *)
(** ** Further properties of the canvases and of the preview *)

Section CanvasExtras.
Local Open Scope js_scope.

(** X11.  In every state the page can reach the hidden canvas exists, the
    preview canvas is in the page exactly when both images are, and with
    both images the hidden canvas has the width and the height of the base
    image: the composite is as large as the base. *)
Theorem hidden_canvas_has_base_size (s : App) :
  reachable s ->
  canvasRef s <> None
  /\ (previewCanvasRef s <> None <-> bothImages s = true)
  /\ (forall base logoImg,
        jewelryImage s = Some base ->
        logoImage s = Some logoImg ->
        canvasRef s = Some {| canvasWidth := ImageData.width base;
                              canvasHeight := ImageData.height base |}).
Proof.
  intros Hr. destruct (canvas_invariant_reachable s Hr) as [Hm Hb Hp _].
  split; [exact Hm |]. split; [exact Hp |].
  intros base logoImg Hj Hl. apply Hb; [| exact Hj].
  unfold bothImages. rewrite Hj, Hl. reflexivity.
Qed.

(** X11 after the two uploads of the documented scenario and a change of
    size. *)
Lemma hidden_canvas_has_base_size_witness :
  let s := fst (run [scenarioUpload jewelry 1000 800; scenarioUpload logo 200 100;
                     SizeSlider 30] initialApp) in
  canvasRef s <> None
  /\ (previewCanvasRef s <> None <-> bothImages s = true)
  /\ canvasRef s = Some {| canvasWidth := 1000; canvasHeight := 800 |}.
Proof.
  cbv zeta.
  destruct (hidden_canvas_has_base_size
              (fst (run [scenarioUpload jewelry 1000 800; scenarioUpload logo 200 100;
                         SizeSlider 30] initialApp)))
    as (Hm & Hp & Hb).
  - apply reachable_run; [exact reachable_init | reflexivity].
  - split; [exact Hm |]. split; [exact Hp |].
    exact (Hb (scenarioImage 1000 800) (scenarioImage 200 100) eq_refl eq_refl).
Defined.

(** X12.  For a source canvas of positive size the preview is drawn with
    the aspect ratio of the source up to the rounding of the two products:
    [previewWidth * height] and [previewHeight * width] differ by at most
    two binary64 roundings.  Both sides of the preview are positive and
    below 401, and the preview canvas takes their integer parts, which
    are at most 400. *)
Theorem preview_keeps_aspect_ratio (s : App) (source preview : Canvas) :
  canvasRef s = Some source ->
  previewCanvasRef s = Some preview ->
  (0 < canvasWidth source)%N ->
  (0 < canvasHeight source)%N ->
  let w := inject_Z (Z.of_N (canvasWidth source)) in
  let h := inject_Z (Z.of_N (canvasHeight source)) in
  exists previewWidth previewHeight : Q,
    updatePreviewCanvas s
    = Some ({| canvasWidth := Z.to_N (Qfloor previewWidth);
               canvasHeight := Z.to_N (Qfloor previewHeight) |},
            DrawImageScaled "canvas" 0%Z 0%Z
              (JS.Fin previewWidth) (JS.Fin previewHeight))
    /\ (previewWidth * h * (1 - JS.ulp64) <= previewHeight * w * (1 + JS.ulp64))%Q
    /\ (previewHeight * w * (1 - JS.ulp64) <= previewWidth * h * (1 + JS.ulp64))%Q
    /\ (0 < previewWidth)%Q /\ (previewWidth < 401)%Q
    /\ (0 < previewHeight)%Q /\ (previewHeight < 401)%Q
    /\ (0 <= Qfloor previewWidth <= 400)%Z
    /\ (0 <= Qfloor previewHeight <= 400)%Z.
Proof.
  intros Hc Hp Hw Hh w h.
  destruct (preview_rounded s source preview Hc Hp Hw Hh)
    as (sw & sh & scale & pw & ph & _ & _ & _ & _ & _ & _ & _
        & [Wlo Whi] & [Hlo Hhi] & E & Hsc & Hpw0 & Hpw1 & Hph0 & Hph1 & _).
  fold w in Wlo, Whi. fold h in Hlo, Hhi.
  pose proof (ofN_pos _ Hw) as Hwpos. pose proof (ofN_pos _ Hh) as Hhpos.
  fold w in Hwpos. fold h in Hhpos.
  destruct (toUnsignedLong_small pw (Qlt_le_weak _ _ Hpw0) Hpw1) as [_ Fw].
  destruct (toUnsignedLong_small ph (Qlt_le_weak _ _ Hph0) Hph1) as [_ Fh].
  exists pw, ph. split; [exact E |].
  assert (A1 : (w * scale * (1 - JS.ulp64) * h <= pw * h)%Q)
    by (apply Qmult_le_compat_r; [exact Wlo | apply Qlt_le_weak, Hhpos]).
  assert (A2 : (pw * h <= w * scale * (1 + JS.ulp64) * h)%Q)
    by (apply Qmult_le_compat_r; [exact Whi | apply Qlt_le_weak, Hhpos]).
  assert (B1 : (h * scale * (1 - JS.ulp64) * w <= ph * w)%Q)
    by (apply Qmult_le_compat_r; [exact Hlo | apply Qlt_le_weak, Hwpos]).
  assert (B2 : (ph * w <= h * scale * (1 + JS.ulp64) * w)%Q)
    by (apply Qmult_le_compat_r; [exact Hhi | apply Qlt_le_weak, Hwpos]).
  assert (X1 : (w * scale * (1 - JS.ulp64) * h == w * scale * h * (1 - JS.ulp64))%Q) by ring.
  assert (X2 : (w * scale * (1 + JS.ulp64) * h == w * scale * h * (1 + JS.ulp64))%Q) by ring.
  assert (X3 : (h * scale * (1 - JS.ulp64) * w == w * scale * h * (1 - JS.ulp64))%Q) by ring.
  assert (X4 : (h * scale * (1 + JS.ulp64) * w == w * scale * h * (1 + JS.ulp64))%Q) by ring.
  rewrite X1 in A1. rewrite X2 in A2. rewrite X3 in B1. rewrite X4 in B2.
  set (X := (w * scale * h)%Q) in *. set (A := (pw * h)%Q) in *. set (B := (ph * w)%Q) in *.
  unfold JS.ulp64 in *.
  split; [lra |]. split; [lra |].
  repeat (split; [assumption |]). exact Fh.
Qed.

(** X12 at the canvases of a 300 by 200 base. *)
Lemma preview_keeps_aspect_ratio_witness :
  exists previewWidth previewHeight : Q,
    updatePreviewCanvas
      (fst (run [scenarioUpload jewelry 300 200; scenarioUpload logo 200 100]
                initialApp))
    = Some ({| canvasWidth := Z.to_N (Qfloor previewWidth);
               canvasHeight := Z.to_N (Qfloor previewHeight) |},
            DrawImageScaled "canvas" 0%Z 0%Z
              (JS.Fin previewWidth) (JS.Fin previewHeight))
    /\ (previewWidth * 200 * (1 - JS.ulp64) <= previewHeight * 300 * (1 + JS.ulp64))%Q
    /\ (previewHeight * 300 * (1 - JS.ulp64) <= previewWidth * 200 * (1 + JS.ulp64))%Q
    /\ (0 < previewWidth)%Q /\ (previewWidth < 401)%Q
    /\ (0 < previewHeight)%Q /\ (previewHeight < 401)%Q
    /\ (0 <= Qfloor previewWidth <= 400)%Z
    /\ (0 <= Qfloor previewHeight <= 400)%Z.
Proof.
  exact (preview_keeps_aspect_ratio
           (fst (run [scenarioUpload jewelry 300 200; scenarioUpload logo 200 100]
                     initialApp))
           {| canvasWidth := 300; canvasHeight := 200 |}
           {| canvasWidth := 400; canvasHeight := 266 |}
           eq_refl eq_refl eq_refl eq_refl).
Defined.



(** The side of the preview along a positive side of the source, when the
    scale comes from that side. *)
Lemma fit_rounded (d : Q) :
  (0 < d)%Q ->
  let side := JS.round64 (Qred (d * JS.round64 (Qred (inject_Z 400 / d)))) in
  JS.toUnsignedLong (JS.Fin side) = Z.to_N (Qfloor side)
  /\ (399 <= Qfloor side <= 400)%Z.
Proof.
  intros Hd side.
  set (a := (inject_Z 400 / d)%Q) in *.
  assert (Ha : (d * a == 400)%Q) by (apply fit_eq; [assumption | reflexivity]).
  assert (Ha0 : (0 < a)%Q) by (apply Qlt_shift_div_l; [assumption | reflexivity]).
  destruct (round64_Qred a Ha0) as [Alo Ahi].
  set (sc := JS.round64 (Qred a)) in *.
  assert (Hsc : (0 < sc)%Q) by (unfold JS.ulp64 in Alo; lra).
  assert (X0 : (0 < d * sc)%Q) by (apply Qmult_lt_0_compat; assumption).
  assert (Xlo : (400 * (1 - JS.ulp64) <= d * sc)%Q).
  { rewrite <- Ha, <- Qmult_assoc. apply Qmult_le_l; assumption. }
  assert (Xhi : (d * sc <= 400 * (1 + JS.ulp64))%Q).
  { rewrite <- Ha, <- Qmult_assoc. apply Qmult_le_l; assumption. }
  destruct (round64_Qred (d * sc) X0) as [Slo Shi]. fold side in Slo, Shi.
  set (X := (d * sc)%Q) in *. unfold JS.ulp64 in *.
  assert (S0 : (0 <= side)%Q) by lra.
  assert (S1 : (side < 401)%Q) by lra.
  assert (S2 : (399 <= side)%Q) by lra.
  destruct (toUnsignedLong_small side S0 S1) as [T F].
  split; [exact T |].
  assert (L : (399 <= Qfloor side)%Z)
    by (rewrite <- (Qfloor_Z 399); apply Qfloor_resp_le; exact S2).
  lia.
Qed.

(** X14.  The sizes [updatePreviewCanvas] gives the preview canvas (lines
    251 and 252, before the draw call) for a source canvas with a side of
    zero.  The division by that side gives [Infinity], which the minimum
    discards when the other side is positive: a 0 by [h] source gives a
    preview canvas 0 wide and 399 or 400 high, a [w] by 0 source one 399 or
    400 wide and 0 high.  When both sides are zero the scale is
    [Infinity], the two products are [0 * Infinity = NaN], and the preview
    canvas is 0 by 0. *)
Theorem preview_of_empty_source (s : App) (source preview : Canvas) :
  canvasRef s = Some source ->
  previewCanvasRef s = Some preview ->
  ((canvasWidth source = 0)%N -> (0 < canvasHeight source)%N ->
   exists side : N,
     option_map fst (updatePreviewCanvas s)
     = Some {| canvasWidth := 0; canvasHeight := side |}
     /\ (399 <= side <= 400)%N)
  /\ ((0 < canvasWidth source)%N -> (canvasHeight source = 0)%N ->
      exists side : N,
        option_map fst (updatePreviewCanvas s)
        = Some {| canvasWidth := side; canvasHeight := 0 |}
        /\ (399 <= side <= 400)%N)
  /\ ((canvasWidth source = 0)%N -> (canvasHeight source = 0)%N ->
      updatePreviewCanvas s
      = Some ({| canvasWidth := 0; canvasHeight := 0 |},
              DrawImageScaled "canvas" 0%Z 0%Z JS.NaN JS.NaN)).
Proof.
  intros Hc Hp. unfold updatePreviewCanvas. rewrite Hc, Hp.
  destruct source as [sw sh]. cbn [canvasWidth canvasHeight].
  split; [| split].
  - intros -> Hh. pose proof (ofN_pos _ Hh) as Hpos.
    set (h := inject_Z (Z.of_N sh)) in *.
    assert (Hne : ~ (h == 0)%Q) by (intros E; rewrite E in Hpos; apply (Qlt_irrefl 0 Hpos)).
    change (JS.ofZ 400 / JS.ofN 0) with JS.PInf.
    rewrite !ofN_fin. fold h. unfold JS.ofZ. rewrite (div_fin _ h Hne).
    cbn [JS.round JS.min]. rewrite !mul_fin. cbn [JS.round option_map fst].
    destruct (fit_rounded h Hpos) as [T F]. cbv zeta in T, F. rewrite T.
    eexists. split; [reflexivity |]. lia.
  - intros Hw ->. pose proof (ofN_pos _ Hw) as Hpos.
    set (w := inject_Z (Z.of_N sw)) in *.
    assert (Hne : ~ (w == 0)%Q) by (intros E; rewrite E in Hpos; apply (Qlt_irrefl 0 Hpos)).
    change (JS.ofZ 400 / JS.ofN 0) with JS.PInf.
    rewrite !ofN_fin. fold w. unfold JS.ofZ. rewrite (div_fin _ w Hne).
    cbn [JS.round JS.min]. rewrite !mul_fin. cbn [JS.round option_map fst].
    destruct (fit_rounded w Hpos) as [T F]. cbv zeta in T, F. rewrite T.
    eexists. split; [reflexivity |]. lia.
  - intros -> ->. reflexivity.
Qed.

(** X14 at a 0 by 97 source, at a 300 by 0 source and at a 0 by 0
    source. *)
Lemma preview_of_empty_source_witness :
  (exists side : N,
     option_map fst
       (updatePreviewCanvas
          {| jewelryImage := None; logoImage := None; logoSettings := initialSettings;
             isProcessing := false;
             canvasRef := Some {| canvasWidth := 0; canvasHeight := 97 |};
             previewCanvasRef := Some newCanvas |})
     = Some {| canvasWidth := 0; canvasHeight := side |}
     /\ (399 <= side <= 400)%N)
  /\ (exists side : N,
        option_map fst
          (updatePreviewCanvas
             {| jewelryImage := None; logoImage := None; logoSettings := initialSettings;
                isProcessing := false;
                canvasRef := Some {| canvasWidth := 300; canvasHeight := 0 |};
                previewCanvasRef := Some newCanvas |})
        = Some {| canvasWidth := side; canvasHeight := 0 |}
        /\ (399 <= side <= 400)%N)
  /\ updatePreviewCanvas
       {| jewelryImage := None; logoImage := None; logoSettings := initialSettings;
          isProcessing := false;
          canvasRef := Some {| canvasWidth := 0; canvasHeight := 0 |};
          previewCanvasRef := Some newCanvas |}
     = Some ({| canvasWidth := 0; canvasHeight := 0 |},
             DrawImageScaled "canvas" 0%Z 0%Z JS.NaN JS.NaN).
Proof.
  split; [| split];
    match goal with
    | |- context [updatePreviewCanvas ?s] =>
        pose proof (preview_of_empty_source s _ newCanvas eq_refl eq_refl)
          as (Hw & Hh & Hboth)
    end.
  - apply Hw; reflexivity.
  - apply Hh; reflexivity.
  - apply Hboth; reflexivity.
Defined.

End CanvasExtras.

(* ================================================================= *)
(** ** Settings events in a rendered state *)

Section StepFacts.

Lemma app_ext (s s' : App) :
  jewelryImage s = jewelryImage s' ->
  logoImage s = logoImage s' ->
  logoSettings s = logoSettings s' ->
  isProcessing s = isProcessing s' ->
  canvasRef s = canvasRef s' ->
  previewCanvasRef s = previewCanvasRef s' ->
  s = s'.
Proof.
  destruct s, s'. cbn. intros -> -> -> -> -> ->. reflexivity.
Qed.

Lemma canvas_invariant_same (s s' : App) :
  jewelryImage s' = jewelryImage s ->
  logoImage s' = logoImage s ->
  canvasRef s' = canvasRef s ->
  previewCanvasRef s' = previewCanvasRef s ->
  CanvasInvariant s -> CanvasInvariant s'.
Proof.
  intros Hj Hl Hc Hp [Im Ib Ip Is].
  assert (Eb : bothImages s' = bothImages s) by (unfold bothImages; rewrite Hj, Hl; reflexivity).
  assert (Eu : updatePreviewCanvas s' = updatePreviewCanvas s)
    by (unfold updatePreviewCanvas; rewrite Hc, Hp; reflexivity).
  split.
  - rewrite Hc. exact Im.
  - intros base. rewrite Eb, Hj, Hc. apply Ib.
  - rewrite Hp, Eb. exact Ip.
  - rewrite Hp, Eu. exact Is.
Qed.

(** In a settled state the position effect stores what is stored. *)
Lemma positionEffect_fixed (s : App) : settled s -> positionEffect s = s.
Proof.
  intros Hs. unfold positionEffect. destruct (bothImages s); [| reflexivity].
  destruct (proj1 (updaters_images s) (LogoSettings.position (logoSettings s)))
    as (Hj & Hl).
  destruct (proj1 (updaters_refs s) (LogoSettings.position (logoSettings s)))
    as (Hc & Hp & Hb).
  apply app_ext; assumption.
Qed.

(** After an event that is no upload, the effects and the render leave
    the state as the handler made it. *)
Lemma step_is_handle (e : Event) (s : App) :
  reachable s ->
  enabled e s = true ->
  imageReplaced e = false ->
  fst (step e s) = fst (handle e s).
Proof.
  intros Hr He Hno.
  pose proof (invariant_reachable s Hr) as Hinv.
  pose proof (canvas_invariant_reachable s Hr) as Hcan.
  destruct (handle_invariant e s Hinv He) as (_ & _ & Hs).
  specialize (Hs Hno).
  unfold step. rewrite He. destruct (handle e s) as [s' out] eqn:Hh. cbn [fst] in *.
  assert (Hcan' : CanvasInvariant s'); [| unfold commit, firstCommit;
    rewrite (render_fixed s' Hcan');
    destruct (positionEffectDue e s s');
      [rewrite (positionEffect_fixed s' Hs); exact (render_fixed s' Hcan') | reflexivity]].
  assert (Hsame : jewelryImage s' = jewelryImage s /\ logoImage s' = logoImage s
                  /\ canvasRef s' = canvasRef s
                  /\ previewCanvasRef s' = previewCanvasRef s).
  { destruct (updaters_images s) as (Ip & Iz & Im).
    destruct (updaters_refs s) as (Rp & Rz & Rm).
    destruct e as [f slot decoded | preset | v | v | v | | | blob now];
      cbn [handle] in Hh.
    - cbn [imageReplaced] in Hno. unfold handleFileUpload in Hh.
      destruct (String.prefix "image/" (type f)); cbn [negb] in Hh.
      + destruct decoded as [[[result w] h] |]; [discriminate Hno |].
        injection Hh as <- _. repeat split; reflexivity.
      + injection Hh as <- _. repeat split; reflexivity.
    - injection Hh as <- _.
      destruct (Ip (key preset)) as (? & ?). destruct (Rp (key preset)) as (? & ? & _).
      repeat split; assumption.
    - injection Hh as <- _.
      destruct (Iz (JS.ofZ v)) as (? & ?). destruct (Rz (JS.ofZ v)) as (? & ? & _).
      repeat split; assumption.
    - injection Hh as <- _. repeat split; reflexivity.
    - injection Hh as <- _.
      destruct (Im (JS.ofZ v)) as (? & ?). destruct (Rm (JS.ofZ v)) as (? & ? & _).
      repeat split; assumption.
    - injection Hh as <- _. unfold resetPosition.
      destruct (Ip "TR") as (? & ?). destruct (Rp "TR") as (? & ? & _).
      repeat split; assumption.
    - injection Hh as <- _. unfold downloadImage.
      destruct (canvasRef s) eqn:Ec; repeat split; try reflexivity;
        cbn [setIsProcessing canvasRef]; exact Ec.
    - unfold toBlobCallback in Hh.
      destruct blob; injection Hh as <- _; repeat split; reflexivity. }
  destruct Hsame as (Hj & Hl & Hc & Hp).
  exact (canvas_invariant_same s s' Hj Hl Hc Hp Hcan).
Qed.

(** The cascade after a handler leaves the parameters and the position
    the handler stored. *)
Lemma commit_frame (e : Event) (s s' : App) :
  LogoSettings.opacity (logoSettings (commit e s s'))
  = LogoSettings.opacity (logoSettings s')
  /\ LogoSettings.sizePercentage (logoSettings (commit e s s'))
     = LogoSettings.sizePercentage (logoSettings s')
  /\ LogoSettings.margin (logoSettings (commit e s s'))
     = LogoSettings.margin (logoSettings s')
  /\ LogoSettings.position (logoSettings (commit e s s'))
     = LogoSettings.position (logoSettings s').
Proof.
  unfold commit, firstCommit.
  destruct (render_same s') as (_ & _ & Fr & _).
  destruct (positionEffectDue e s s'); [| rewrite Fr; repeat split; reflexivity].
  destruct (render_same (positionEffect (render s'))) as (_ & _ & Rr & _).
  rewrite Rr. unfold positionEffect.
  destruct (updateLogoPosition_frame
              (LogoSettings.position (logoSettings (render s'))) (render s'))
    as (Ho & Hz & Hm & Hpos).
  destruct (bothImages (render s')); [| rewrite Fr; repeat split; reflexivity].
  rewrite Ho, Hz, Hm, Hpos, Fr. repeat split; reflexivity.
Qed.

End StepFacts.

(* ================================================================= *)
(** ** Further properties of the event loop *)

Section LoopExtras.
Local Open Scope js_scope.

Lemma settings_ext (r r' : LogoSettings.t) :
  LogoSettings.x r = LogoSettings.x r' ->
  LogoSettings.y r = LogoSettings.y r' ->
  LogoSettings.width r = LogoSettings.width r' ->
  LogoSettings.height r = LogoSettings.height r' ->
  LogoSettings.opacity r = LogoSettings.opacity r' ->
  LogoSettings.sizePercentage r = LogoSettings.sizePercentage r' ->
  LogoSettings.margin r = LogoSettings.margin r' ->
  LogoSettings.position r = LogoSettings.position r' ->
  r = r'.
Proof.
  destruct r, r'. cbn. intros -> -> -> -> -> -> -> ->. reflexivity.
Qed.

(** In a settled state each updater, given the value that is stored,
    returns the state. *)
Lemma updaters_fixed (s : App) :
  settled s ->
  updateLogoPosition (LogoSettings.position (logoSettings s)) s = s
  /\ updateLogoSize (LogoSettings.sizePercentage (logoSettings s)) s = s
  /\ updateMargin (LogoSettings.margin (logoSettings s)) s = s
  /\ changeOpacity (LogoSettings.opacity (logoSettings s)) s = s.
Proof.
  intros Hs.
  assert (Ho : changeOpacity (LogoSettings.opacity (logoSettings s)) s = s).
  { unfold changeOpacity. apply app_ext; try reflexivity.
    apply settings_ext; reflexivity. }
  destruct (bothImages s) eqn:Hb.
  - unfold bothImages in Hb.
    destruct (jewelryImage s) as [j |] eqn:Hj; [| discriminate Hb].
    destruct (logoImage s) as [l |] eqn:Hl; [| discriminate Hb].
    destruct (settled_fields s j l Hj Hl Hs) as (Hw & Hh & Hx & Hy).
    rewrite (updateLogoPosition_present _ s j l Hj Hl),
            (updateLogoSize_present _ s j l Hj Hl),
            (updateMargin_present _ s j l Hj Hl).
    repeat split; try exact Ho;
      (apply app_ext; try reflexivity; apply settings_ext; projections;
       try reflexivity;
       first [ symmetry; assumption
             | rewrite Hh, Hw; symmetry; assumption ]).
  - destruct (updaters_absent s Hb) as (Hp & Hz & Hm).
    rewrite Hp, Hz, Hm. repeat split; try reflexivity. exact Ho.
Qed.


(** X15.  The effects come to rest: after every event of the page the
    position effect and the render, run once more, change nothing; and
    after an event that is no upload the state is the one the handler
    produced, the effects having added nothing to it. *)
Theorem effects_come_to_rest (e : Event) (s : App) :
  reachable s ->
  enabled e s = true ->
  let s' := fst (step e s) in
  positionEffect s' = s'
  /\ fst (updateCanvas (mountPreview s')) = s'
  /\ (imageReplaced e = false -> s' = fst (handle e s)).
Proof.
  intros Hr He s'.
  assert (Hr' : reachable s') by (apply reachable_step; assumption).
  split; [| split].
  - apply positionEffect_fixed. exact (inv_settled s' (invariant_reachable s' Hr')).
  - apply render_fixed. exact (canvas_invariant_reachable s' Hr').
  - intros Hno. apply step_is_handle; assumption.
Qed.

(** X15 at a move of the margin slider in the documented scenario. *)
Lemma effects_come_to_rest_witness :
  let s := fst (run [scenarioUpload jewelry 1000 800; scenarioUpload logo 200 100]
                    initialApp) in
  let s' := fst (step (MarginSlider 50) s) in
  positionEffect s' = s'
  /\ fst (updateCanvas (mountPreview s')) = s'
  /\ s' = updateMargin (JS.ofZ 50) s.
Proof.
  cbv zeta.
  destruct (effects_come_to_rest (MarginSlider 50)
              (fst (run [scenarioUpload jewelry 1000 800; scenarioUpload logo 200 100]
                        initialApp)))
    as (Hp & Hc & Hh).
  - apply reachable_run; [exact reachable_init | reflexivity].
  - reflexivity.
  - split; [exact Hp |]. split; [exact Hc |]. apply Hh. reflexivity.
Defined.

(** X16.  A completed export: in a state the page can reach where the
    download button works, a press of it sets the busy flag, disables the
    button and shows nothing; when [toBlob] then hands over a blob,
    exactly one file is saved, stamped with the time of the callback, and
    the page is back in the state it had before the press. *)
Theorem export_saves_one_file (s : App) (blob : Blob) (now : N) :
  reachable s ->
  enabled DownloadButton s = true ->
  let started := step DownloadButton s in
  let finished := step (BlobReady (Some blob) now) (fst started) in
  snd started = []
  /\ isProcessing (fst started) = true
  /\ enabled DownloadButton (fst started) = false
  /\ snd finished = [SaveFile now]
  /\ fst finished = s.
Proof.
  intros Hr He started finished.
  assert (Hst : fst started = setIsProcessing true s).
  { subst started. rewrite (step_is_handle DownloadButton s Hr He eq_refl).
    cbn [handle fst]. unfold downloadImage.
    destruct (canvasRef s) eqn:Ec; [reflexivity |].
    contradiction (canvas_mounted s (canvas_invariant_reachable s Hr)). }
  assert (Hr1 : reachable (fst started))
    by (subst started; apply reachable_step; assumption).
  assert (He1 : enabled (BlobReady (Some blob) now) (fst started) = true)
    by (rewrite Hst; reflexivity).
  cbn [enabled] in He. apply andb_prop in He. destruct He as [Hb Hp].
  apply negb_true_iff in Hp.
  split; [| split; [| split; [| split]]].
  - subst started. unfold step. cbn [enabled]. rewrite Hb, Hp. reflexivity.
  - rewrite Hst. reflexivity.
  - rewrite Hst. cbn [enabled setIsProcessing isProcessing negb].
    apply andb_false_r.
  - subst finished. unfold step. rewrite He1. reflexivity.
  - subst finished. rewrite (step_is_handle _ _ Hr1 He1 eq_refl).
    cbn [handle toBlobCallback fst]. rewrite Hst.
    apply app_ext; try reflexivity. cbn [setIsProcessing isProcessing]. symmetry. exact Hp.
Qed.

(** X16 at the documented scenario. *)
Lemma export_saves_one_file_witness :
  let s := fst (run [scenarioUpload jewelry 1000 800; scenarioUpload logo 200 100]
                    initialApp) in
  let started := step DownloadButton s in
  let finished := step (BlobReady (Some {| size := 4096 |}) 1700000000000)
                       (fst started) in
  snd started = []
  /\ isProcessing (fst started) = true
  /\ enabled DownloadButton (fst started) = false
  /\ snd finished = [SaveFile 1700000000000]
  /\ fst finished = s.
Proof.
  cbv zeta. apply export_saves_one_file.
  - apply reachable_run; [exact reachable_init | reflexivity].
  - reflexivity.
Defined.

(** X17.  An input that repeats what is stored changes nothing: in a state
    the page can reach with both images, a press of the button of the
    stored position, and a move of the size, margin or opacity slider to
    the stored value, leave the whole state as it is. *)
Theorem repeated_input_changes_nothing (s : App) :
  reachable s ->
  bothImages s = true ->
  (forall p : PositionPreset,
      key p = LogoSettings.position (logoSettings s) ->
      fst (step (PresetButton p) s) = s)
  /\ (forall v : Z,
        JS.ofZ v = LogoSettings.sizePercentage (logoSettings s) ->
        fst (step (SizeSlider v) s) = s)
  /\ (forall v : Z,
        JS.ofZ v = LogoSettings.margin (logoSettings s) ->
        fst (step (MarginSlider v) s) = s)
  /\ (forall v : Z,
        JS.ofZ v = LogoSettings.opacity (logoSettings s) ->
        fst (step (OpacitySlider v) s) = s).
Proof.
  intros Hr Hb.
  destruct (updaters_fixed s (inv_settled s (invariant_reachable s Hr)))
    as (Fp & Fz & Fm & Fo).
  assert (Hstep : forall e, imageReplaced e = false -> fst (handle e s) = s ->
                            fst (step e s) = s).
  { intros e Hno Hh. destruct (enabled e s) eqn:He.
    - rewrite (step_is_handle e s Hr He Hno). exact Hh.
    - unfold step. rewrite He. reflexivity. }
  repeat split; intros v Hv; apply Hstep; try reflexivity; cbn [handle fst];
    rewrite Hv; assumption.
Qed.

(** X17 at the top-right button and the default slider values of the
    documented scenario. *)
Lemma repeated_input_changes_nothing_witness :
  let s := fst (run [scenarioUpload jewelry 1000 800; scenarioUpload logo 200 100]
                    initialApp) in
  fst (step (PresetButton TR) s) = s
  /\ fst (step (SizeSlider 15) s) = s
  /\ fst (step (MarginSlider 20) s) = s
  /\ fst (step (OpacitySlider 100) s) = s.
Proof.
  cbv zeta.
  destruct (repeated_input_changes_nothing
              (fst (run [scenarioUpload jewelry 1000 800; scenarioUpload logo 200 100]
                        initialApp)))
    as (Hp & Hz & Hm & Ho).
  - apply reachable_run; [exact reachable_init | reflexivity].
  - reflexivity.
  - split; [apply Hp; reflexivity |]. split; [apply Hz; reflexivity |].
    split; [apply Hm; reflexivity | apply Ho; reflexivity].
Defined.

End LoopExtras.

(* ================================================================= *)
(** ** Further properties of the page *)

Section PageExtras.
Local Open Scope js_scope.

Lemma isPresetToken_key_inv (position : string) :
  isPresetToken position -> exists p, position = key p.
Proof.
  unfold isPresetToken. cbn. intros H.
  repeat (destruct H as [H | H]; [symmetry in H |]); try contradiction;
    [ exists TL | exists TC | exists TR | exists CL | exists C
    | exists CR | exists BL | exists BC | exists BR ]; exact H.
Qed.

(** X18.  The text shown after [Currently:] names the position: the nine
    tokens have nine different labels, none of them the fallback
    ['Custom'], and in every state the page can reach the label of the
    stored position is one of these, so the fallback is never shown. *)
Theorem position_label_is_never_custom :
  (forall p q : PositionPreset,
      getPositionLabel (key p) = getPositionLabel (key q) -> p = q)
  /\ (forall p : PositionPreset,
        exists text, getPositionLabel (key p) = Label text
                     /\ In (key p, text) labels /\ text <> "Custom")
  /\ (forall s : App,
        reachable s ->
        exists text,
          getPositionLabel (LogoSettings.position (logoSettings s)) = Label text
          /\ text <> "Custom").
Proof.
  assert (Hlabel : forall p : PositionPreset,
             exists text, getPositionLabel (key p) = Label text
                          /\ In (key p, text) labels /\ text <> "Custom").
  { intros p. destruct p; eexists; (split; [reflexivity |]);
      (split; [cbn; tauto | discriminate]). }
  split; [| split].
  - intros p q. destruct p, q; cbn; intros H; first [reflexivity | discriminate H].
  - exact Hlabel.
  - intros s Hr.
    destruct (isPresetToken_key_inv _ (inv_position s (invariant_reachable s Hr)))
      as [p ->].
    destruct (Hlabel p) as (text & E & _ & Hne). exists text. split; assumption.
Qed.

(** X18 after the bottom-centre button in the documented scenario. *)
Lemma position_label_is_never_custom_witness :
  exists text,
    getPositionLabel
      (LogoSettings.position
         (logoSettings
            (fst (run [scenarioUpload jewelry 1000 800; scenarioUpload logo 200 100;
                       PresetButton BC] initialApp))))
    = Label text
    /\ text <> "Custom".
Proof.
  apply (proj2 (proj2 position_label_is_never_custom)).
  apply reachable_run; [exact reachable_init | reflexivity].
Defined.

(** X19.  In every state the page can reach exactly one of the nine
    buttons of the position grid is highlighted: the one whose key is the
    stored position. *)
Theorem one_button_is_highlighted (s : App) :
  reachable s ->
  exists p : PositionPreset,
    key p = LogoSettings.position (logoSettings s)
    /\ filter (isHighlighted s) positionPresets = [p].
Proof.
  intros Hr.
  destruct (isPresetToken_key_inv _ (inv_position s (invariant_reachable s Hr)))
    as [p Hp].
  exists p. split; [symmetry; exact Hp |].
  unfold isHighlighted. rewrite Hp. destruct p; reflexivity.
Qed.

(** X19 after the centre-left button in the documented scenario. *)
Lemma one_button_is_highlighted_witness :
  exists p : PositionPreset,
    key p
    = LogoSettings.position
        (logoSettings
           (fst (run [scenarioUpload jewelry 1000 800; scenarioUpload logo 200 100;
                      PresetButton CL] initialApp)))
    /\ filter
         (isHighlighted
            (fst (run [scenarioUpload jewelry 1000 800; scenarioUpload logo 200 100;
                       PresetButton CL] initialApp)))
         positionPresets
       = [p].
Proof.
  apply one_button_is_highlighted.
  apply reachable_run; [exact reachable_init | reflexivity].
Defined.

(** X20.  A drop uploads its first file and ignores the others.  On the
    page, in a state it rests in: a first file whose type does not start
    with [image/] gives the one alert and changes nothing; one the
    browser does not decode changes nothing and shows nothing; one it
    decodes replaces the image of its slot, with the decoded size, and
    leaves the image of the other slot, the size percentage, the margin,
    the opacity, the position and the busy flag as they were, while the
    position effect and the renders that follow resolve the rectangle
    for the new image and draw both canvases again. *)
Theorem drop_touches_one_slot
    (f : File) (rest : list File) (slot : ImageType)
    (decoded : option (string * N * N)) (s : App) :
  reachable s ->
  let upload := FileChosen f slot decoded in
  handleDrop [] slot decoded s = (s, [])
  /\ handleDrop (f :: rest) slot decoded s = handle upload s
  /\ enabled upload s = true
  /\ (String.prefix "image/" (type f) = false ->
      step upload s = (s, [Alert "Please upload a valid image file"]))
  /\ (String.prefix "image/" (type f) = true -> decoded = None ->
      step upload s = (s, []))
  /\ (forall (result : string) (w h : N),
        String.prefix "image/" (type f) = true ->
        decoded = Some (result, w, h) ->
        let after := fst (step upload s) in
        let imageData := {| ImageData.file := f; ImageData.url := result;
                            ImageData.width := w; ImageData.height := h |} in
        snd (step upload s) = []
        /\ match slot with
           | jewelry => jewelryImage after = Some imageData
                        /\ logoImage after = logoImage s
           | logo => logoImage after = Some imageData
                     /\ jewelryImage after = jewelryImage s
           end
        /\ LogoSettings.sizePercentage (logoSettings after)
           = LogoSettings.sizePercentage (logoSettings s)
        /\ LogoSettings.margin (logoSettings after)
           = LogoSettings.margin (logoSettings s)
        /\ LogoSettings.opacity (logoSettings after)
           = LogoSettings.opacity (logoSettings s)
        /\ LogoSettings.position (logoSettings after)
           = LogoSettings.position (logoSettings s)
        /\ isProcessing after = isProcessing s
        /\ settled after
        /\ CanvasInvariant after).
Proof.
  intros Hr upload. subst upload.
  split; [reflexivity |]. split; [reflexivity |]. split; [reflexivity |].
  assert (Hrest : imageReplaced (FileChosen f slot decoded) = false ->
                  step (FileChosen f slot decoded) s
                  = handle (FileChosen f slot decoded) s).
  { intros Hno.
    pose proof (step_is_handle (FileChosen f slot decoded) s Hr eq_refl Hno) as Hfst.
    unfold step in *. cbn [enabled] in *.
    destruct (handle (FileChosen f slot decoded) s) as [s' out]. cbn [fst] in Hfst.
    rewrite Hfst. reflexivity. }
  split; [| split].
  - intros Hpre. rewrite Hrest.
    + cbn [handle]. unfold handleFileUpload. rewrite Hpre. reflexivity.
    + cbn [imageReplaced]. destruct decoded; [exact Hpre | reflexivity].
  - intros Hpre ->. rewrite Hrest; [| reflexivity].
    cbn [handle]. unfold handleFileUpload. rewrite Hpre. reflexivity.
  - intros result w h Hpre -> after imageData.
    set (upload := FileChosen f slot (Some (result, w, h))) in *.
    pose proof (invariant_step upload s (invariant_reachable s Hr)) as Hinv.
    pose proof (canvas_invariant_step upload s (canvas_invariant_reachable s Hr)) as Hcan.
    fold after in Hinv, Hcan.
    set (s' := match slot with
               | jewelry => setJewelryImage imageData s
               | logo => setLogoImage imageData s
               end).
    assert (Hh : handle upload s = (s', [])).
    { subst upload s'. cbn [handle]. unfold handleFileUpload. rewrite Hpre. cbn [negb].
      destruct slot; reflexivity. }
    assert (Hstep : step upload s = (commit upload s s', [])).
    { unfold step. rewrite Hh. reflexivity. }
    subst after. rewrite Hstep in *. cbn [fst snd] in *.
    destruct (commit_same upload s s') as (Cj & Cl & Cp).
    destruct (commit_frame upload s s') as (Fo & Fz & Fm & Fpos).
    split; [reflexivity |].
    split; [subst s'; destruct slot; rewrite Cj, Cl; split; reflexivity |].
    split; [rewrite Fz; subst s'; destruct slot; reflexivity |].
    split; [rewrite Fm; subst s'; destruct slot; reflexivity |].
    split; [rewrite Fo; subst s'; destruct slot; reflexivity |].
    split; [rewrite Fpos; subst s'; destruct slot; reflexivity |].
    split; [rewrite Cp; subst s'; destruct slot; reflexivity |].
    split; [exact (inv_settled _ Hinv) | exact Hcan].
Qed.

(** X20 at a drop of a 640 by 480 picture and a text file onto the base
    slot of the documented scenario: the picture comes first and becomes
    the base, the logo stays, the rectangle goes from 150 by 75 at
    (830, 20) to 96 by 48 at (524, 20), and the hidden canvas from 1000
    by 800 to 640 by 480. *)
Lemma drop_touches_one_slot_witness :
  let s := fst (run [scenarioUpload jewelry 1000 800; scenarioUpload logo 200 100]
                    initialApp) in
  let after := fst (step (scenarioUpload jewelry 640 480) s) in
  handleDrop [scenarioFile; {| name := "notes.txt"; type := "text/plain" |}] jewelry
    (Some ("data:image/png;base64,", 640%N, 480%N)) s
  = handle (scenarioUpload jewelry 640 480) s
  /\ jewelryImage after = Some (scenarioImage 640 480)
  /\ logoImage after = logoImage s
  /\ settled after
  /\ logoDrawRect s = (JS.Fin 830, JS.Fin 20, JS.Fin 150, JS.Fin 75)
  /\ logoDrawRect after = (JS.Fin 524, JS.Fin 20, JS.Fin 96, JS.Fin 48)
  /\ canvasRef s = Some {| canvasWidth := 1000; canvasHeight := 800 |}
  /\ canvasRef after = Some {| canvasWidth := 640; canvasHeight := 480 |}.
Proof.
  cbv zeta.
  assert (Hr : reachable
                 (fst (run [scenarioUpload jewelry 1000 800; scenarioUpload logo 200 100]
                           initialApp)))
    by (apply reachable_run; [exact reachable_init | reflexivity]).
  destruct (drop_touches_one_slot scenarioFile
              [{| name := "notes.txt"; type := "text/plain" |}] jewelry
              (Some ("data:image/png;base64,", 640%N, 480%N)) _ Hr)
    as (_ & Hdrop & _ & _ & _ & Hdecoded).
  destruct (Hdecoded "data:image/png;base64," 640%N 480%N eq_refl eq_refl)
    as (_ & (Hj & Hl) & _ & _ & _ & _ & _ & Hs & _).
  split; [exact Hdrop |]. split; [exact Hj |]. split; [exact Hl |].
  split; [exact Hs |]. repeat split; reflexivity.
Defined.

(** X21.  No event removes an image: an image that is present stays
    present after every step, so once both are there the settings panel
    never disappears; and the image of a slot changes only by an upload to
    that slot which the browser decoded. *)
Theorem images_are_never_cleared (e : Event) (s : App) :
  let s' := fst (step e s) in
  (jewelryImage s <> None -> jewelryImage s' <> None)
  /\ (logoImage s <> None -> logoImage s' <> None)
  /\ (bothImages s = true -> bothImages s' = true)
  /\ (jewelryImage s' <> jewelryImage s ->
      exists f d, e = FileChosen f jewelry (Some d))
  /\ (logoImage s' <> logoImage s ->
      exists f d, e = FileChosen f logo (Some d)).
Proof.
  cbv zeta.
  assert (Hcases :
    (jewelryImage (fst (step e s)) = jewelryImage s
     \/ (jewelryImage (fst (step e s)) <> None
         /\ exists f d, e = FileChosen f jewelry (Some d)))
    /\ (logoImage (fst (step e s)) = logoImage s
        \/ (logoImage (fst (step e s)) <> None
            /\ exists f d, e = FileChosen f logo (Some d)))).
  { unfold step. destruct (enabled e s); [| split; left; reflexivity].
    destruct (handle e s) as [s' out] eqn:Hh. cbn [fst].
    destruct (commit_same e s s') as (Cj & Cl & _). rewrite Cj, Cl.
    destruct (updaters_images s) as (Ip & Iz & Im).
    destruct e as [f slot decoded | preset | v | v | v | | | blob now];
      cbn [handle] in Hh.
    - unfold handleFileUpload in Hh.
      destruct (negb (String.prefix "image/" (type f)));
        [injection Hh as <- _; split; left; reflexivity |].
      destruct decoded as [[[result w] h] |];
        [| injection Hh as <- _; split; left; reflexivity].
      destruct slot; injection Hh as <- _; cbn [setJewelryImage setLogoImage
                                                 jewelryImage logoImage].
      + split; [right | left; reflexivity].
        split; [discriminate | eexists; eexists; reflexivity].
      + split; [left; reflexivity | right].
        split; [discriminate | eexists; eexists; reflexivity].
    - injection Hh as <- _. destruct (Ip (key preset)). split; left; assumption.
    - injection Hh as <- _. destruct (Iz (JS.ofZ v)). split; left; assumption.
    - injection Hh as <- _. split; left; reflexivity.
    - injection Hh as <- _. destruct (Im (JS.ofZ v)). split; left; assumption.
    - injection Hh as <- _. destruct (Ip "TR"). split; left; assumption.
    - injection Hh as <- _. unfold downloadImage.
      destruct (canvasRef s); split; left; reflexivity.
    - unfold toBlobCallback in Hh.
      destruct blob; injection Hh as <- _; split; left; reflexivity. }
  destruct Hcases as (Hj & Hl).
  assert (Kj : jewelryImage s <> None -> jewelryImage (fst (step e s)) <> None).
  { intros H. destruct Hj as [-> | [Hn _]]; assumption. }
  assert (Kl : logoImage s <> None -> logoImage (fst (step e s)) <> None).
  { intros H. destruct Hl as [-> | [Hn _]]; assumption. }
  split; [exact Kj |]. split; [exact Kl |]. split; [| split].
  - unfold bothImages. intros Hb.
    destruct (jewelryImage s) eqn:Ej; [| discriminate Hb].
    destruct (logoImage s) eqn:El; [| discriminate Hb].
    destruct (jewelryImage (fst (step e s)));
      [| contradiction Kj; [discriminate | reflexivity]].
    destruct (logoImage (fst (step e s)));
      [reflexivity | contradiction Kl; [discriminate | reflexivity]].
  - intros Hne. destruct Hj as [E | [_ Hex]]; [contradiction | exact Hex].
  - intros Hne. destruct Hl as [E | [_ Hex]]; [contradiction | exact Hex].
Qed.

(** X21 at a failed upload and at a replacement of the logo in the
    documented scenario. *)
Lemma images_are_never_cleared_witness :
  let s := fst (run [scenarioUpload jewelry 1000 800; scenarioUpload logo 200 100]
                    initialApp) in
  bothImages (fst (step (FileChosen scenarioFile logo None) s)) = true
  /\ bothImages (fst (step (scenarioUpload logo 64 64) s)) = true.
Proof.
  cbv zeta. split.
  - apply (proj1 (proj2 (proj2 (images_are_never_cleared
                                  (FileChosen scenarioFile logo None) _)))).
    reflexivity.
  - apply (proj1 (proj2 (proj2 (images_are_never_cleared
                                  (scenarioUpload logo 64 64) _)))).
    reflexivity.
Defined.

End PageExtras.

(* ================================================================= *)
(** ** Further properties of the compositor calls and of the export *)

Section OutputExtras.
Local Open Scope js_scope.

(** X22.  What the compositor is asked to do in a state the page can
    reach with both images: draw the base image at the origin, set the
    alpha to the stored opacity over 100, a value between 1/10 and 1, draw
    the logo in the stored rectangle, and set the alpha back to 1. *)
Theorem compositor_calls (s : App) (base logoImg : ImageData.t) :
  reachable s ->
  jewelryImage s = Some base ->
  logoImage s = Some logoImg ->
  exists (alpha : Q) (opacity : Z),
    snd (updateCanvas s)
    = [ DrawImage (ImageData.url base) 0%Z 0%Z;
        SetGlobalAlpha (JS.Fin alpha);
        DrawImageScaled (ImageData.url logoImg)
          (LogoSettings.x (logoSettings s)) (LogoSettings.y (logoSettings s))
          (LogoSettings.width (logoSettings s)) (LogoSettings.height (logoSettings s));
        SetGlobalAlpha 1%Z ]
    /\ LogoSettings.opacity (logoSettings s) = JS.ofZ opacity
    /\ (alpha * 100 == inject_Z opacity)%Q
    /\ (1 # 10 <= alpha)%Q /\ (alpha <= 1)%Q.
Proof.
  intros Hr Hj Hl.
  destruct (inv_params s (invariant_reachable s Hr)) as (_ & _ & (opacity & Ho & Hrange)).
  destruct (canvasRef s) as [canvas |] eqn:Hc;
    [| contradiction (canvas_mounted s (canvas_invariant_reachable s Hr))].
  rewrite (updateCanvas_ops s base logoImg canvas Hj Hl Hc).
  unfold logoAlpha, logoDrawRect. cbn [fst snd]. rewrite Ho.
  change (JS.ofZ opacity) with (JS.Fin (inject_Z opacity)).
  rewrite div_fin_pos by lia.
  exists (Qred (inject_Z opacity / inject_Z 100)), opacity.
  pose proof (Qred_correct (inject_Z opacity / inject_Z 100)) as R.
  assert (H10 : (10 <= inject_Z opacity)%Q)
    by (change 10%Q with (inject_Z 10); rewrite <- Zle_Qle; lia).
  assert (H100 : (inject_Z opacity <= 100)%Q)
    by (change 100%Q with (inject_Z 100); rewrite <- Zle_Qle; lia).
  split; [reflexivity |]. split; [reflexivity |].
  rewrite R. unfold Qdiv. change (/ inject_Z 100)%Q with (1 # 100)%Q.
  repeat split; lra.
Qed.

(** X22 at the documented scenario with the opacity slider at 40. *)
Lemma compositor_calls_witness :
  exists (alpha : Q) (opacity : Z),
    snd (updateCanvas
           (fst (run [scenarioUpload jewelry 1000 800; scenarioUpload logo 200 100;
                      OpacitySlider 40] initialApp)))
    = [ DrawImage "data:image/png;base64," 0%Z 0%Z;
        SetGlobalAlpha (JS.Fin alpha);
        DrawImageScaled "data:image/png;base64,"
          (JS.Fin 830) (JS.Fin 20) (JS.Fin 150) (JS.Fin 75);
        SetGlobalAlpha 1%Z ]
    /\ JS.ofZ 40 = JS.ofZ opacity
    /\ (alpha * 100 == inject_Z opacity)%Q
    /\ (1 # 10 <= alpha)%Q /\ (alpha <= 1)%Q.
Proof.
  refine (compositor_calls
           (fst (run [scenarioUpload jewelry 1000 800; scenarioUpload logo 200 100;
                      OpacitySlider 40] initialApp))
           (scenarioImage 1000 800) (scenarioImage 200 100)
           _ eq_refl eq_refl).
  apply reachable_run; [exact reachable_init | reflexivity].
Defined.

Lemma append_length (a b : string) :
  String.length (a ++ b) = (String.length a + String.length b)%nat.
Proof. induction a as [| c a IH]; cbn; [reflexivity | rewrite IH; reflexivity]. Qed.

Lemma append_cancel_l (p a b : string) : (p ++ a = p ++ b)%string -> a = b.
Proof.
  induction p as [| c p IH]; cbn; intros H; [exact H |].
  injection H as H. apply IH, H.
Qed.

Lemma append_cancel_r (a b suffix : string) :
  (a ++ suffix = b ++ suffix)%string -> a = b.
Proof.
  revert b. induction a as [| c a IH]; intros [| d b] H; cbn in H.
  - reflexivity.
  - apply (f_equal String.length) in H. cbn in H. rewrite append_length in H. lia.
  - apply (f_equal String.length) in H. cbn in H. rewrite append_length in H. lia.
  - injection H as -> H. f_equal. apply IH, H.
Qed.

(** X23.  The name of the saved file determines the time of the export:
    two exports get the same name only at the same millisecond, so a later
    export never takes the name of an earlier one. *)
Theorem download_names_differ (now later : N) :
  downloadFileName now = downloadFileName later -> now = later.
Proof.
  unfold downloadFileName. intros H.
  apply append_cancel_l, append_cancel_r in H.
  apply (f_equal NilEmpty.uint_of_string) in H. rewrite !NilEmpty.usu in H.
  injection H as H. apply (f_equal N.of_uint) in H.
  rewrite !DecimalN.Unsigned.of_to in H. exact H.
Qed.

(** X23 at the name of an export at millisecond 1700000000000. *)
Lemma download_names_differ_witness :
  downloadFileName 1700000000000 = "chitaliya-branded-jewelry-1700000000000.png"
  /\ 1700000000000%N = 1700000000000%N.
Proof.
  split; [reflexivity |].
  apply download_names_differ. reflexivity.
Defined.

End OutputExtras.
